(** * News Dashboard backend: URL guard, bounded fetch and TextRank summary

    A shallow embedding of [routes/summarize.js] and of the article-fetch
    route (the sibling file that carries the same guard and a 200 KiB
    ceiling), with the properties of the summarisation core stated and
    proved over it.

    Conventions of the embedding.
    - A JavaScript string is the list of its UTF-16 code units ([jsstring]).
    - A JavaScript number is kept abstract ([NumOps]): the ranker is written
      once and read both over the real numbers (for the laws of the
      recurrence) and over IEEE-754 binary64 (to run it).
    - The platform (the WHATWG [URL] class and the network behind [fetch])
      is an explicit argument of the route handlers; every handler returns
      its HTTP response together with the trace of the calls it made. *)

From Stdlib Require Import Reals Lra.
From Stdlib Require Floats.
From Stdlib Require Import String Ascii.
From Stdlib Require Import List Bool Arith ZArith NArith Lia.
From Stdlib Require Import Permutation Sorted.
Import ListNotations.


(** ** JavaScript strings *)

Module JS.

Definition jsstring := list N.

(** A string literal of the source, as code units. *)
Definition lit (s : string) : jsstring :=
  map N_of_ascii (list_ascii_of_string s).

Definition ch (s : string) : N :=
  match s with
  | String a _ => N_of_ascii a
  | EmptyString => 0%N
  end.

Fixpoint eqb (a b : jsstring) : bool :=
  match a, b with
  | [], [] => true
  | x :: a', y :: b' => N.eqb x y && eqb a' b'
  | _, _ => false
  end.

(** [s.startsWith(p)] *)
Fixpoint startsWith (s p : jsstring) : bool :=
  match p, s with
  | [], _ => true
  | y :: p', x :: s' => N.eqb x y && startsWith s' p'
  | _ :: _, [] => false
  end.

(** [s.endsWith(p)] *)
Definition endsWith (s p : jsstring) : bool :=
  startsWith (rev s) (rev p).

(** [s.slice(0, n)] for [0 <= n]. *)
Definition slice0 (n : nat) (s : jsstring) : jsstring := firstn n s.

(** [s.split(c)] for a one-character separator: never empty, one more
    piece than there are separators. *)
Fixpoint split (c : N) (s : jsstring) : list jsstring :=
  match s with
  | [] => [[]]
  | x :: s' =>
      if N.eqb x c then [] :: split c s'
      else match split c s' with
           | p :: ps => (x :: p) :: ps
           | [] => [[x]]
           end
  end.

(** [parts.join(sep)]; an [undefined] element ([None]) joins as the empty
    string. *)
Fixpoint join (sep : jsstring) (parts : list (option jsstring)) : jsstring :=
  match parts with
  | [] => []
  | [p] => match p with Some s => s | None => [] end
  | p :: rest =>
      (match p with Some s => s | None => [] end) ++ sep ++ join sep rest
  end.

(** White space and line terminators: the class [\s] of regular
    expressions, which is also what [trim] removes. *)
Definition isSpace (c : N) : bool :=
  ((9 <=? c) && (c <=? 13) || (c =? 32) || (c =? 160) || (c =? 5760)
   || ((8192 <=? c) && (c <=? 8202)) || (c =? 8232) || (c =? 8233)
   || (c =? 8239) || (c =? 8287) || (c =? 12288) || (c =? 65279))%N.

Fixpoint trimStart (s : jsstring) : jsstring :=
  match s with
  | x :: s' => if isSpace x then trimStart s' else s
  | [] => []
  end.

Definition trim (s : jsstring) : jsstring :=
  rev (trimStart (rev (trimStart s))).

Definition isDigit (c : N) : bool := ((48 <=? c) && (c <=? 57))%N.
Definition isLower (c : N) : bool := ((97 <=? c) && (c <=? 122))%N.
Definition isUpper (c : N) : bool := ((65 <=? c) && (c <=? 90))%N.
Definition isHex (c : N) : bool :=
  isDigit c || ((97 <=? c) && (c <=? 102))%N || ((65 <=? c) && (c <=? 70))%N.

(** [s.toLowerCase()].  Letters A-Z are mapped by the ASCII rule; the only
    two code units outside ASCII whose lower case reaches ASCII are the
    Kelvin sign (to [k]) and the dotted capital I (to [i] followed by a
    combining dot).  Every other code unit is left as it is: both uses
    below either work on ASCII host names or blank every code unit outside
    [a-z0-9\s] right after, so the lower case of the remaining letters is
    never observed. *)
Definition lowerUnit (c : N) : jsstring :=
  if isUpper c then [(c + 32)%N]
  else if (c =? 8490)%N then [107%N]
  else if (c =? 304)%N then [105%N; 775%N]
  else [c].

Definition toLowerCase (s : jsstring) : jsstring := flat_map lowerUnit s.

(** The decimal value of a run of digits, most significant first. *)
Definition digitsValue (ds : jsstring) : Z :=
  fold_left (fun acc d => (10 * acc + (Z.of_N d - 48))%Z) ds 0%Z.

Fixpoint takeDigits (s : jsstring) : jsstring :=
  match s with
  | x :: s' => if isDigit x then x :: takeDigits s' else []
  | [] => []
  end.

(** [parseInt(s, 10)]: leading white space and one sign are skipped, the
    longest run of decimal digits is read; [None] stands for [NaN]. *)
Definition parseInt10 (s : jsstring) : option Z :=
  let s1 := trimStart s in
  let '(neg, s2) :=
    match s1 with
    | x :: r => if (x =? 45)%N then (true, r)
                else if (x =? 43)%N then (false, r) else (false, s1)
    | [] => (false, s1)
    end in
  match takeDigits s2 with
  | [] => None
  | ds => Some (if neg then (- digitsValue ds)%Z else digitsValue ds)
  end.

End JS.

Import JS.

(** ** The [net] module of the platform: [net.isIP] *)

(** [net.isIP] as Node decides it: an IPv4 address is four decimal octets
    without leading zeros; an IPv6 address is eight groups of one to four
    hexadecimal digits, of which a run may be elided once by [::] and the
    last two may be written as an IPv4 address, with an optional zone index
    after [%].  Neither admits a square bracket. *)
Module Net.

(** A decimal octet: [25[0-5]|2[0-4]\d|1\d\d|[1-9]\d|\d]. *)
Definition v4Seg (s : jsstring) : bool :=
  match s with
  | [] => false
  | d :: r =>
      forallb isDigit s
      && (length s <=? 3)
      && (match r with [] => true | _ => negb (d =? 48)%N end)
      && (digitsValue s <=? 255)%Z
  end.

Definition v4Str (s : jsstring) : bool :=
  match JS.split (ch ".") s with
  | [a; b; c; d] => v4Seg a && v4Seg b && v4Seg c && v4Seg d
  | _ => false
  end.

Definition isIPv4 (s : jsstring) : bool := v4Str s.

(** One group of an IPv6 address: one to four hexadecimal digits. *)
Definition v6Seg (s : jsstring) : bool :=
  match s with
  | [] => false
  | _ => forallb isHex s && (length s <=? 4)
  end.

(** The text before and after the first [::], when there is one. *)
Fixpoint cutDoubleColon (s : jsstring) : option (jsstring * jsstring) :=
  match s with
  | x :: ((y :: r) as s') =>
      if ((x =? 58) && (y =? 58))%N then Some ([], r)
      else match cutDoubleColon s' with
           | Some (l, r') => Some (x :: l, r')
           | None => None
           end
  | _ => None
  end.

Definition groupsOf (s : jsstring) : list jsstring :=
  match s with
  | [] => []
  | _ => JS.split (ch ":") s
  end.

(** The number of 16-bit groups a tail of an address stands for, when it is
    well formed: hexadecimal groups, the last of which may be a dotted
    IPv4 address (two groups). *)
Fixpoint tailGroups (gs : list jsstring) : option nat :=
  match gs with
  | [] => Some 0
  | [g] => if v6Seg g then Some 1 else if v4Str g then Some 2 else None
  | g :: rest =>
      if v6Seg g then option_map S (tailGroups rest) else None
  end.

Definition zoneChar (c : N) : bool :=
  isDigit c || isLower c || isUpper c
  || (c =? 45)%N || (c =? 46)%N || (c =? 58)%N.

(** The address and the zone index (after [%]) of an IPv6 literal. *)
Fixpoint cutZone (s : jsstring) : jsstring * option jsstring :=
  match s with
  | [] => ([], None)
  | x :: r =>
      if (x =? 37)%N then ([], Some r)
      else let '(a, z) := cutZone r in (x :: a, z)
  end.

Definition isIPv6 (s : jsstring) : bool :=
  let '(addr, zone) := cutZone s in
  (match zone with
   | None => true
   | Some z => negb (length z =? 0) && forallb zoneChar z
   end)
  &&
  match cutDoubleColon addr with
  | Some (l, r) =>
      forallb v6Seg (groupsOf l)
      && match tailGroups (groupsOf r) with
         | Some k => length (groupsOf l) + k <=? 7
         | None => false
         end
  | None =>
      match tailGroups (groupsOf addr) with
      | Some k => k =? 8
      | None => false
      end
  end.

(** [net.isIP(s)]: 4, 6, or 0 when [s] is no IP address. *)
Definition isIP (s : jsstring) : Z :=
  if isIPv4 s then 4%Z else if isIPv6 s then 6%Z else 0%Z.

End Net.

(** ** The URL guard *)

(** [parts[i] === k] on the array [ip.split('.').map(parseInt)]: a missing
    element ([undefined]) and [NaN] equal no number. *)
Definition partIs (parts : list (option Z)) (i : nat) (k : Z) : bool :=
  match nth_error parts i with
  | Some (Some v) => (v =? k)%Z
  | _ => false
  end.

Definition partIn (parts : list (option Z)) (i : nat) (lo hi : Z) : bool :=
  match nth_error parts i with
  | Some (Some v) => (lo <=? v)%Z && (v <=? hi)%Z
  | _ => false
  end.

(** [isPrivateIp(ip)], the same text in both route files. *)
Definition isPrivateIp (ip : jsstring) : bool :=
  let v := Net.isIP ip in
  if (v =? 4)%Z then
    let parts := map parseInt10 (JS.split (ch ".") ip) in
    if partIs parts 0 10 then true
    else if partIs parts 0 127 then true
    else if partIs parts 0 169 && partIs parts 1 254 then true
    else if partIs parts 0 192 && partIs parts 1 168 then true
    else if partIs parts 0 172 && partIn parts 1 16 31 then true
    else false
  else if (v =? 6)%Z then
    if JS.eqb ip (lit "::1") || JS.eqb ip (lit "0:0:0:0:0:0:0:1") then true
    else if startsWith ip (lit "fc") || startsWith ip (lit "fd") then true
    else false
  else false.

(** What [new URL(url)] exposes to the guard. *)
Record ParsedURL := { protocol : jsstring; hostname : jsstring }.

(** An HTTP answer of a route: [res.status(s).json(b)]. *)
Inductive Json :=
| JError (error : string)
| JText (text : jsstring)
| JSummary (summary : jsstring).

Record Response := { status : Z; payload : Json }.

Definition respond (s : Z) (e : string) : Response :=
  {| status := s; payload := JError e |}.

(** The checks between [new URL(url)] and the call of [fetch], as both
    routes write them; [None] when every check passes.  The argument is the
    result of [new URL(url)], [None] when it throws. *)
Definition urlGuard (parsed : option ParsedURL) : option Response :=
  match parsed with
  | None => Some (respond 400 "Invalid url")
  | Some p =>
      if negb (JS.eqb (protocol p) (lit "http:")
               || JS.eqb (protocol p) (lit "https:"))
      then Some (respond 400 "Invalid protocol")
      else
        let hostname := toLowerCase (hostname p) in
        if JS.eqb hostname (lit "localhost")
           || endsWith hostname (lit ".localhost")
        then Some (respond 400 "Disallowed host")
        else if negb (Net.isIP hostname =? 0)%Z && isPrivateIp hostname
        then Some (respond 400 "Disallowed IP")
        else None
  end.

(** ** The text extractor: the four [replace] calls and [trim] *)

Module Extract.

Definition lowerAscii (c : N) : N := if isUpper c then (c + 32)%N else c.

(** The rest of [s] after the prefix [pat], compared without regard to
    ASCII case ([pat] is given in lower case): the [i] flag of a regular
    expression never relates a code unit outside ASCII to an ASCII one. *)
Fixpoint prefixCI (pat s : jsstring) : option jsstring :=
  match pat, s with
  | [], _ => Some s
  | p :: pat', x :: s' =>
      if (lowerAscii x =? p)%N then prefixCI pat' s' else None
  | _ :: _, [] => None
  end.

(** Index of the first occurrence of [pat] in [s], case-insensitively. *)
Fixpoint findCI (pat s : jsstring) : option nat :=
  match prefixCI pat s with
  | Some _ => Some 0
  | None =>
      match s with
      | [] => None
      | _ :: s' => option_map S (findCI pat s')
      end
  end.

Fixpoint findChar (c : N) (s : jsstring) : option nat :=
  match s with
  | [] => None
  | x :: s' => if (x =? c)%N then Some 0 else option_map S (findChar c s')
  end.

(** Length of the match of [<open[\s\S]*?>[\s\S]*?</close>] at the start of
    [s]: the opening word, the nearest [>], the nearest closing tag after
    it.  (A later [>] leaves a shorter text to search, so the lazy search
    succeeds at the first [>] or not at all.) *)
Definition blockMatch (opening closing : jsstring) (s : jsstring)
  : option nat :=
  match prefixCI opening s with
  | None => None
  | Some r1 =>
      match findChar (ch ">") r1 with
      | None => None
      | Some i =>
          match findCI closing (skipn (S i) r1) with
          | None => None
          | Some j => Some (length opening + S i + j + length closing)
          end
      end
  end.

(** Length of the match of [<[^>]+>] at the start of [s]. *)
Definition tagMatch (s : jsstring) : option nat :=
  match s with
  | x :: r =>
      if (x =? ch "<")%N then
        match findChar (ch ">") r with
        | Some (S i) => Some (S (S (S i)))
        | _ => None
        end
      else None
  | [] => None
  end.

(** [s.replace(re, ' ')] with the [g] flag, for a pattern whose match at a
    position is given by [m] (its length): scanning resumes after each
    match; [skip] counts the code units of a match still to drop. *)
Fixpoint replaceAll (m : jsstring -> option nat) (skip : nat) (s : jsstring)
  : jsstring :=
  match s with
  | [] => []
  | x :: s' =>
      match skip with
      | S k => replaceAll m k s'
      | O =>
          match m s with
          | Some len => 32%N :: replaceAll m (pred len) s'
          | None => x :: replaceAll m 0 s'
          end
      end
  end.

(** [s.replace(/\s+/g, ' ')] *)
Fixpoint collapseSpace (inRun : bool) (s : jsstring) : jsstring :=
  match s with
  | [] => []
  | x :: s' =>
      if isSpace x then
        if inRun then collapseSpace true s' else 32%N :: collapseSpace true s'
      else x :: collapseSpace false s'
  end.

Definition stripTags (text : jsstring) : jsstring :=
  let text := replaceAll (blockMatch (lit "<script") (lit "</script>")) 0 text in
  let text := replaceAll (blockMatch (lit "<style") (lit "</style>")) 0 text in
  let text := replaceAll tagMatch 0 text in
  trim (collapseSpace false text).

End Extract.

(** ** Segmenter, tokenizer and vectorizer *)

Module Text.

Definition isTerminal (c : N) : bool :=
  ((c =? 46) || (c =? 33) || (c =? 63))%N.

(** [s.split(/(?<=[.!?])\s+/)]: a separator is a maximal run of white space
    that starts right after a terminal mark.  [cur] is the piece being
    read, reversed; [afterMark] tells whether the previous code unit is a
    terminal mark; [inSep] whether a separator is being skipped. *)
Fixpoint splitAfterMark (afterMark inSep : bool) (cur : jsstring)
  (s : jsstring) : list jsstring :=
  match s with
  | [] => [rev cur]
  | x :: s' =>
      if isSpace x && inSep then splitAfterMark false true cur s'
      else if isSpace x && afterMark then
        rev cur :: splitAfterMark false true [] s'
      else splitAfterMark (isTerminal x) false (x :: cur) s'
  end.

Definition splitSentences (text : jsstring) : list jsstring :=
  let text := map (fun c => if (c =? 10)%N then 32%N else c) text in
  filter (fun s => negb (length s =? 0))
    (map trim (splitAfterMark false false [] text)).

(** [s.split(/\s+/)] *)
Fixpoint splitSpace (inSep : bool) (cur : jsstring) (s : jsstring)
  : list jsstring :=
  match s with
  | [] => [rev cur]
  | x :: s' =>
      if isSpace x then
        if inSep then splitSpace true cur s'
        else rev cur :: splitSpace true [] s'
      else splitSpace false (x :: cur) s'
  end.

Definition tokenize (s : jsstring) : list jsstring :=
  let s := toLowerCase s in
  let s := map (fun c => if isLower c || isDigit c || isSpace c
                         then c else 32%N) s in
  filter (fun w => 2 <? length w) (splitSpace false [] s).

(** A sentence vector: term id and count, kept in ascending order of the
    id, the order in which [for (const k in a)] visits integer keys. *)
Definition Vector := list (nat * nat).

Fixpoint lookupV (k : nat) (v : Vector) : option nat :=
  match v with
  | [] => None
  | (k', c) :: v' => if k' =? k then Some c else lookupV k v'
  end.

(** [freq[id] = (freq[id] || 0) + 1] *)
Fixpoint bump (k : nat) (v : Vector) : Vector :=
  match v with
  | [] => [(k, 1)]
  | (k', c) :: v' =>
      if k' =? k then (k', S c) :: v'
      else if k <? k' then (k, 1) :: v
      else (k', c) :: bump k v'
  end.

(** The vocabulary [Map]: tokens in the order they were first seen, the
    id of a token being its position. *)
Definition Vocab := list jsstring.

Fixpoint vocabGet (t : jsstring) (vocab : Vocab) (pos : nat) : option nat :=
  match vocab with
  | [] => None
  | w :: vocab' => if JS.eqb w t then Some pos else vocabGet t vocab' (S pos)
  end.

Definition addToken (st : Vocab * Vector) (t : jsstring) : Vocab * Vector :=
  let '(vocab, freq) := st in
  match vocabGet t vocab 0 with
  | Some id => (vocab, bump id freq)
  | None => (vocab ++ [t], bump (length vocab) freq)
  end.

Definition addSentence (st : Vocab * list Vector) (s : jsstring)
  : Vocab * list Vector :=
  let '(vocab, vectors) := st in
  let '(vocab', freq) := fold_left addToken (tokenize s) (vocab, []) in
  (vocab', vectors ++ [freq]).

(** [buildSentenceVectors(sentences)]: the vectors and [vocabSize]. *)
Definition buildSentenceVectors (sentences : list jsstring)
  : list Vector * nat :=
  let '(vocab, vectors) := fold_left addSentence sentences ([], []) in
  (vectors, length vocab).

End Text.

(** ** JavaScript numbers *)

(** The operations the ranker and the selector perform on numbers.  The
    ranker is written over this interface; [RealNum] reads it over the real
    numbers and [FloatNum] over binary64, the arithmetic JavaScript runs. *)
Record NumOps := {
  num : Type;
  ofZ : Z -> num;                   (* an integer literal or array length *)
  add : num -> num -> num;
  sub : num -> num -> num;
  mul : num -> num -> num;
  div : num -> num -> num;
  sqrt : num -> num;                (* Math.sqrt *)
  floor : num -> Z;                 (* Math.floor, of a finite number *)
  eqb : num -> num -> bool;         (* === *)
  leb : num -> num -> bool;         (* <= *)
  ltb : num -> num -> bool          (* < *)
}.

(** ** Array.prototype.sort *)

(** [arr.sort(cmp)] is a stable sort; [after a b] stands for [cmp(a, b) > 0],
  that is, [a] is to come after [b]. *)
Section Sort.
Context {A : Type} (after : A -> A -> bool).

Fixpoint insertSorted (x : A) (l : list A) : list A :=
  match l with
  | [] => [x]
  | y :: l' => if after x y then y :: insertSorted x l' else x :: l
  end.

Definition jsSort (l : list A) : list A := fold_right insertSorted [] l.
End Sort.

(** ** The similarity ranker *)

Section Ranker.
Variable ops : NumOps.
Definition zero : num ops := ofZ ops 0.
Definition one : num ops := ofZ ops 1.

Import Text.

(** [cosineSim(a, b)].  The three accumulators only ever hold sums of
    products of counts, which are integers; they are kept as integers
    and become numbers where the source divides. *)
Definition cosineSim (a b : Vector) : num ops :=
  let dot := fold_left (fun acc '(k, av) =>
               match lookupV k b with
               | Some (S bv) => (acc + Z.of_nat av * Z.of_nat (S bv))%Z
               | _ => acc
               end) a 0%Z in
  let na := fold_left (fun acc '(_, av) => (acc + Z.of_nat av * Z.of_nat av)%Z) a 0%Z in
  let nb := fold_left (fun acc '(_, bv) => (acc + Z.of_nat bv * Z.of_nat bv)%Z) b 0%Z in
  if (na =? 0)%Z || (nb =? 0)%Z then zero
  else div ops (ofZ ops dot)
         (mul ops (sqrt ops (ofZ ops na)) (sqrt ops (ofZ ops nb))).

Definition Matrix := list (list (num ops)).

Definition entry (m : Matrix) (r c : nat) : num ops :=
  nth c (nth r m []) zero.

(** [arr[i] = x], for an index within the array (the loops below never
    write past the end). *)
Fixpoint setNth {A : Type} (i : nat) (x : A) (arr : list A) {struct arr}
  : list A :=
  match arr, i with
  | [], _ => []
  | _ :: rest, O => x :: rest
  | y :: rest, S i' => y :: setNth i' x rest
  end.

(** [sim[r][c] = x] *)
Definition setEntry (sim : Matrix) (r c : nat) (x : num ops) : Matrix :=
  setNth r (setNth c x (nth r sim [])) sim.

(** The inner loop for row [i]: for [j] from [i + 1] to [n - 1], the
    value [cosineSim(vectors[i], vectors[j])] is stored at [sim[i][j]] and
    at [sim[j][i]]. *)
Definition fillRow (n : nat) (vectors : list Vector) (i : nat)
  (sim : Matrix) : Matrix :=
  fold_left (fun sim j =>
      let s := cosineSim (nth i vectors []) (nth j vectors []) in
      setEntry (setEntry sim i j s) j i s)
    (seq (S i) (n - S i)) sim.

(** The matrix after the two nested loops, started from [n] rows of [n]
    zeros. *)
Definition simMatrix (n : nat) (vectors : list Vector) : Matrix :=
  fold_left (fun sim i => fillRow n vectors i sim) (seq 0 n)
    (repeat (repeat zero n) n).

(** A matrix of [n] rows of [n] entries. *)
Definition square (n : nat) (sim : Matrix) : Prop :=
  length sim = n /\ forall r, r < n -> length (nth r sim []) = n.

(** The value the loops store for the pair of rows [r] and [c]. *)
Definition pairSim (vectors : list Vector) (r c : nat) : num ops :=
  if r <? c then cosineSim (nth r vectors []) (nth c vectors [])
  else cosineSim (nth c vectors []) (nth r vectors []).

(** [sim.map((row) => row.reduce((a, b) => a + b, 0))] *)
Definition rowSums (sim : Matrix) : list (num ops) :=
  map (fun row => fold_left (add ops) row zero) sim.

(** The value one pass of the loops leaves in [next[i]]: [(1 - d) / n],
    to which, unless the row sum of [i] is zero, the inner loop adds
    [d * (sim[j][i] / rowSum[j]) * scores[j]] for each [j] with a positive
    [sim[j][i]], in the order of [j]. *)
Definition nextScore (d : num ops) (n : nat) (sim : Matrix)
  (rowSum scores : list (num ops)) (i : nat) : num ops :=
  let base := div ops (sub ops one d) (ofZ ops (Z.of_nat n)) in
  if eqb ops (nth i rowSum zero) zero then base
  else
    fold_left (fun acc j =>
        if leb ops (entry sim j i) zero then acc
        else add ops acc
               (mul ops (mul ops d (div ops (entry sim j i) (nth j rowSum zero)))
                  (nth j scores zero)))
      (seq 0 n) base.

(** The inner loop over [j] for row [i], on the array [next]:
    [next[i] += d * (sim[j][i] / rowSum[j]) * scores[j]] unless
    [sim[j][i] <= 0]. *)
Definition accumulateRow (d : num ops) (n : nat) (sim : Matrix)
  (rowSum scores : list (num ops)) (i : nat) (next : list (num ops))
  : list (num ops) :=
  fold_left (fun next j =>
      if leb ops (entry sim j i) zero then next
      else setNth i
             (add ops (nth i next zero)
                (mul ops (mul ops d (div ops (entry sim j i) (nth j rowSum zero)))
                   (nth j scores zero)))
             next)
    (seq 0 n) next.

(** The loop over [i] that fills [next], a fresh array of [n] times
    [(1 - d) / n]; it reads [scores] and writes [next] only. *)
Definition fillNext (d : num ops) (n : nat) (sim : Matrix)
  (rowSum scores : list (num ops)) : list (num ops) :=
  fold_left (fun next i =>
      if eqb ops (nth i rowSum zero) zero then next
      else accumulateRow d n sim rowSum scores i next)
    (seq 0 n)
    (repeat (div ops (sub ops one d) (ofZ ops (Z.of_nat n))) n).

(** [for (let k = 0; k < n; k++) scores[k] = next[k]] *)
Definition copyBack (n : nat) (next scores : list (num ops))
  : list (num ops) :=
  fold_left (fun scores k => setNth k (nth k next zero) scores)
    (seq 0 n) scores.

(** One iteration of the outer loop: [next] is filled from [scores], then
    copied over it. *)
Definition iteration (d : num ops) (n : nat) (sim : Matrix)
  (rowSum scores : list (num ops)) : list (num ops) :=
  copyBack n (fillNext d n sim rowSum scores) scores.

Fixpoint iterations (iters : nat) (d : num ops) (n : nat) (sim : Matrix)
  (rowSum scores : list (num ops)) : list (num ops) :=
  match iters with
  | O => scores
  | S k => iterations k d n sim rowSum (iteration d n sim rowSum scores)
  end.

(** The scores when the loop ends, before they are paired and sorted. *)
Definition finalScores (d : num ops) (iters : nat) (n : nat)
  (vectors : list Vector) : list (num ops) :=
  let sim := simMatrix n vectors in
  iterations iters d n sim (rowSums sim)
    (repeat (div ops one (ofZ ops (Z.of_nat n))) n).

(** An element of the array [textRank] returns: the object
    [{ idx, score }], or the bare number of the one-sentence shortcut. *)
Inductive RankItem :=
| Bare (k : Z)
| Scored (idx : nat) (score : num ops).

(** [t.idx]; [None] is [undefined]. *)
Definition idxOf (t : RankItem) : option nat :=
  match t with
  | Scored i _ => Some i
  | Bare _ => None
  end.

(** The index a scored element carries (0 for a bare number). *)
Definition keyOf (t : RankItem) : nat :=
  match t with
  | Scored i _ => i
  | Bare _ => 0
  end.

Definition scoreOf (t : RankItem) : option (num ops) :=
  match t with
  | Scored _ s => Some s
  | Bare _ => None
  end.

(** [(a, b) => b.score - a.score] is positive; the difference of two
    missing scores is [NaN], which [sort] takes for 0. *)
Definition byScoreDesc (a b : RankItem) : bool :=
  match scoreOf a, scoreOf b with
  | Some sa, Some sb => ltb ops zero (sub ops sb sa)
  | _, _ => false
  end.

(** [(a, b) => a.idx - b.idx] is positive. *)
Definition byIdxAsc (a b : RankItem) : bool :=
  match idxOf a, idxOf b with
  | Some ia, Some ib => ib <? ia
  | _, _ => false
  end.

Fixpoint withIndex (i : nat) (scores : list (num ops)) : list RankItem :=
  match scores with
  | [] => []
  | s :: rest => Scored i s :: withIndex (S i) rest
  end.

(** The [opts] argument; a missing field is [None]. *)
Record RankOpts := { damping : option (num ops); iters : option nat }.

(** [opts.damping || 0.85] and [opts.iters || 20]: zero counts as missing,
    and so does [NaN], the one number that is not equal to itself.  The
    literal 0.85 is the quotient 85/100, which is correctly rounded in
    binary64 as the literal is. *)
Definition dampingOf (opts : RankOpts) : num ops :=
  let dflt := div ops (ofZ ops 85) (ofZ ops 100) in
  match damping opts with
  | Some d => if eqb ops d zero || negb (eqb ops d d) then dflt else d
  | None => dflt
  end.

Definition itersOf (opts : RankOpts) : nat :=
  match iters opts with
  | Some (S k) => S k
  | _ => 20
  end.

(** [textRank(sentences, vectors, opts)] *)
Definition textRank (sentences : list jsstring) (vectors : list Vector)
  (opts : RankOpts) : list RankItem :=
  let d := dampingOf opts in
  let iters := itersOf opts in
  let n := length sentences in
  if n =? 0 then []
  else if n =? 1 then [Bare 0]
  else jsSort byScoreDesc (withIndex 0 (finalScores d iters n vectors)).

(** ** The summary selector *)

(** [Math.min(3, Math.max(1, Math.floor(sentences.length * 0.2)))]; the
    literal 0.2 is the quotient 2/10. *)
Definition topCount (n : nat) : nat :=
  Z.to_nat (Z.min 3 (Z.max 1
    (floor ops (mul ops (ofZ ops (Z.of_nat n))
                  (div ops (ofZ ops 2) (ofZ ops 10)))))).

(** [sentences[t.idx]]; [None] is [undefined]. *)
Definition sentenceAt (sentences : list jsstring) (t : RankItem)
  : option jsstring :=
  match idxOf t with
  | Some i => nth_error sentences i
  | None => None
  end.

(** [ranked.slice(0, topCount).sort(byIdx).map((t) => sentences[t.idx])
    .join(' ')] *)
Definition selectTop (sentences : list jsstring) (ranked : list RankItem)
  : jsstring :=
  let top := map (sentenceAt sentences)
               (jsSort byIdxAsc (firstn (topCount (length sentences)) ranked)) in
  JS.join (lit " ") top.

End Ranker.

Arguments Bare {ops} k.
Arguments Scored {ops} idx score.

(** ** The two readings of numbers *)

(** Real numbers: the arithmetic the recurrence is specified in. *)
Definition RealNum : NumOps := {|
  num := R;
  ofZ := IZR;
  add := Rplus;
  sub := Rminus;
  mul := Rmult;
  div := Rdiv;
  sqrt := R_sqrt.sqrt;
  floor := Int_part;
  eqb := fun x y => if Req_dec_T x y then true else false;
  leb := fun x y => if Rle_dec x y then true else false;
  ltb := fun x y => if Rlt_dec x y then true else false
|}.

(** Binary64, round to nearest even: the arithmetic the code runs in. *)
Module Float64.

Definition ofZ (z : Z) : PrimFloat.float :=
  Floats.FloatOps.SF2Prim
    (Floats.SpecFloat.binary_normalize 53 1024 z 0 false).

(** [Math.floor] of a finite number, as an integer; 0 where the source
    would hold an infinity or [NaN]. *)
Definition floor (x : PrimFloat.float) : Z :=
  match Floats.FloatOps.Prim2SF x with
  | Floats.SpecFloat.S754_finite s m e =>
      let v := if s then Z.neg m else Z.pos m in
      if (0 <=? e)%Z then (v * 2 ^ e)%Z else (v / 2 ^ (- e))%Z
  | _ => 0%Z
  end.

End Float64.

Definition FloatNum : NumOps := {|
  num := PrimFloat.float;
  ofZ := Float64.ofZ;
  add := PrimFloat.add;
  sub := PrimFloat.sub;
  mul := PrimFloat.mul;
  div := PrimFloat.div;
  sqrt := PrimFloat.sqrt;
  floor := Float64.floor;
  eqb := PrimFloat.eqb;
  leb := PrimFloat.leb;
  ltb := PrimFloat.ltb
|}.

(** ** The platform and the effects of a route *)

(** What [fetch] may come back with.  The body of a response is the
    sequence of chunks its reader delivers, each already decoded to text
    ([Buffer.from(value).toString('utf8')]); [readable] tells whether
    [res.body.getReader] exists.  A body is one that arrives: a
    [reader.read()] that rejects or never resolves has no counterpart here
    (the timer is cleared once [fetch] has resolved, so the source sets no
    deadline on the body), and the properties of the routes speak of the
    answers that are sent, not of the time they take. *)
Record RemoteResponse := {
  ok : bool;
  readable : bool;
  chunks : list jsstring
}.

Inductive FetchOutcome :=
| Aborted                       (* the timer fired first: AbortError *)
| Failed                        (* transport failure: another error *)
| Responded (r : RemoteResponse).

Record Platform := {
  parseURL : jsstring -> option ParsedURL;    (* new URL(url) *)
  remote : jsstring -> FetchOutcome           (* the network behind fetch *)
}.

Inductive JsError :=
| AbortError
| OtherError (message : string).

(** The calls a route makes that the properties speak about. *)
Inductive Event :=
| EvFetch (url : jsstring)      (* fetch(url, ...) *)
| EvAbort                       (* controller.abort() in a reading loop *)
| EvRank (n : nat).             (* textRank(sentences, ...), n sentences *)

(** A computation of a route: the calls made so far and how it stands: a
    value to go on with, the answer sent by a [return res...] statement,
    or an exception on its way up. *)
Inductive Outcome (A : Type) :=
| Value (a : A)
| Answered (r : Response)
| Thrown (e : JsError).

Arguments Value {A} a.
Arguments Answered {A} r.
Arguments Thrown {A} e.

Definition Run (A : Type) : Type := list Event * Outcome A.

Definition ret {A} (a : A) : Run A := ([], Value a).

Definition bind {A B} (c : Run A) (k : A -> Run B) : Run B :=
  match c with
  | (t, Value a) => let '(t', o) := k a in (t ++ t', o)
  | (t, Answered r) => (t, Answered r)
  | (t, Thrown e) => (t, Thrown e)
  end.

Definition emit (e : Event) : Run unit := ([e], Value tt).
Definition answer {A} (r : Response) : Run A := ([], Answered r).
Definition throw {A} (e : JsError) : Run A := ([], Thrown e).

(** [try { c } catch (err) { h err }] *)
Definition tryCatch {A} (c : Run A) (h : JsError -> Run A) : Run A :=
  match c with
  | (t, Thrown e) => let '(t', o) := h e in (t ++ t', o)
  | _ => c
  end.

Notation "x <- c ;; k" := (bind c (fun x => k))
  (at level 61, c at next level, right associativity).
Notation "c ;;; k" := (bind c (fun _ => k))
  (at level 61, right associativity).

Definition trace {A} (c : Run A) : list Event := fst c.

(** The answer a finished route has sent, if it sent one. *)
Definition reply {A} (c : Run A) : option Response :=
  match snd c with
  | Answered r => Some r
  | _ => None
  end.

(** [await fetch(url, { ..., signal: controller.signal })] with the timer
    armed before it and cleared after it.  [Aborted] is the case where the
    timer fires before [fetch] resolves; the call of [controller.abort()]
    the timer makes is not recorded as an event. *)
Definition fetch (P : Platform) (url : jsstring) : Run RemoteResponse :=
  emit (EvFetch url) ;;;
  match remote P url with
  | Aborted => throw AbortError
  | Failed => throw (OtherError "fetch failed")
  | Responded r => ret r
  end.

(** A query parameter is truthy when it is present and not empty. *)
Definition truthy (q : option jsstring) : bool :=
  match q with
  | Some (_ :: _) => true
  | _ => false
  end.

Definition valueOf (q : option jsstring) : jsstring :=
  match q with
  | Some s => s
  | None => []
  end.

Inductive void : Set := .

(** [catch (err)] of both routes. *)
Definition onError {A} (err : JsError) : Run A :=
  match err with
  | AbortError => answer (respond 504 "Timeout fetching remote")
  | OtherError _ => answer (respond 500 "Server error")
  end.

(** ** The article-fetch route *)

Module FetchArticle.

Definition MAX_BYTES : nat := 200 * 1024.

(** The [while (true)] loop over [reader.read()]: one turn per chunk (a
    chunk handed over by the reader is an object, hence truthy), the end of
    the list being [done]. *)
Fixpoint readBody (text : jsstring) (body : list jsstring) : Run jsstring :=
  match body with
  | [] => ret text
  | value :: rest =>
      let text := text ++ value in
      if MAX_BYTES <? length text then
        emit EvAbort ;;;
        answer (respond 413 "Fetched content too large")
      else readBody text rest
  end.

(** The text of the body after the [if]/[else] that reads it. *)
Definition bodyText (remoteRes : RemoteResponse) : Run jsstring :=
  if readable remoteRes then readBody [] (chunks remoteRes)
  else
    let text := concat (chunks remoteRes) in
    ret (if MAX_BYTES <? length text then slice0 MAX_BYTES text else text).

(** The body of the [try] block up to the stripped text. *)
Definition fetchText (P : Platform) (url : jsstring) : Run jsstring :=
  remoteRes <- fetch P url ;;
  if negb (ok remoteRes)
  then answer (respond 502 "Failed to fetch remote")
  else
    text <- bodyText remoteRes ;;
    ret (Extract.stripTags text).

(** [router.get('/', ...)] *)
Definition route (P : Platform) (url : option jsstring) : Run void :=
  if negb (truthy url) then answer (respond 400 "Missing url")
  else
    match urlGuard (parseURL P (valueOf url)) with
    | Some rejection => answer rejection
    | None =>
        tryCatch
          (text <- fetchText P (valueOf url) ;;
           answer {| status := 200; payload := JText text |})
          onError
    end.

End FetchArticle.

(** ** The summarize route *)

Module Summarize.

Definition MAX_BYTES : nat := 300 * 1024.

Fixpoint readBody (text : jsstring) (body : list jsstring) : Run jsstring :=
  match body with
  | [] => ret text
  | value :: rest =>
      let text := text ++ value in
      if MAX_BYTES <? length text then
        emit EvAbort ;;;
        throw (OtherError "Content too large")
      else readBody text rest
  end.

(** The text of the body after the [if]/[else] that reads it. *)
Definition bodyText (res : RemoteResponse) : Run jsstring :=
  if readable res then readBody [] (chunks res)
  else
    let text := concat (chunks res) in
    ret (if MAX_BYTES <? length text then slice0 MAX_BYTES text else text).

(** [fetchTextFromUrl(url)] *)
Definition fetchTextFromUrl (P : Platform) (url : jsstring) : Run jsstring :=
  res <- fetch P url ;;
  if negb (ok res) then throw (OtherError "Remote fetch failed")
  else
    text <- bodyText res ;;
    ret (Extract.stripTags text).

Section Route.
Variable ops : NumOps.

(** The options the route passes: [{ damping: 0.85, iters: 30 }]. *)
Definition routeOpts : RankOpts ops :=
  Build_RankOpts ops (Some (div ops (ofZ ops 85) (ofZ ops 100))) (Some 30).

(** The selection step: from the fast path for at most three sentences to
    the joined summary. *)
Definition summaryOf (sentences : list jsstring) : Run jsstring :=
  if length sentences <=? 3
  then ret (JS.join (lit " ") (map Some sentences))
  else
    let vectors := fst (Text.buildSentenceVectors sentences) in
    emit (EvRank (length sentences)) ;;;
    let ranked := textRank ops sentences vectors routeOpts in
    ret (selectTop ops sentences ranked).

(** [router.get('/', ...)] *)
Definition route (P : Platform) (url rawText : option jsstring) : Run void :=
  tryCatch
    (text <- (if truthy url then
                match urlGuard (parseURL P (valueOf url)) with
                | Some rejection => answer rejection
                | None => fetchTextFromUrl P (valueOf url)
                end
              else if truthy rawText then
                ret (slice0 MAX_BYTES (valueOf rawText))
              else answer (respond 400 "Missing url or text")) ;;
     if (length text =? 0) || (length (trim text) =? 0)
     then answer (respond 422 "No text to summarize")
     else
       let sentences := firstn 60 (Text.splitSentences text) in
       if length sentences =? 0 then answer (respond 422 "No sentences")
       else
         summary <- summaryOf sentences ;;
         answer {| status := 200; payload := JSummary summary |})
    onError.

End Route.

End Summarize.

(** ** Reference definitions used by the statements *)

(** The host names the platform's [URL] class hands to the guard.  An IPv4
    host is serialised as four decimal octets joined by dots; an IPv6 host
    is serialised between square brackets. *)
Module URLHost.

Definition digit (k : N) : N := (48 + k)%N.

Definition decOctet (o : N) : jsstring :=
  if (o <? 10)%N then [digit o]
  else if (o <? 100)%N then [digit (o / 10); digit (o mod 10)]
  else [digit (o / 100); digit ((o / 10) mod 10); digit (o mod 10)].

Definition dotted (a b c d : N) : jsstring :=
  decOctet a ++ lit "." ++ decOctet b ++ lit "." ++ decOctet c
  ++ lit "." ++ decOctet d.

Definition bracketed (addr : jsstring) : jsstring :=
  lit "[" ++ addr ++ lit "]".

(** The private and loopback IPv4 ranges of the guard, on the first two
    octets. *)
Definition privateRange (a b : N) : bool :=
  ((a =? 10) || (a =? 127) || ((a =? 169) && (b =? 254))
   || ((a =? 192) && (b =? 168))
   || ((a =? 172) && (16 <=? b) && (b <=? 31)))%N.

(** What the guard's code relies on for one serialised octet: [net.isIP]
    takes it for an octet, [parseInt] reads its value back, and it is made
    of digits only. *)
Definition octetReadBack (o : N) : bool :=
  Net.v4Seg (decOctet o)
  && match parseInt10 (decOctet o) with
     | Some v => (v =? Z.of_N o)%Z
     | None => false
     end
  && forallb isDigit (decOctet o)
  && negb (length (decOctet o) =? 0).

End URLHost.

(** A platform to run the routes on: it knows a handful of URLs the way the
    [URL] class parses them, and answers every request with [page]. *)
Definition sampleURLs : list (string * (string * string)) :=
  [ ("http://example.com/news", ("http:", "example.com"));
    ("http://localhost/x", ("http:", "localhost"));
    ("http://[::1]/", ("http:", "[::1]"));
    ("http://[fc00::1]/", ("http:", "[fc00::1]"));
    ("http://10.0.0.7/", ("http:", "10.0.0.7"));
    ("http://8.8.8.8/", ("http:", "8.8.8.8"));
    ("ftp://example.com/", ("ftp:", "example.com")) ]%string.

Definition sampleParse (url : jsstring) : option ParsedURL :=
  match find (fun e => JS.eqb (lit (fst e)) url) sampleURLs with
  | Some (_, (p, h)) => Some {| protocol := lit p; hostname := lit h |}
  | None => None
  end.

Definition samplePlatform (page : FetchOutcome) : Platform :=
  {| parseURL := sampleParse; remote := fun _ => page |}.

Definition catsText : jsstring :=
  lit "Cats are mammals. Cats sleep a lot. Dogs are mammals too. Dogs bark loudly. The sky is blue.".

Definition catsPage : FetchOutcome :=
  Responded {| ok := true; readable := true;
               chunks := [lit "<p>Cats are mammals. Cats sleep a lot. Dogs are ";
                          lit "mammals too. Dogs bark loudly. The sky is blue.</p>"] |}.

(** Two responses whose body is one code unit longer than a ceiling: one
    that can only be read whole, for the article route, and one that is
    read incrementally, for the summarize route. *)
Definition oversizeWhole : RemoteResponse :=
  {| ok := true; readable := false;
     chunks := [repeat 97%N (S FetchArticle.MAX_BYTES)] |}.

Definition oversizeStream : RemoteResponse :=
  {| ok := true; readable := true;
     chunks := [repeat 97%N (S Summarize.MAX_BYTES)] |}.

(** The recurrence of the ranker as the specification words it, over the
    real numbers, to compare the loops with. *)
Module Recurrence.

(** The sum of [f j] over the [j] of a list. *)
Definition sumOver (js : list nat) (f : nat -> R) : R :=
  fold_right (fun j acc => (f j + acc)%R) 0%R js.

(** The [j] that count for sentence [i]: a row sum that is not zero and a
    positive similarity to [i]. *)
Definition contributors (n : nat) (sim : Matrix RealNum)
  (rowSum : list R) (i : nat) : list nat :=
  filter (fun j => negb (eqb RealNum (nth j rowSum 0%R) 0%R)
                   && ltb RealNum 0%R (entry RealNum sim j i))
    (seq 0 n).

(** [(1-d)/N + d * sum over j of (sim[j][i] / rowSum[j]) * score[j]] *)
Definition recurrence (d : R) (n : nat) (sim : Matrix RealNum)
  (rowSum prev : list R) (i : nat) : R :=
  ((1 - d) / IZR (Z.of_nat n)
   + d * sumOver (contributors n sim rowSum i)
           (fun j => entry RealNum sim j i / nth j rowSum 0 * nth j prev 0))%R.

(** The similarity matrix and the row sums of [n] sentences with the
    given vectors. *)
Definition simOf (n : nat) (vectors : list Text.Vector) : Matrix RealNum :=
  simMatrix RealNum n vectors.

Definition rowSumOf (n : nat) (vectors : list Text.Vector) : list R :=
  rowSums RealNum (simOf n vectors).

(** The sum of the first [n] entries of a score array. *)
Definition sumScores (n : nat) (scores : list R) : R :=
  sumOver (seq 0 n) (fun j => nth j scores 0%R).

(** The part of it that sits on sentences with a non-zero row sum. *)
Definition linkedScores (n : nat) (vectors : list Text.Vector)
  (scores : list R) : R :=
  sumOver (seq 0 n)
    (fun j => if Req_dec_T (nth j (rowSumOf n vectors) 0%R) 0%R
              then 0%R else nth j scores 0%R).

(** What the loop keeps true of the scores: there are [n] of them, none
    is negative, and their sum lies between [1 - d] and 1. *)
Definition wellScored (n : nat) (d : R) (scores : list R) : Prop :=
  length scores = n
  /\ (forall j, j < n -> (0 <= nth j scores 0)%R)
  /\ (1 - d <= sumScores n scores <= 1)%R.

(** The sum of the scores of a ranked list. *)
Definition totalScore (items : list (RankItem RealNum)) : R :=
  fold_right (fun t acc => match scoreOf RealNum t with
                           | Some s => (s + acc)%R
                           | None => acc
                           end) 0%R items.

End Recurrence.

(** Four sentences without a word of three letters or more: no two of them
    share a term. *)
Definition tersePage : list jsstring :=
  [lit "Go on."; lit "Do it."; lit "So be."; lit "At me."].

(** Four sentences each of which shares a term with another one. *)
Definition linkedPage : list jsstring :=
  [lit "Cats sleep here."; lit "Cats play here."; lit "Dogs sleep there.";
   lit "Dogs play there."].

(** Two sentences with the same three terms, and two with the same two. *)
Definition threeTermPair : list jsstring :=
  [lit "Red green blue."; lit "Blue, green, red?"].

Definition twoTermPair : list jsstring :=
  [lit "Cats sleep."; lit "CATS -- sleep!"].

(** ** Reference definitions for the text steps *)

Module TextShape.

(** Every white-space code unit of [s] is the space character and is not
    followed by another white-space code unit. *)
Fixpoint spaced (s : jsstring) : bool :=
  match s with
  | [] => true
  | x :: r =>
      (if isSpace x
       then (x =? 32)%N
            && match r with
               | [] => true
               | y :: _ => negb (isSpace y)
               end
       else true)
      && spaced r
  end.

(** Neither end of [s] is a white-space code unit. *)
Definition trimmed (s : jsstring) : bool :=
  match s with
  | [] => true
  | x :: _ => negb (isSpace x)
  end
  && match rev s with
     | [] => true
     | y :: _ => negb (isSpace y)
     end.

(** The pattern whose match at a position is [m] matches somewhere in
    [s]. *)
Fixpoint matchesIn (m : jsstring -> option nat) (s : jsstring) : bool :=
  match s with
  | [] => false
  | _ :: r =>
      match m s with
      | Some _ => true
      | None => matchesIn m r
      end
  end.

(** What follows a [<] that opens no tag: no [>] at all, or one right
    away. *)
Definition closes (r : jsstring) : Prop :=
  Extract.findChar (ch ">") r = None \/ exists r', r = ch ">" :: r'.

End TextShape.

(** ** Reference definitions for the vectorizer *)

Module TermCount.

(** The vocabulary [Map] when [buildSentenceVectors] returns. *)
Definition vocabOf (sentences : list jsstring) : Text.Vocab :=
  fst (fold_left Text.addSentence sentences ([], [])).

(** How often the token [t] occurs among [toks]. *)
Definition countIn (t : jsstring) (toks : list jsstring) : nat :=
  length (filter (JS.eqb t) toks).

(** What a sentence with the tokens [toks] is to hold under the id [k]:
    the number of occurrences of the [k]-th token of the vocabulary, and
    no entry when there is none. *)
Definition termCount (vocab : Text.Vocab) (toks : list jsstring) (k : nat)
  : option nat :=
  match nth_error vocab k with
  | Some t =>
      match countIn t toks with
      | O => None
      | S c => Some (S c)
      end
  | None => None
  end.

(** The ids of a vector ascend. *)
Definition ascending (v : Text.Vector) : Prop :=
  StronglySorted lt (map fst v).

(** The state of the loop over the tokens of one sentence. *)
Definition tokensDone (vocab0 : Text.Vocab) (done : list jsstring)
  (st : Text.Vocab * Text.Vector) : Prop :=
  (exists new, fst st = vocab0 ++ new /\ forall t, In t new -> In t done)
  /\ NoDup (fst st)
  /\ (forall t, In t done -> In t (fst st))
  /\ ascending (snd st)
  /\ Forall (fun kc => fst kc < length (fst st) /\ 1 <= snd kc) (snd st)
  /\ forall k, Text.lookupV k (snd st) = termCount (fst st) done k.

(** What the vector [v] of the sentence [s] is, for the vocabulary
    [vocab]. *)
Definition vectorOf (vocab : Text.Vocab) (v : Text.Vector) (s : jsstring)
  : Prop :=
  (forall t, In t (Text.tokenize s) -> In t vocab)
  /\ ascending v
  /\ Forall (fun kc => fst kc < length vocab /\ 1 <= snd kc) v
  /\ forall k, Text.lookupV k v = termCount vocab (Text.tokenize s) k.

(** The state of the loop over the sentences. *)
Definition sentencesDone (done : list jsstring)
  (st : Text.Vocab * list Text.Vector) : Prop :=
  NoDup (fst st)
  /\ (forall t, In t (fst st) ->
                exists s, In s done /\ In t (Text.tokenize s))
  /\ Forall2 (vectorOf (fst st)) (snd st) done.

End TermCount.

(** ** Reference definitions for the similarity *)

Module Cosine.
Import Text.

(** The accumulator [dot] of [cosineSim(a, b)] when its first loop ends. *)
Definition dotOf (a b : Vector) : Z :=
  fold_left (fun acc '(k, av) =>
      match lookupV k b with
      | Some (S bv) => (acc + Z.of_nat av * Z.of_nat (S bv))%Z
      | _ => acc
      end) a 0%Z.

(** The accumulators [na] and [nb]. *)
Definition normOf (v : Vector) : Z :=
  fold_left (fun acc '(_, c) => (acc + Z.of_nat c * Z.of_nat c)%Z) v 0%Z.

(** [b[k]] as a number, a missing entry counting as 0. *)
Definition valueAt (b : Vector) (k : nat) : Z :=
  match lookupV k b with
  | Some c => Z.of_nat c
  | None => 0%Z
  end.

End Cosine.

(** ** Reference definitions for the ranking *)

Module Ranking.


(** Sentence [i] shares no token with any other sentence. *)
Definition isolated (sentences : list jsstring) (i : nat) : Prop :=
  forall j t, j <> i ->
    In t (Text.tokenize (nth i sentences [])) ->
    ~ In t (Text.tokenize (nth j sentences [])).

End Ranking.

(** ** Reference definitions for the answers of the routes *)

Module Answers.

(** The URLs of the [fetch] calls of a trace, in order. *)
Fixpoint fetches (t : list Event) : list jsstring :=
  match t with
  | [] => []
  | EvFetch url :: rest => url :: fetches rest
  | _ :: rest => fetches rest
  end.

(** The error answers of the URL guard. *)
Definition guardErrors : list Response :=
  [respond 400 "Invalid url"; respond 400 "Invalid protocol";
   respond 400 "Disallowed host"; respond 400 "Disallowed IP"].

(** The error answers the summarize route can send. *)
Definition summarizeErrors : list Response :=
  guardErrors
  ++ [respond 400 "Missing url or text"; respond 422 "No text to summarize";
      respond 504 "Timeout fetching remote"; respond 500 "Server error"].

(** The error answers the article route can send. *)
Definition articleErrors : list Response :=
  guardErrors
  ++ [respond 400 "Missing url"; respond 502 "Failed to fetch remote";
      respond 413 "Fetched content too large";
      respond 504 "Timeout fetching remote"; respond 500 "Server error"].

(** The [fetch] calls a route is to make for the query parameter [url]:
    one, on that URL, when it is present and passes the guard. *)
Definition expectedFetches (P : Platform) (url : option jsstring)
  : list jsstring :=
  if truthy url then
    match urlGuard (parseURL P (valueOf url)) with
    | None => [valueOf url]
    | Some _ => []
    end
  else [].

End Answers.

(** ** The bookmark routes: authentication *)

Module Bookmarks.

Section Auth.

(** The values a token payload carries are left abstract. *)
Variable Claim : Type.

(** The payload [jwt.verify] hands back: its two fields that are read. *)
Record Payload := { userId : Claim; email : Claim }.

(** [req.user] *)
Record User := { id : Claim; userEmail : Claim }.

(** How the middleware leaves: [next()] with [req.user] set, or an answer
    of its own. *)
Inductive AuthResult :=
| Next (user : User)
| Reject (r : Response).

(** [jwt.verify(token, JWT_SECRET)]: the payload, [None] when it throws. *)
Variable verify : jsstring -> option Payload.

(** [authMiddleware(req, res, next)], on [req.headers.authorization]. *)
Definition authMiddleware (auth : option jsstring) : AuthResult :=
  if negb (truthy auth) then Reject (respond 401 "Unauthorized")
  else
    let parts := JS.split (ch " ") (valueOf auth) in
    if negb (length parts =? 2) then Reject (respond 401 "Unauthorized")
    else
      let token := nth 1 parts [] in
      match verify token with
      | Some payload =>
          Next {| id := userId payload; userEmail := email payload |}
      | None => Reject (respond 401 "Invalid token")
      end.

End Auth.

Arguments Next {Claim} user.
Arguments Reject {Claim} r.

(** No code unit of [s] is a space. *)
Definition spaceless (s : jsstring) : bool :=
  forallb (fun x => negb (x =? ch " ")%N) s.

End Bookmarks.

(** * Properties *)

(** The byte ceilings are only ever compared with lengths: they are never
    unfolded to their 200 * 1024 and 300 * 1024 successors. *)
Opaque FetchArticle.MAX_BYTES Summarize.MAX_BYTES.

(** ** The trace of a computation *)

Lemma trace_bind {A B} (c : Run A) (k : A -> Run B) :
  exists rest, trace (bind c k) = trace c ++ rest.
Proof.
  destruct c as [t [a | r | e]]; cbn.
  - destruct (k a) as [t' o]. exists t'. reflexivity.
  - exists []. now rewrite app_nil_r.
  - exists []. now rewrite app_nil_r.
Qed.

Lemma trace_tryCatch {A} (c : Run A) (h : JsError -> Run A) :
  exists rest, trace (tryCatch c h) = trace c ++ rest.
Proof.
  destruct c as [t [a | r | e]]; cbn.
  - exists []. now rewrite app_nil_r.
  - exists []. now rewrite app_nil_r.
  - destruct (h e) as [t' o]. exists t'. reflexivity.
Qed.

Lemma trace_fetch (P : Platform) (url : jsstring) :
  trace (fetch P url) = [EvFetch url].
Proof.
  unfold fetch. destruct (remote P url); reflexivity.
Qed.

(** ** Order of the guard and the network call (C3), precedence of [url]
    over [text] (C10) *)

(** C3.  A URL the guard rejects (malformed, a scheme other than http and
    https, localhost or a name under .localhost, a private or loopback IP
    literal) is answered with the guard's error by both routes, and the
    route has made no call at all by then: in particular [fetch] was never
    called. *)
Theorem guard_rejection_makes_no_network_call
  (ops : NumOps) (P : Platform) (url rawText : option jsstring)
  (rejection : Response) :
  truthy url = true ->
  urlGuard (parseURL P (valueOf url)) = Some rejection ->
  (trace (Summarize.route ops P url rawText) = []
   /\ reply (Summarize.route ops P url rawText) = Some rejection)
  /\ (trace (FetchArticle.route P url) = []
      /\ reply (FetchArticle.route P url) = Some rejection).
Proof.
  intros Hurl Hguard.
  unfold Summarize.route, FetchArticle.route.
  rewrite Hurl, Hguard. cbn. repeat split; reflexivity.
Qed.

Lemma guard_rejection_makes_no_network_call_witness :
  (trace (Summarize.route FloatNum (samplePlatform catsPage)
            (Some (lit "http://localhost/x")) None) = []
   /\ reply (Summarize.route FloatNum (samplePlatform catsPage)
               (Some (lit "http://localhost/x")) None)
      = Some (respond 400 "Disallowed host"))
  /\ (trace (FetchArticle.route (samplePlatform catsPage)
               (Some (lit "http://localhost/x"))) = []
      /\ reply (FetchArticle.route (samplePlatform catsPage)
                  (Some (lit "http://localhost/x")))
         = Some (respond 400 "Disallowed host")).
Proof.
  apply (guard_rejection_makes_no_network_call FloatNum
           (samplePlatform catsPage) (Some (lit "http://localhost/x")) None
           (respond 400 "Disallowed host")).
  - reflexivity.
  - vm_compute. reflexivity.
Defined.

(** Conversely, a URL the guard lets through is fetched: the first call of
    either route is [fetch] on that URL. *)
Lemma guard_pass_then_fetch
  (ops : NumOps) (P : Platform) (url rawText : option jsstring) :
  truthy url = true ->
  urlGuard (parseURL P (valueOf url)) = None ->
  (exists rest, trace (Summarize.route ops P url rawText)
                = EvFetch (valueOf url) :: rest)
  /\ (exists rest, trace (FetchArticle.route P url)
                   = EvFetch (valueOf url) :: rest).
Proof.
  intros Hurl Hguard.
  unfold Summarize.route, FetchArticle.route, Summarize.fetchTextFromUrl,
    FetchArticle.fetchText.
  rewrite Hurl, Hguard. cbn [negb].
  split.
  - match goal with
    | |- context [tryCatch ?c ?h] =>
        destruct (trace_tryCatch c h) as [r1 ->];
        match c with
        | bind ?c1 ?k1 =>
            destruct (trace_bind c1 k1) as [r2 ->];
            match c1 with
            | bind ?c2 ?k2 => destruct (trace_bind c2 k2) as [r3 ->]
            end
        end
    end.
    rewrite trace_fetch. eexists. cbn. reflexivity.
  - match goal with
    | |- context [tryCatch ?c ?h] =>
        destruct (trace_tryCatch c h) as [r1 ->];
        match c with
        | bind ?c1 ?k1 =>
            destruct (trace_bind c1 k1) as [r2 ->];
            match c1 with
            | bind ?c2 ?k2 => destruct (trace_bind c2 k2) as [r3 ->]
            end
        end
    end.
    rewrite trace_fetch. eexists. cbn. reflexivity.
Qed.

(** ** Lengths through the text extractor *)

Lemma replaceAll_length (m : jsstring -> option nat) (s : jsstring) (skip : nat) :
  length (Extract.replaceAll m skip s) <= length s.
Proof.
  revert skip. induction s as [| x s IH]; intros skip; cbn [Extract.replaceAll].
  - reflexivity.
  - destruct skip as [| k].
    + destruct (m (x :: s)) as [len |]; cbn [length]; apply le_n_S, IH.
    + cbn [length]. apply Nat.le_le_succ_r, IH.
Qed.

Lemma collapseSpace_length (s : jsstring) (inRun : bool) :
  length (Extract.collapseSpace inRun s) <= length s.
Proof.
  revert inRun. induction s as [| x s IH]; intros inRun; cbn [Extract.collapseSpace].
  - reflexivity.
  - destruct (isSpace x).
    + destruct inRun; cbn [length].
      * apply Nat.le_le_succ_r, IH.
      * apply le_n_S, IH.
    + cbn [length]. apply le_n_S, IH.
Qed.

Lemma trimStart_length (s : jsstring) : length (trimStart s) <= length s.
Proof.
  induction s as [| x s IH]; cbn [trimStart].
  - reflexivity.
  - destruct (isSpace x); cbn [length]; lia.
Qed.

Lemma trim_length (s : jsstring) : length (trim s) <= length s.
Proof.
  unfold trim. rewrite length_rev.
  etransitivity; [apply trimStart_length |].
  rewrite length_rev. apply trimStart_length.
Qed.

Lemma stripTags_length (text : jsstring) :
  length (Extract.stripTags text) <= length text.
Proof.
  unfold Extract.stripTags.
  etransitivity; [apply trim_length |].
  etransitivity; [apply collapseSpace_length |].
  etransitivity; [apply replaceAll_length |].
  etransitivity; [apply replaceAll_length |].
  apply replaceAll_length.
Qed.

(** ** The reading loops *)

Lemma article_readBody_spec (body : list jsstring) (text : jsstring) :
  length text <= FetchArticle.MAX_BYTES ->
  (FetchArticle.MAX_BYTES < length (text ++ concat body) ->
   FetchArticle.readBody text body
   = ([EvAbort], Answered (respond 413 "Fetched content too large")))
  /\ (length (text ++ concat body) <= FetchArticle.MAX_BYTES ->
      FetchArticle.readBody text body = ([], Value (text ++ concat body))).
Proof.
  revert text. induction body as [| value rest IH]; intros text Htext.
  - cbn [concat FetchArticle.readBody]. rewrite app_nil_r. split.
    + lia.
    + reflexivity.
  - cbn [concat FetchArticle.readBody]. rewrite app_assoc.
    destruct (Nat.ltb_spec FetchArticle.MAX_BYTES (length (text ++ value)))
      as [Hbig | Hsmall].
    + split.
      * reflexivity.
      * rewrite length_app. lia.
    + apply (IH (text ++ value) Hsmall).
Qed.

Lemma summarize_readBody_spec (body : list jsstring) (text : jsstring) :
  length text <= Summarize.MAX_BYTES ->
  (Summarize.MAX_BYTES < length (text ++ concat body) ->
   Summarize.readBody text body
   = ([EvAbort], Thrown (OtherError "Content too large")))
  /\ (length (text ++ concat body) <= Summarize.MAX_BYTES ->
      Summarize.readBody text body = ([], Value (text ++ concat body))).
Proof.
  revert text. induction body as [| value rest IH]; intros text Htext.
  - cbn [concat Summarize.readBody]. rewrite app_nil_r. split.
    + lia.
    + reflexivity.
  - cbn [concat Summarize.readBody]. rewrite app_assoc.
    destruct (Nat.ltb_spec Summarize.MAX_BYTES (length (text ++ value)))
      as [Hbig | Hsmall].
    + split.
      * reflexivity.
      * rewrite length_app. lia.
    + apply (IH (text ++ value) Hsmall).
Qed.

(** The body text of a response, by how it is read. *)
Lemma article_bodyText_cases (r : RemoteResponse) :
  FetchArticle.bodyText r =
    if readable r then
      if FetchArticle.MAX_BYTES <? length (concat (chunks r))
      then ([EvAbort], Answered (respond 413 "Fetched content too large"))
      else ([], Value (concat (chunks r)))
    else ([], Value (firstn FetchArticle.MAX_BYTES (concat (chunks r)))).
Proof.
  unfold FetchArticle.bodyText.
  destruct (readable r).
  - destruct (article_readBody_spec (chunks r) []) as [Hbig Hsmall];
      [cbn; lia |].
    cbn [app] in Hbig, Hsmall.
    destruct (Nat.ltb_spec FetchArticle.MAX_BYTES (length (concat (chunks r)))).
    + now apply Hbig.
    + now apply Hsmall.
  - unfold ret, slice0.
    destruct (Nat.ltb_spec FetchArticle.MAX_BYTES (length (concat (chunks r)))).
    + reflexivity.
    + now rewrite firstn_all2.
Qed.

Lemma summarize_bodyText_cases (r : RemoteResponse) :
  Summarize.bodyText r =
    if readable r then
      if Summarize.MAX_BYTES <? length (concat (chunks r))
      then ([EvAbort], Thrown (OtherError "Content too large"))
      else ([], Value (concat (chunks r)))
    else ([], Value (firstn Summarize.MAX_BYTES (concat (chunks r)))).
Proof.
  unfold Summarize.bodyText.
  destruct (readable r).
  - destruct (summarize_readBody_spec (chunks r) []) as [Hbig Hsmall];
      [cbn; lia |].
    cbn [app] in Hbig, Hsmall.
    destruct (Nat.ltb_spec Summarize.MAX_BYTES (length (concat (chunks r)))).
    + now apply Hbig.
    + now apply Hsmall.
  - unfold ret, slice0.
    destruct (Nat.ltb_spec Summarize.MAX_BYTES (length (concat (chunks r)))).
    + reflexivity.
    + now rewrite firstn_all2.
Qed.

Lemma article_fetchText_cases (P : Platform) (url : jsstring)
  (r : RemoteResponse) :
  remote P url = Responded r -> ok r = true ->
  FetchArticle.fetchText P url =
    if readable r then
      if FetchArticle.MAX_BYTES <? length (concat (chunks r))
      then ([EvFetch url; EvAbort],
            Answered (respond 413 "Fetched content too large"))
      else ([EvFetch url], Value (Extract.stripTags (concat (chunks r))))
    else ([EvFetch url],
          Value (Extract.stripTags
                   (firstn FetchArticle.MAX_BYTES (concat (chunks r))))).
Proof.
  intros Hremote Hok.
  unfold FetchArticle.fetchText, fetch.
  rewrite Hremote. cbn [bind emit ret app].
  rewrite Hok. cbn [negb]. rewrite article_bodyText_cases.
  destruct (readable r);
    [destruct (FetchArticle.MAX_BYTES <? length (concat (chunks r))) |];
    reflexivity.
Qed.

Lemma summarize_fetchText_cases (P : Platform) (url : jsstring)
  (r : RemoteResponse) :
  remote P url = Responded r -> ok r = true ->
  Summarize.fetchTextFromUrl P url =
    if readable r then
      if Summarize.MAX_BYTES <? length (concat (chunks r))
      then ([EvFetch url; EvAbort], Thrown (OtherError "Content too large"))
      else ([EvFetch url], Value (Extract.stripTags (concat (chunks r))))
    else ([EvFetch url],
          Value (Extract.stripTags
                   (firstn Summarize.MAX_BYTES (concat (chunks r))))).
Proof.
  intros Hremote Hok.
  unfold Summarize.fetchTextFromUrl, fetch.
  rewrite Hremote. cbn [bind emit ret app].
  rewrite Hok. cbn [negb]. rewrite summarize_bodyText_cases.
  destruct (readable r);
    [destruct (Summarize.MAX_BYTES <? length (concat (chunks r))) |];
    reflexivity.
Qed.

(** ** The byte ceiling (C2) *)

(** C2, as the code has it.  A response read incrementally whose decoded
    body is longer than the ceiling (200 KiB in the article route, 300 KiB
    in the summarize route) is abandoned with the too-large failure, right
    after [controller.abort()].  A response that cannot be read
    incrementally is read whole and cut at the ceiling, and the fetch
    succeeds.  In every case a text the fetch hands on is no longer than
    the ceiling.  Lengths are those of the decoded text, the quantity the
    code compares with the ceiling. *)
Theorem fetched_text_respects_ceiling
  (P : Platform) (url : jsstring) (r : RemoteResponse) :
  remote P url = Responded r ->
  ok r = true ->
  (readable r = true ->
   (FetchArticle.MAX_BYTES < length (concat (chunks r)) ->
    FetchArticle.fetchText P url
    = ([EvFetch url; EvAbort],
       Answered (respond 413 "Fetched content too large")))
   /\ (Summarize.MAX_BYTES < length (concat (chunks r)) ->
       Summarize.fetchTextFromUrl P url
       = ([EvFetch url; EvAbort], Thrown (OtherError "Content too large"))))
  /\ (readable r = false ->
      FetchArticle.fetchText P url
      = ([EvFetch url],
         Value (Extract.stripTags
                  (firstn FetchArticle.MAX_BYTES (concat (chunks r)))))
      /\ Summarize.fetchTextFromUrl P url
         = ([EvFetch url],
            Value (Extract.stripTags
                     (firstn Summarize.MAX_BYTES (concat (chunks r))))))
  /\ (forall t, snd (FetchArticle.fetchText P url) = Value t ->
                length t <= FetchArticle.MAX_BYTES)
  /\ (forall t, snd (Summarize.fetchTextFromUrl P url) = Value t ->
                length t <= Summarize.MAX_BYTES).
Proof.
  intros Hremote Hok.
  rewrite (article_fetchText_cases P url r Hremote Hok).
  rewrite (summarize_fetchText_cases P url r Hremote Hok).
  split; [| split; [| split]].
  - intros ->. split; intros Hbig; apply Nat.ltb_lt in Hbig; now rewrite Hbig.
  - intros ->. split; reflexivity.
  - intros t.
    destruct (readable r);
      [destruct (Nat.ltb_spec FetchArticle.MAX_BYTES
                   (length (concat (chunks r)))) |];
      cbn [snd]; intros Ht; inversion Ht; subst t.
    + etransitivity; [apply stripTags_length | assumption].
    + etransitivity; [apply stripTags_length | apply firstn_le_length].
  - intros t.
    destruct (readable r);
      [destruct (Nat.ltb_spec Summarize.MAX_BYTES
                   (length (concat (chunks r)))) |];
      cbn [snd]; intros Ht; inversion Ht; subst t.
    + etransitivity; [apply stripTags_length | assumption].
    + etransitivity; [apply stripTags_length | apply firstn_le_length].
Qed.

Lemma fetched_text_respects_ceiling_witness :
  remote (samplePlatform (Responded oversizeStream)) (lit "http://example.com/news")
  = Responded oversizeStream
  /\ ok oversizeStream = true
  /\ Summarize.fetchTextFromUrl (samplePlatform (Responded oversizeStream))
       (lit "http://example.com/news")
     = ([EvFetch (lit "http://example.com/news"); EvAbort],
        Thrown (OtherError "Content too large")).
Proof.
  split; [reflexivity | split; [reflexivity |]].
  refine (proj2 (proj1 (fetched_text_respects_ceiling
                          (samplePlatform (Responded oversizeStream))
                          (lit "http://example.com/news") oversizeStream
                          eq_refl eq_refl) eq_refl) _).
  unfold oversizeStream. cbn [chunks concat]. rewrite app_nil_r, repeat_length.
  apply Nat.lt_succ_diag_r.
Defined.

(** C2 does not hold for every response: a body over the ceiling that is
    read whole is not refused; the article route answers 200 with the text
    cut at the ceiling. *)
Lemma oversize_body_read_whole_is_not_refused :
  FetchArticle.MAX_BYTES < length (concat (chunks oversizeWhole))
  /\ exists t,
       reply (FetchArticle.route (samplePlatform (Responded oversizeWhole))
                (Some (lit "http://example.com/news")))
       = Some {| status := 200; payload := JText t |}.
Proof.
  split.
  - unfold oversizeWhole. cbn [chunks concat].
    rewrite app_nil_r, repeat_length. lia.
  - unfold FetchArticle.route.
    replace (urlGuard _) with (@None Response) by (vm_compute; reflexivity).
    replace (truthy _) with true by reflexivity.
    cbn [negb valueOf].
    rewrite (article_fetchText_cases (samplePlatform (Responded oversizeWhole))
               (lit "http://example.com/news") oversizeWhole eq_refl eq_refl).
    cbn. eexists. reflexivity.
Qed.

(** ** Precedence of [url] over [text] (C10) *)

(** C10.  When both [url] and [text] are supplied, the summarize route
    behaves exactly as if [text] had not been sent: same calls, same
    answer.  The [text] parameter is never read on that path, so no answer
    can depend on its presence. *)
Theorem url_takes_precedence_over_text
  (ops : NumOps) (P : Platform) (url rawText : option jsstring) :
  truthy url = true ->
  truthy rawText = true ->
  Summarize.route ops P url rawText = Summarize.route ops P url None.
Proof.
  intros Hurl _. unfold Summarize.route. rewrite Hurl. reflexivity.
Qed.

Lemma url_takes_precedence_over_text_witness :
  truthy (Some (lit "http://example.com/news")) = true
  /\ truthy (Some (lit "Ignored. Entirely.")) = true
  /\ Summarize.route FloatNum (samplePlatform catsPage)
       (Some (lit "http://example.com/news")) (Some (lit "Ignored. Entirely."))
     = Summarize.route FloatNum (samplePlatform catsPage)
         (Some (lit "http://example.com/news")) None.
Proof.
  split; [reflexivity | split; [reflexivity |]].
  apply (url_takes_precedence_over_text FloatNum (samplePlatform catsPage)
           (Some (lit "http://example.com/news"))
           (Some (lit "Ignored. Entirely."))); reflexivity.
Defined.

(** Without a [url], the [text] parameter is what is summarised. *)
Lemma text_used_without_url :
  reply (Summarize.route FloatNum (samplePlatform Failed) None
           (Some (lit "One two. Three four.")))
  = Some {| status := 200; payload := JSummary (lit "One two. Three four.") |}.
Proof. vm_compute. reflexivity. Qed.

(** ** Status of the failures of a fetch (C6) *)

(** C6, the failing cases.  In the summarize route an upstream answer
    outside 2xx, and a body read incrementally that outgrows the ceiling,
    both end as 500 "Server error": [fetchTextFromUrl] throws a plain
    [Error] for them and the route's [catch] tells only [AbortError]
    apart. *)
Theorem summarize_upstream_failures_answer_500
  (ops : NumOps) (P : Platform) (url rawText : option jsstring)
  (r : RemoteResponse) :
  truthy url = true ->
  urlGuard (parseURL P (valueOf url)) = None ->
  remote P (valueOf url) = Responded r ->
  ok r = false
  \/ (ok r = true /\ readable r = true
      /\ Summarize.MAX_BYTES < length (concat (chunks r))) ->
  reply (Summarize.route ops P url rawText)
  = Some (respond 500 "Server error").
Proof.
  intros Hurl Hguard Hremote Hcase.
  unfold Summarize.route. rewrite Hurl, Hguard.
  destruct Hcase as [Hok | (Hok & Hread & Hbig)].
  - unfold Summarize.fetchTextFromUrl, fetch. rewrite Hremote.
    cbn [bind emit ret app]. rewrite Hok. reflexivity.
  - rewrite (summarize_fetchText_cases P (valueOf url) r Hremote Hok).
    rewrite Hread. apply Nat.ltb_lt in Hbig. rewrite Hbig. reflexivity.
Qed.

Lemma summarize_upstream_failures_answer_500_witness :
  reply (Summarize.route FloatNum
           (samplePlatform
              (Responded {| ok := false; readable := true; chunks := [] |}))
           (Some (lit "http://example.com/news")) None)
  = Some (respond 500 "Server error").
Proof.
  apply (summarize_upstream_failures_answer_500 FloatNum
           (samplePlatform
              (Responded {| ok := false; readable := true; chunks := [] |}))
           (Some (lit "http://example.com/news")) None
           {| ok := false; readable := true; chunks := [] |}).
  - reflexivity.
  - vm_compute. reflexivity.
  - reflexivity.
  - left. reflexivity.
Defined.

(** The article route, the sibling of the summarize route, answers the
    same two failures with 502 and 413. *)
Lemma article_upstream_failures_answer_502_413
  (P : Platform) (url : option jsstring) (r : RemoteResponse) :
  truthy url = true ->
  urlGuard (parseURL P (valueOf url)) = None ->
  remote P (valueOf url) = Responded r ->
  (ok r = false ->
   reply (FetchArticle.route P url)
   = Some (respond 502 "Failed to fetch remote"))
  /\ (ok r = true -> readable r = true ->
      FetchArticle.MAX_BYTES < length (concat (chunks r)) ->
      reply (FetchArticle.route P url)
      = Some (respond 413 "Fetched content too large")).
Proof.
  intros Hurl Hguard Hremote.
  unfold FetchArticle.route. rewrite Hurl, Hguard. cbn [negb].
  split.
  - intros Hok. unfold FetchArticle.fetchText, fetch. rewrite Hremote.
    cbn [bind emit ret app]. rewrite Hok. reflexivity.
  - intros Hok Hread Hbig.
    rewrite (article_fetchText_cases P (valueOf url) r Hremote Hok).
    rewrite Hread. apply Nat.ltb_lt in Hbig. rewrite Hbig. reflexivity.
Qed.

(** The deadline: when the timer aborts the request, both routes answer
    504. *)
Lemma timeout_answers_504
  (ops : NumOps) (P : Platform) (url rawText : option jsstring) :
  truthy url = true ->
  urlGuard (parseURL P (valueOf url)) = None ->
  remote P (valueOf url) = Aborted ->
  reply (Summarize.route ops P url rawText)
  = Some (respond 504 "Timeout fetching remote")
  /\ reply (FetchArticle.route P url)
     = Some (respond 504 "Timeout fetching remote").
Proof.
  intros Hurl Hguard Hremote.
  unfold Summarize.route, FetchArticle.route,
    Summarize.fetchTextFromUrl, FetchArticle.fetchText, fetch.
  rewrite Hurl, Hguard, Hremote. split; reflexivity.
Qed.

(** No exception leaves the summarize route: once the response has
    arrived, every path of it ends in an answer. *)
Lemma summarize_always_answers
  (ops : NumOps) (P : Platform) (url rawText : option jsstring) :
  exists r, reply (Summarize.route ops P url rawText) = Some r.
Proof.
  unfold Summarize.route, reply, tryCatch, onError.
  match goal with
  | |- context [bind ?c ?k] => destruct (bind c k) as [t [[] | r | [| m]]]
  end; cbn; eexists; reflexivity.
Qed.

(** ** The URL guard on IP literals (C1) *)

Lemma split_head (c x : N) (s : jsstring) :
  (x =? c)%N = false ->
  exists p ps, JS.split c (x :: s) = (x :: p) :: ps.
Proof.
  intros Hx. cbn [JS.split]. rewrite Hx.
  destruct (JS.split c s) as [| p ps]; eexists; eexists; reflexivity.
Qed.

Lemma split_no_sep (c : N) (s : jsstring) :
  forallb (fun x => negb (x =? c)%N) s = true -> JS.split c s = [s].
Proof.
  induction s as [| x s IH]; cbn [forallb JS.split]; intros H.
  - reflexivity.
  - apply andb_prop in H as [Hx Hs]. apply negb_true_iff in Hx.
    rewrite Hx, (IH Hs). reflexivity.
Qed.

Lemma split_app_sep (c : N) (p rest : jsstring) :
  forallb (fun x => negb (x =? c)%N) p = true ->
  JS.split c (p ++ c :: rest) = p :: JS.split c rest.
Proof.
  induction p as [| x p IH]; cbn [forallb app JS.split]; intros H.
  - now rewrite N.eqb_refl.
  - apply andb_prop in H as [Hx Hp]. apply negb_true_iff in Hx.
    rewrite Hx, (IH Hp). reflexivity.
Qed.

Lemma digits_no_dot (s : jsstring) :
  forallb isDigit s = true ->
  forallb (fun x => negb (x =? ch ".")%N) s = true.
Proof.
  intros H. apply forallb_forall. intros x Hx.
  rewrite forallb_forall in H. specialize (H x Hx).
  unfold isDigit in H. apply andb_prop in H as [H1 H2].
  apply N.leb_le in H1. apply negb_true_iff, N.eqb_neq.
  cbn. lia.
Qed.

Lemma octets_read_back :
  forallb URLHost.octetReadBack (map N.of_nat (seq 0 256)) = true.
Proof. vm_compute. reflexivity. Qed.

Lemma octet_read_back (o : N) :
  (o < 256)%N -> URLHost.octetReadBack o = true.
Proof.
  intros Ho.
  pose proof octets_read_back as H. rewrite forallb_forall in H.
  apply H. rewrite <- (N2Nat.id o). apply in_map, in_seq. lia.
Qed.

Lemma octet_facts (o : N) :
  (o < 256)%N ->
  Net.v4Seg (URLHost.decOctet o) = true
  /\ parseInt10 (URLHost.decOctet o) = Some (Z.of_N o)
  /\ forallb isDigit (URLHost.decOctet o) = true
  /\ exists x r, URLHost.decOctet o = x :: r.
Proof.
  intros Ho. pose proof (octet_read_back o Ho) as H.
  unfold URLHost.octetReadBack in H.
  apply andb_prop in H as [H Hlen]. apply andb_prop in H as [H Hdig].
  apply andb_prop in H as [Hseg Hval].
  repeat split; try assumption.
  - destruct (parseInt10 (URLHost.decOctet o)) as [v |]; [| discriminate].
    apply Z.eqb_eq in Hval. now subst v.
  - destruct (URLHost.decOctet o) as [| x r]; [discriminate |].
    eexists; eexists; reflexivity.
Qed.

Lemma dotted_split (a b c d : N) :
  (a < 256)%N -> (b < 256)%N -> (c < 256)%N -> (d < 256)%N ->
  JS.split (ch ".") (URLHost.dotted a b c d)
  = [URLHost.decOctet a; URLHost.decOctet b; URLHost.decOctet c;
     URLHost.decOctet d].
Proof.
  intros Ha Hb Hc Hd.
  destruct (octet_facts a Ha) as (_ & _ & Da & _).
  destruct (octet_facts b Hb) as (_ & _ & Db & _).
  destruct (octet_facts c Hc) as (_ & _ & Dc & _).
  destruct (octet_facts d Hd) as (_ & _ & Dd & _).
  unfold URLHost.dotted.
  change (lit ".") with [ch "."]. cbn [app].
  rewrite !split_app_sep by now apply digits_no_dot.
  rewrite split_no_sep by now apply digits_no_dot.
  reflexivity.
Qed.

Lemma dotted_isIP (a b c d : N) :
  (a < 256)%N -> (b < 256)%N -> (c < 256)%N -> (d < 256)%N ->
  Net.isIP (URLHost.dotted a b c d) = 4%Z.
Proof.
  intros Ha Hb Hc Hd.
  unfold Net.isIP, Net.isIPv4, Net.v4Str.
  rewrite dotted_split by assumption.
  destruct (octet_facts a Ha) as (-> & _).
  destruct (octet_facts b Hb) as (-> & _).
  destruct (octet_facts c Hc) as (-> & _).
  destruct (octet_facts d Hd) as (-> & _).
  reflexivity.
Qed.

(** On a serialised IPv4 host the classifier computes exactly the private
    and loopback ranges. *)
Lemma isPrivateIp_dotted (a b c d : N) :
  (a < 256)%N -> (b < 256)%N -> (c < 256)%N -> (d < 256)%N ->
  isPrivateIp (URLHost.dotted a b c d) = URLHost.privateRange a b.
Proof.
  intros Ha Hb Hc Hd.
  unfold isPrivateIp. rewrite dotted_isIP by assumption.
  cbn [Z.eqb Pos.eqb]. rewrite dotted_split by assumption.
  cbn [map].
  destruct (octet_facts a Ha) as (_ & -> & _).
  destruct (octet_facts b Hb) as (_ & -> & _).
  unfold partIs, partIn, URLHost.privateRange. cbn [nth_error].
  replace (Z.of_N a =? 10)%Z with (a =? 10)%N
    by (apply eq_true_iff_eq; rewrite N.eqb_eq, Z.eqb_eq; lia).
  replace (Z.of_N a =? 127)%Z with (a =? 127)%N
    by (apply eq_true_iff_eq; rewrite N.eqb_eq, Z.eqb_eq; lia).
  replace (Z.of_N a =? 169)%Z with (a =? 169)%N
    by (apply eq_true_iff_eq; rewrite N.eqb_eq, Z.eqb_eq; lia).
  replace (Z.of_N a =? 192)%Z with (a =? 192)%N
    by (apply eq_true_iff_eq; rewrite N.eqb_eq, Z.eqb_eq; lia).
  replace (Z.of_N a =? 172)%Z with (a =? 172)%N
    by (apply eq_true_iff_eq; rewrite N.eqb_eq, Z.eqb_eq; lia).
  replace (Z.of_N b =? 254)%Z with (b =? 254)%N
    by (apply eq_true_iff_eq; rewrite N.eqb_eq, Z.eqb_eq; lia).
  replace (Z.of_N b =? 168)%Z with (b =? 168)%N
    by (apply eq_true_iff_eq; rewrite N.eqb_eq, Z.eqb_eq; lia).
  replace (16 <=? Z.of_N b)%Z with (16 <=? b)%N
    by (apply eq_true_iff_eq; rewrite N.leb_le, Z.leb_le; lia).
  replace (Z.of_N b <=? 31)%Z with (b <=? 31)%N
    by (apply eq_true_iff_eq; rewrite N.leb_le, Z.leb_le; lia).
  destruct (a =? 10)%N, (a =? 127)%N, (a =? 169)%N, (a =? 192)%N,
    (a =? 172)%N, (b =? 254)%N, (b =? 168)%N, (16 <=? b)%N, (b <=? 31)%N;
    reflexivity.
Qed.

Lemma toLowerCase_below_A (s : jsstring) :
  forallb (fun x => (x <? 65)%N) s = true -> toLowerCase s = s.
Proof.
  induction s as [| x s IH]; cbn [forallb toLowerCase flat_map]; intros H.
  - reflexivity.
  - apply andb_prop in H as [Hx Hs]. apply N.ltb_lt in Hx.
    fold (toLowerCase s). rewrite (IH Hs).
    unfold lowerUnit, isUpper.
    replace (65 <=? x)%N with false by (symmetry; apply N.leb_gt; lia).
    replace (x =? 8490)%N with false by (symmetry; apply N.eqb_neq; lia).
    replace (x =? 304)%N with false by (symmetry; apply N.eqb_neq; lia).
    reflexivity.
Qed.

Lemma digits_below_A (s : jsstring) :
  forallb isDigit s = true -> forallb (fun x => (x <? 65)%N) s = true.
Proof.
  intros H. apply forallb_forall. intros x Hx.
  rewrite forallb_forall in H. specialize (H x Hx).
  unfold isDigit in H. apply andb_prop in H as [_ H2].
  apply N.leb_le in H2. apply N.ltb_lt. lia.
Qed.

Lemma dotted_lower (a b c d : N) :
  (a < 256)%N -> (b < 256)%N -> (c < 256)%N -> (d < 256)%N ->
  toLowerCase (URLHost.dotted a b c d) = URLHost.dotted a b c d.
Proof.
  intros Ha Hb Hc Hd. apply toLowerCase_below_A.
  destruct (octet_facts a Ha) as (_ & _ & Da & _).
  destruct (octet_facts b Hb) as (_ & _ & Db & _).
  destruct (octet_facts c Hc) as (_ & _ & Dc & _).
  destruct (octet_facts d Hd) as (_ & _ & Dd & _).
  unfold URLHost.dotted. rewrite !forallb_app.
  rewrite (digits_below_A _ Da), (digits_below_A _ Db),
    (digits_below_A _ Dc), (digits_below_A _ Dd). reflexivity.
Qed.

(** A serialised IPv4 host is neither [localhost] nor under [.localhost]. *)
Lemma dotted_not_localhost (a b c d : N) :
  (a < 256)%N -> (b < 256)%N -> (c < 256)%N -> (d < 256)%N ->
  JS.eqb (URLHost.dotted a b c d) (lit "localhost") = false
  /\ endsWith (URLHost.dotted a b c d) (lit ".localhost") = false.
Proof.
  intros Ha Hb Hc Hd.
  destruct (octet_facts a Ha) as (_ & _ & Da & xa & ra & Ea).
  destruct (octet_facts d Hd) as (_ & _ & Dd & _).
  split.
  - unfold URLHost.dotted. rewrite Ea in *.
    cbn [forallb] in Da. apply andb_prop in Da as [Dx _].
    unfold isDigit in Dx. apply andb_prop in Dx as [_ Dx].
    apply N.leb_le in Dx.
    change (lit "localhost") with (108%N :: lit "ocalhost").
    cbn [app JS.eqb].
    replace (xa =? 108)%N with false by (symmetry; apply N.eqb_neq; lia).
    reflexivity.
  - unfold endsWith, URLHost.dotted.
    rewrite !app_assoc, rev_app_distr.
    assert (Hlast : exists y t, rev (URLHost.decOctet d) = y :: t
                                /\ isDigit y = true).
    { destruct (octet_facts d Hd) as (_ & _ & _ & xd & rd & Ed).
      destruct (rev (URLHost.decOctet d)) as [| y t] eqn:Er.
      - apply (f_equal (@rev N)) in Er. rewrite rev_involutive, Ed in Er.
        discriminate.
      - exists y, t. split; [reflexivity |].
        rewrite forallb_forall in Dd. apply Dd.
        apply in_rev. rewrite Er. now left. }
    destruct Hlast as (y & t & -> & Dy).
    unfold isDigit in Dy. apply andb_prop in Dy as [_ Dy].
    apply N.leb_le in Dy.
    change (rev (lit ".localhost")) with (116%N :: rev (lit ".localhos")).
    cbn [app startsWith].
    replace (y =? 116)%N with false by (symmetry; apply N.eqb_neq; lia).
    reflexivity.
Qed.

(** C1, the IPv4 half, which holds.  For every IPv4 literal host in
    127.0.0.0/8, 10.0.0.0/8, 169.254.0.0/16, 192.168.0.0/16 or
    172.16.0.0 - 172.31.255.255 of an http or https URL the guard answers
    400 "Disallowed IP"; every other IPv4 literal host passes. *)
Lemma guard_on_ipv4_literal (proto : jsstring) (a b c d : N) :
  JS.eqb proto (lit "http:") || JS.eqb proto (lit "https:") = true ->
  (a < 256)%N -> (b < 256)%N -> (c < 256)%N -> (d < 256)%N ->
  urlGuard (Some {| protocol := proto; hostname := URLHost.dotted a b c d |})
  = if URLHost.privateRange a b
    then Some (respond 400 "Disallowed IP") else None.
Proof.
  intros Hproto Ha Hb Hc Hd.
  unfold urlGuard. cbn [protocol hostname]. rewrite Hproto. cbn [negb].
  rewrite dotted_lower by assumption.
  destruct (dotted_not_localhost a b c d Ha Hb Hc Hd) as [-> ->].
  cbn [orb]. rewrite dotted_isIP, isPrivateIp_dotted by assumption.
  reflexivity.
Qed.

Lemma guard_accepts_8_8_8_8 :
  urlGuard (Some {| protocol := lit "https:"; hostname := lit "8.8.8.8" |})
  = None.
Proof. vm_compute. reflexivity. Qed.

(** A host name that starts with a square bracket is no IP address for
    [net.isIP]. *)
Lemma v4Str_bracket (s : jsstring) : Net.v4Str (ch "[" :: s) = false.
Proof.
  unfold Net.v4Str.
  destruct (split_head (ch ".") (ch "[") s eq_refl) as (p & ps & ->).
  destruct ps as [| b [| c [| d [| e ps]]]]; reflexivity.
Qed.

Lemma v6Seg_bracket (s : jsstring) : Net.v6Seg (ch "[" :: s) = false.
Proof. reflexivity. Qed.

Lemma tailGroups_bracket (s : jsstring) (gs : list jsstring) :
  Net.tailGroups ((ch "[" :: s) :: gs) = None.
Proof.
  cbn [Net.tailGroups]. rewrite v6Seg_bracket, v4Str_bracket.
  destruct gs; reflexivity.
Qed.

Lemma groupsOf_bracket (s : jsstring) :
  exists p ps, Net.groupsOf (ch "[" :: s) = (ch "[" :: p) :: ps.
Proof.
  unfold Net.groupsOf. apply split_head. reflexivity.
Qed.

Lemma cutZone_bracket (s : jsstring) :
  exists a z, Net.cutZone (ch "[" :: s) = (ch "[" :: a, z).
Proof.
  cbn [Net.cutZone]. change (ch "[" =? 37)%N with false. cbn iota.
  destruct (Net.cutZone s) as [a z]. eexists; eexists; reflexivity.
Qed.

Lemma cutDoubleColon_bracket (s : jsstring) :
  Net.cutDoubleColon (ch "[" :: s) = None
  \/ exists l r, Net.cutDoubleColon (ch "[" :: s) = Some (ch "[" :: l, r).
Proof.
  destruct s as [| y s].
  - left. reflexivity.
  - change (Net.cutDoubleColon (ch "[" :: y :: s))
      with (match Net.cutDoubleColon (y :: s) with
            | Some (l, r') => Some (ch "[" :: l, r')
            | None => None
            end).
    destruct (Net.cutDoubleColon (y :: s)) as [[l r] |].
    + right. exists l, r. reflexivity.
    + left. reflexivity.
Qed.

Lemma isIP_bracket (s : jsstring) : Net.isIP (ch "[" :: s) = 0%Z.
Proof.
  unfold Net.isIP, Net.isIPv4. rewrite v4Str_bracket.
  unfold Net.isIPv6.
  destruct (cutZone_bracket s) as (a & z & ->).
  destruct (cutDoubleColon_bracket a) as [-> | (l & r & ->)].
  - destruct (groupsOf_bracket a) as (p & ps & ->).
    rewrite tailGroups_bracket. now rewrite andb_false_r.
  - destruct (groupsOf_bracket l) as (p & ps & ->).
    cbn [forallb]. rewrite v6Seg_bracket. now rewrite andb_false_r.
Qed.

Lemma bracketed_lower (addr : jsstring) :
  toLowerCase (URLHost.bracketed addr)
  = ch "[" :: toLowerCase addr ++ [ch "]"].
Proof.
  unfold URLHost.bracketed, toLowerCase.
  change (lit "[") with [ch "["]. change (lit "]") with [ch "]"].
  cbn [app flat_map]. rewrite flat_map_app. reflexivity.
Qed.

(** Every bracketed host of an http or https URL passes the guard,
    whatever stands between the brackets. *)
Lemma guard_on_bracketed_host (proto addr : jsstring) :
  JS.eqb proto (lit "http:") || JS.eqb proto (lit "https:") = true ->
  urlGuard (Some {| protocol := proto; hostname := URLHost.bracketed addr |})
  = None.
Proof.
  intros Hproto. unfold urlGuard. cbn [protocol hostname].
  rewrite Hproto. cbn [negb]. rewrite bracketed_lower.
  rewrite isIP_bracket.
  replace (endsWith _ _) with false.
  - reflexivity.
  - unfold endsWith. cbn [rev]. rewrite rev_app_distr. reflexivity.
Qed.

(** C1, the IPv6 half, which fails.  Take the IPv6 literals the guard is
    meant to refuse: [::1], or an address that starts with [fc] or [fd].  The classifier
    does call each of them private.  But the host name of a URL with such a
    literal reaches the guard between square brackets, [net.isIP] answers 0
    for it, the classifier is never asked, and the guard lets the URL
    through. *)
Theorem ipv6_literal_hosts_pass_the_guard (proto addr : jsstring) :
  JS.eqb proto (lit "http:") || JS.eqb proto (lit "https:") = true ->
  Net.isIP addr = 6%Z ->
  JS.eqb addr (lit "::1") = true
  \/ startsWith addr (lit "fc") = true
  \/ startsWith addr (lit "fd") = true ->
  isPrivateIp addr = true
  /\ urlGuard (Some {| protocol := proto;
                       hostname := URLHost.bracketed addr |}) = None.
Proof.
  intros Hproto Hv6 Hprivate. split.
  - unfold isPrivateIp. rewrite Hv6. cbn [Z.eqb Pos.eqb].
    destruct Hprivate as [-> | [-> | ->]].
    + reflexivity.
    + destruct (JS.eqb addr (lit "::1") || JS.eqb addr (lit "0:0:0:0:0:0:0:1"));
        reflexivity.
    + rewrite orb_true_r.
      destruct (JS.eqb addr (lit "::1") || JS.eqb addr (lit "0:0:0:0:0:0:0:1"));
        reflexivity.
  - now apply guard_on_bracketed_host.
Qed.

Lemma ipv6_literal_hosts_pass_the_guard_witness :
  isPrivateIp (lit "::1") = true
  /\ urlGuard (Some {| protocol := lit "http:"; hostname := lit "[::1]" |})
     = None.
Proof.
  apply (ipv6_literal_hosts_pass_the_guard (lit "http:") (lit "::1")).
  - reflexivity.
  - vm_compute. reflexivity.
  - left. reflexivity.
Defined.

(** The request the bracketed host leads to: the summarize route, asked
    for [http://[::1]/], calls [fetch] on it. *)
Lemma ipv6_loopback_url_is_fetched :
  trace (Summarize.route FloatNum (samplePlatform Failed)
           (Some (lit "http://[::1]/")) None)
  = [EvFetch (lit "http://[::1]/")].
Proof. vm_compute. reflexivity. Qed.

(** The same request with an IPv4 loopback host is refused. *)
Lemma ipv4_loopback_url_is_refused :
  Summarize.route FloatNum (samplePlatform Failed)
    (Some (lit "http://10.0.0.7/")) None
  = ([], Answered (respond 400 "Disallowed IP")).
Proof. vm_compute. reflexivity. Qed.

(** ** The stable sort *)

Section SortFacts.
Context {A : Type} (after : A -> A -> bool).

Lemma insertSorted_perm (x : A) (l : list A) :
  Permutation (insertSorted after x l) (x :: l).
Proof.
  induction l as [| y l IH]; cbn [insertSorted].
  - reflexivity.
  - destruct (after x y).
    + rewrite IH. apply perm_swap.
    + reflexivity.
Qed.

Lemma jsSort_perm (l : list A) : Permutation (jsSort after l) l.
Proof.
  induction l as [| x l IH]; cbn [jsSort fold_right].
  - reflexivity.
  - fold (jsSort after l). rewrite insertSorted_perm. now constructor.
Qed.

Lemma jsSort_length (l : list A) : length (jsSort after l) = length l.
Proof. apply Permutation_length, jsSort_perm. Qed.

Lemma jsSort_In (l : list A) (x : A) : In x (jsSort after l) <-> In x l.
Proof.
  split; apply Permutation_in; [| symmetry]; apply jsSort_perm.
Qed.

(** When no two elements are each to come after the other, the result is
    ordered: no element is to come after its successor. *)
Hypothesis after_asym : forall a b, after a b = true -> after b a = false.

Lemma insertSorted_sorted (x : A) (l : list A) :
  Sorted (fun a b => after a b = false) l ->
  Sorted (fun a b => after a b = false) (insertSorted after x l).
Proof.
  induction l as [| y l IH]; cbn [insertSorted]; intros Hs.
  - repeat constructor.
  - destruct (after x y) eqn:Exy.
    + apply Sorted_inv in Hs as [Hs Hhd].
      constructor; [now apply IH |].
      destruct l as [| z l]; cbn [insertSorted].
      * constructor. now apply after_asym.
      * destruct (after x z).
        -- constructor. now inversion Hhd.
        -- constructor. now apply after_asym.
    + constructor; [assumption | now constructor].
Qed.

Lemma jsSort_sorted (l : list A) :
  Sorted (fun a b => after a b = false) (jsSort after l).
Proof.
  induction l as [| x l IH]; cbn [jsSort fold_right].
  - constructor.
  - now apply insertSorted_sorted.
Qed.

End SortFacts.

(** ** One iteration as the loops run it *)

Lemma setNth_length {A} (i : nat) (x : A) (arr : list A) :
  length (setNth i x arr) = length arr.
Proof.
  revert i. induction arr as [| y arr IH]; intros [| i]; cbn [setNth length];
    try reflexivity.
  now rewrite IH.
Qed.

Lemma setNth_nth {A} (i j : nat) (x d : A) (arr : list A) :
  nth j (setNth i x arr) d
  = if (i =? j) && (i <? length arr) then x else nth j arr d.
Proof.
  revert i j. induction arr as [| y arr IH]; intros i j.
  - cbn [setNth length]. destruct (i =? j); destruct j; reflexivity.
  - destruct i as [| i], j as [| j]; cbn [setNth nth length]; try reflexivity.
    rewrite IH. reflexivity.
Qed.

Lemma setNth_same {A} (i : nat) (d : A) (arr : list A) :
  setNth i (nth i arr d) arr = arr.
Proof.
  revert i. induction arr as [| y arr IH]; intros [| i];
    cbn [setNth nth]; try reflexivity.
  now rewrite IH.
Qed.

Lemma setNth_twice {A} (i : nat) (x y : A) (arr : list A) :
  setNth i x (setNth i y arr) = setNth i x arr.
Proof.
  revert i. induction arr as [| z arr IH]; intros [| i];
    cbn [setNth]; try reflexivity.
  now rewrite IH.
Qed.

Section IterationLoops.
Variable ops : NumOps.
Variable d : num ops.
Variable n : nat.
Variable sim : Matrix ops.
Variable rowSum scores : list (num ops).

(** The inner loop changes [next[i]] only, adding to it term by term. *)
Lemma accumulate_columns (i : nat) (js : list nat) (next : list (num ops)) :
  i < length next ->
  fold_left (fun next j =>
      if leb ops (entry ops sim j i) (zero ops) then next
      else setNth i
             (add ops (nth i next (zero ops))
                (mul ops
                   (mul ops d (div ops (entry ops sim j i)
                                 (nth j rowSum (zero ops))))
                   (nth j scores (zero ops))))
             next)
    js next
  = setNth i
      (fold_left (fun acc j =>
           if leb ops (entry ops sim j i) (zero ops) then acc
           else add ops acc
                  (mul ops
                     (mul ops d (div ops (entry ops sim j i)
                                   (nth j rowSum (zero ops))))
                     (nth j scores (zero ops))))
         js (nth i next (zero ops)))
      next.
Proof.
  revert next. induction js as [| j js IH]; intros next Hi; cbn [fold_left].
  - now rewrite setNth_same.
  - destruct (leb ops (entry ops sim j i) (zero ops)).
    + now apply IH.
    + rewrite IH by now rewrite setNth_length.
      rewrite setNth_nth, Nat.eqb_refl.
      replace (i <? length next) with true by (symmetry; now apply Nat.ltb_lt).
      cbn [andb]. now rewrite setNth_twice.
Qed.

(** The loop over the rows of any list without repetition. *)
Lemma fill_next_rows (rows : list nat) (next : list (num ops)) :
  length next = n ->
  NoDup rows ->
  (forall i, In i rows -> i < n) ->
  (forall i, In i rows ->
     nth i next (zero ops)
     = div ops (sub ops (one ops) d) (ofZ ops (Z.of_nat n))) ->
  let next' := fold_left (fun next i =>
                   if eqb ops (nth i rowSum (zero ops)) (zero ops) then next
                   else accumulateRow ops d n sim rowSum scores i next)
                 rows next in
  length next' = n
  /\ forall k, nth k next' (zero ops)
               = if existsb (Nat.eqb k) rows
                 then nextScore ops d n sim rowSum scores k
                 else nth k next (zero ops).
Proof.
  revert next. induction rows as [| i rows IH];
    intros next Hlen Hnd Hrange Hbase; cbn [fold_left existsb].
  - split; [assumption | reflexivity].
  - apply NoDup_cons_iff in Hnd as [Hnotin Hnd'].
    assert (Hi : i < n) by (apply Hrange; now left).
    set (step := if eqb ops (nth i rowSum (zero ops)) (zero ops) then next
                 else accumulateRow ops d n sim rowSum scores i next).
    assert (Hstep : length step = n
                    /\ forall k, nth k step (zero ops)
                                 = if k =? i
                                   then nextScore ops d n sim rowSum scores k
                                   else nth k next (zero ops)).
    { unfold step, nextScore.
      destruct (eqb ops (nth i rowSum (zero ops)) (zero ops)) eqn:E.
      - split; [assumption |]. intros k.
        destruct (Nat.eqb_spec k i) as [-> | _]; [| reflexivity].
        rewrite E. apply Hbase. now left.
      - unfold accumulateRow.
        rewrite accumulate_columns by lia.
        split; [now rewrite setNth_length |].
        intros k. rewrite setNth_nth, Hlen.
        replace (i <? n) with true by (symmetry; now apply Nat.ltb_lt).
        rewrite andb_true_r, (Nat.eqb_sym i k).
        destruct (Nat.eqb_spec k i) as [-> | _]; [| reflexivity].
        rewrite E, (Hbase i (or_introl eq_refl)). reflexivity. }
    destruct Hstep as [Hlen' Hnth].
    destruct (IH step Hlen' Hnd') as [Hlen'' Hnth''].
    { intros k Hk. apply Hrange. now right. }
    { intros k Hk. rewrite Hnth.
      destruct (Nat.eqb_spec k i) as [-> | _]; [contradiction |].
      apply Hbase. now right. }
    split; [exact Hlen'' |].
    intros k. rewrite Hnth'', Hnth.
    destruct (Nat.eqb_spec k i) as [-> | Hne]; cbn [orb].
    + destruct (existsb (Nat.eqb i) rows) eqn:E; reflexivity.
    + reflexivity.
Qed.

Lemma fillNext_spec :
  length (fillNext ops d n sim rowSum scores) = n
  /\ forall k, k < n ->
       nth k (fillNext ops d n sim rowSum scores) (zero ops)
       = nextScore ops d n sim rowSum scores k.
Proof.
  unfold fillNext.
  destruct (fill_next_rows (seq 0 n)
              (repeat (div ops (sub ops (one ops) d) (ofZ ops (Z.of_nat n))) n))
    as [Hlen Hnth].
  - apply repeat_length.
  - apply seq_NoDup.
  - intros i Hi. apply in_seq in Hi. lia.
  - intros i Hi. apply in_seq in Hi. apply nth_repeat_lt. lia.
  - split; [exact Hlen |].
    intros k Hk. rewrite Hnth.
    replace (existsb (Nat.eqb k) (seq 0 n)) with true; [reflexivity |].
    symmetry. apply existsb_exists. exists k.
    split; [apply in_seq; lia | apply Nat.eqb_refl].
Qed.

(** Copying back over any list of positions. *)
Lemma copy_positions (next : list (num ops)) (ks : list nat)
  (arr : list (num ops)) :
  (forall k, In k ks -> k < length arr) ->
  let arr' := fold_left (fun arr k => setNth k (nth k next (zero ops)) arr)
                ks arr in
  length arr' = length arr
  /\ forall k, nth k arr' (zero ops)
               = if existsb (Nat.eqb k) ks then nth k next (zero ops)
                 else nth k arr (zero ops).
Proof.
  revert arr. induction ks as [| j ks IH]; intros arr Hrange;
    cbn [fold_left existsb].
  - split; reflexivity.
  - destruct (IH (setNth j (nth j next (zero ops)) arr)) as [Hlen Hnth].
    { intros k Hk. rewrite setNth_length. apply Hrange. now right. }
    split; [now rewrite Hlen, setNth_length |].
    intros k. rewrite Hnth, setNth_nth.
    assert (Hj : j < length arr) by (apply Hrange; now left).
    replace (j <? length arr) with true by (symmetry; now apply Nat.ltb_lt).
    rewrite andb_true_r, (Nat.eqb_sym j k).
    destruct (Nat.eqb_spec k j) as [-> | _]; cbn [orb].
    + now destruct (existsb (Nat.eqb j) ks).
    + reflexivity.
Qed.

(** One iteration leaves in [scores] exactly the values computed from the
    scores it started with. *)
Lemma iteration_closed :
  length scores = n ->
  iteration ops d n sim rowSum scores
  = map (nextScore ops d n sim rowSum scores) (seq 0 n).
Proof.
  intros Hlen. unfold iteration, copyBack.
  destruct fillNext_spec as [Hnlen Hnext].
  destruct (copy_positions (fillNext ops d n sim rowSum scores) (seq 0 n) scores)
    as [Hclen Hcnth].
  { intros k Hk. apply in_seq in Hk. lia. }
  apply (nth_ext _ _ (zero ops) (zero ops)).
  - now rewrite Hclen, length_map, length_seq.
  - intros k Hk. rewrite Hclen, Hlen in Hk.
    rewrite Hcnth.
    replace (existsb (Nat.eqb k) (seq 0 n)) with true
      by (symmetry; apply existsb_exists; exists k;
          split; [apply in_seq; lia | apply Nat.eqb_refl]).
    rewrite Hnext by assumption.
    rewrite (nth_indep _ (zero ops) (nextScore ops d n sim rowSum scores 0))
      by now rewrite length_map, length_seq.
    rewrite (map_nth (nextScore ops d n sim rowSum scores) (seq 0 n) 0 k).
    now rewrite seq_nth.
Qed.

End IterationLoops.

(** ** Shape of the ranker's result (C8, C9) *)

Section RankShape.
Variable ops : NumOps.

Lemma iteration_length (d : num ops) (n : nat) (sim : Matrix ops)
  (rowSum scores : list (num ops)) :
  length scores = n ->
  length (iteration ops d n sim rowSum scores) = n.
Proof.
  intros Hlen. rewrite iteration_closed by assumption.
  now rewrite length_map, length_seq.
Qed.

Lemma iterations_length (k : nat) (d : num ops) (n : nat) (sim : Matrix ops)
  (rowSum scores : list (num ops)) :
  length scores = n ->
  length (iterations ops k d n sim rowSum scores) = n.
Proof.
  revert scores. induction k as [| k IH]; intros scores Hlen;
    cbn [iterations].
  - assumption.
  - apply IH, iteration_length, Hlen.
Qed.

Lemma finalScores_length (d : num ops) (k n : nat)
  (vectors : list Text.Vector) :
  length (finalScores ops d k n vectors) = n.
Proof.
  unfold finalScores. apply iterations_length, repeat_length.
Qed.

Lemma withIndex_keys (scores : list (num ops)) (i : nat) :
  map (idxOf ops) (withIndex ops i scores)
  = map Some (seq i (length scores)).
Proof.
  revert i. induction scores as [| s scores IH]; intros i;
    cbn [withIndex map length seq idxOf].
  - reflexivity.
  - now rewrite IH.
Qed.

(** For two or more sentences the result holds, in some order, one scored
    element per sentence: the indices are those of the sentences, each
    once. *)
Lemma textRank_indices (sentences : list jsstring)
  (vectors : list Text.Vector) (opts : RankOpts ops) :
  2 <= length sentences ->
  Permutation (map (idxOf ops) (textRank ops sentences vectors opts))
    (map Some (seq 0 (length sentences))).
Proof.
  intros Hn. unfold textRank.
  destruct (Nat.eqb_spec (length sentences) 0) as [E | _]; [lia |].
  destruct (Nat.eqb_spec (length sentences) 1) as [E | _]; [lia |].
  rewrite (Permutation_map _ (jsSort_perm _ _)).
  rewrite withIndex_keys, finalScores_length. reflexivity.
Qed.

Lemma textRank_length (sentences : list jsstring)
  (vectors : list Text.Vector) (opts : RankOpts ops) :
  2 <= length sentences ->
  length (textRank ops sentences vectors opts) = length sentences.
Proof.
  intros Hn.
  pose proof (Permutation_length (textRank_indices sentences vectors opts Hn))
    as H.
  now rewrite !length_map, length_seq in H.
Qed.

Lemma textRank_item (sentences : list jsstring)
  (vectors : list Text.Vector) (opts : RankOpts ops) (t : RankItem ops) :
  2 <= length sentences ->
  In t (textRank ops sentences vectors opts) ->
  exists i s, t = Scored i s /\ i < length sentences.
Proof.
  intros Hn Ht.
  apply (in_map (idxOf ops)) in Ht.
  apply (Permutation_in _ (textRank_indices sentences vectors opts Hn)) in Ht.
  apply in_map_iff in Ht as (i & Hi & Hin). apply in_seq in Hin.
  destruct t as [k | j s]; [discriminate |].
  cbn in Hi. injection Hi as ->. exists j, s. split; [reflexivity | lia].
Qed.


End RankShape.


(** ** The calls of the ranker (C9) *)

Lemma trace_bind_eq {A B} (c : Run A) (k : A -> Run B) :
  trace (bind c k)
  = trace c ++ match snd c with
               | Value a => trace (k a)
               | _ => []
               end.
Proof.
  destruct c as [t [a | r | e]]; cbn.
  - now destruct (k a).
  - now rewrite app_nil_r.
  - now rewrite app_nil_r.
Qed.

Lemma trace_tryCatch_eq {A} (c : Run A) (h : JsError -> Run A) :
  trace (tryCatch c h)
  = trace c ++ match snd c with
               | Thrown e => trace (h e)
               | _ => []
               end.
Proof.
  destruct c as [t [a | r | e]]; cbn.
  - now rewrite app_nil_r.
  - now rewrite app_nil_r.
  - now destruct (h e).
Qed.

Lemma trace_onError {A} (e : JsError) : trace (@onError A e) = [].
Proof. now destruct e. Qed.

(** Fetching makes no call of the ranker. *)
Lemma fetchTextFromUrl_no_rank (P : Platform) (url : jsstring) (n : nat) :
  ~ In (EvRank n) (trace (Summarize.fetchTextFromUrl P url)).
Proof.
  unfold Summarize.fetchTextFromUrl, fetch.
  destruct (remote P url) as [| | r]; cbn; try (intuition discriminate).
  destruct (ok r); cbn; [| intuition discriminate].
  rewrite summarize_bodyText_cases.
  destruct (readable r);
    [destruct (Summarize.MAX_BYTES <? length (concat (chunks r))) |];
    cbn; intuition discriminate.
Qed.

Section RankCalls.
Variable ops : NumOps.

Lemma summaryOf_trace (sentences : list jsstring) :
  trace (Summarize.summaryOf ops sentences)
  = if length sentences <=? 3 then [] else [EvRank (length sentences)].
Proof.
  unfold Summarize.summaryOf. now destruct (length sentences <=? 3).
Qed.

Lemma rank_call_size (P : Platform) (url rawText : option jsstring)
  (n : nat) :
  In (EvRank n) (trace (Summarize.route ops P url rawText)) ->
  4 <= n <= 60.
Proof.
  unfold Summarize.route.
  rewrite trace_tryCatch_eq, trace_bind_eq.
  rewrite !in_app_iff. intros [[Htext | Hrest] | Hcatch].
  - exfalso.
    destruct (truthy url).
    + destruct (urlGuard (parseURL P (valueOf url))).
      * destruct Htext.
      * now apply fetchTextFromUrl_no_rank in Htext.
    + destruct (truthy rawText); destruct Htext.
  - match type of Hrest with
    | In _ (match ?o with _ => _ end) => destruct o as [text | r | e]
    end; try destruct Hrest.
    destruct ((length text =? 0) || (length (trim text) =? 0));
      [destruct Hrest |].
    cbv zeta in Hrest.
    assert (Hcap : length (firstn 60 (Text.splitSentences text)) <= 60)
      by apply firstn_le_length.
    remember (firstn 60 (Text.splitSentences text)) as sentences.
    destruct (length sentences =? 0); [destruct Hrest |].
    rewrite trace_bind_eq, summaryOf_trace in Hrest.
    apply in_app_or in Hrest as [Hrank | Hanswer].
    + destruct (Nat.leb_spec (length sentences) 3) as [Hle | Hgt];
        [destruct Hrank |].
      destruct Hrank as [E | []]. injection E as <-. lia.
    + destruct (snd (Summarize.summaryOf ops _)); destruct Hanswer.
  - match type of Hcatch with
    | In _ (match ?o with _ => _ end) => destruct o as [a | r | e]
    end; try destruct Hcatch.
    now rewrite trace_onError in Hcatch.
Qed.

(** C9.  Whenever the summarize route calls the ranker, the number of
    sentences is between 4 and 60, and on that many sentences every
    element of the ranker's result is a scored element whose [idx] is a
    position of the sentence array, so that [sentences[t.idx]] is a
    sentence. *)
Theorem rank_call_is_in_bounds (P : Platform)
  (url rawText : option jsstring) (n : nat) :
  In (EvRank n) (trace (Summarize.route ops P url rawText)) ->
  4 <= n <= 60
  /\ forall (sentences : list jsstring) (vectors : list Text.Vector)
       (opts : RankOpts ops) (t : RankItem ops),
       length sentences = n ->
       In t (textRank ops sentences vectors opts) ->
       exists i s text,
         t = Scored i s /\ i < n
         /\ sentenceAt ops sentences t = Some text.
Proof.
  intros Hcall. pose proof (rank_call_size P url rawText n Hcall) as Hn.
  split; [assumption |].
  intros sentences vectors opts t Hlen Ht.
  destruct (textRank_item ops sentences vectors opts t) as (i & s & -> & Hi);
    [lia | assumption |].
  destruct (nth_error sentences i) as [text |] eqn:E.
  - exists i, s, text. repeat split; [lia | exact E].
  - apply nth_error_None in E. lia.
Qed.

End RankCalls.

Lemma rank_call_is_in_bounds_witness :
  In (EvRank 5)
    (trace (Summarize.route FloatNum (samplePlatform catsPage)
              (Some (lit "http://example.com/news")) None))
  /\ 4 <= 5 <= 60.
Proof.
  assert (Hcall : In (EvRank 5)
            (trace (Summarize.route FloatNum (samplePlatform catsPage)
                      (Some (lit "http://example.com/news")) None))).
  { vm_compute. right. left. reflexivity. }
  split; [exact Hcall |].
  exact (proj1 (rank_call_is_in_bounds FloatNum (samplePlatform catsPage)
                  (Some (lit "http://example.com/news")) None 5 Hcall)).
Defined.

(** ** The summary selector (C5) *)

Lemma sorted_le_nodup_lt (l : list nat) :
  StronglySorted le l -> NoDup l -> StronglySorted lt l.
Proof.
  induction 1 as [| x l Hs IH Hall]; intros Hnd.
  - constructor.
  - inversion Hnd as [| ? ? Hnotin Hnd']; subst.
    constructor; [now apply IH |].
    rewrite Forall_forall in *. intros y Hy.
    specialize (Hall y Hy).
    assert (x <> y) by (intros ->; contradiction). lia.
Qed.

Lemma In_firstn {A} (n : nat) (l : list A) (x : A) :
  In x (firstn n l) -> In x l.
Proof.
  revert n. induction l as [| y l IH]; intros n.
  - now rewrite firstn_nil.
  - destruct n as [| n]; cbn [firstn]; [intros [] |].
    intros [-> | Hin]; [now left | right; now apply (IH n)].
Qed.

Lemma NoDup_firstn {A} (n : nat) (l : list A) : NoDup l -> NoDup (firstn n l).
Proof.
  revert n. induction l as [| x l IH]; intros n Hnd.
  - now rewrite firstn_nil.
  - destruct n as [| n]; cbn [firstn]; [constructor |].
    inversion Hnd as [| ? ? Hnotin Hnd']; subst.
    constructor; [| now apply IH].
    intros Hin. apply Hnotin. now apply (In_firstn n l x).
Qed.

Section Selector.
Variable ops : NumOps.

Lemma withIndex_keyOf (scores : list (num ops)) (i : nat) :
  map (keyOf ops) (withIndex ops i scores) = seq i (length scores).
Proof.
  revert i. induction scores as [| s scores IH]; intros i;
    cbn [withIndex map length seq keyOf].
  - reflexivity.
  - now rewrite IH.
Qed.

Lemma textRank_keys (sentences : list jsstring)
  (vectors : list Text.Vector) (opts : RankOpts ops) :
  2 <= length sentences ->
  Permutation (map (keyOf ops) (textRank ops sentences vectors opts))
    (seq 0 (length sentences)).
Proof.
  intros Hn. unfold textRank.
  destruct (Nat.eqb_spec (length sentences) 0) as [E | _]; [lia |].
  destruct (Nat.eqb_spec (length sentences) 1) as [E | _]; [lia |].
  rewrite (Permutation_map _ (jsSort_perm _ _)).
  rewrite withIndex_keyOf, finalScores_length. reflexivity.
Qed.

Lemma byIdxAsc_asym (a b : RankItem ops) :
  byIdxAsc ops a b = true -> byIdxAsc ops b a = false.
Proof.
  unfold byIdxAsc. destruct (idxOf ops a), (idxOf ops b); try discriminate.
  intros H. apply Nat.ltb_lt in H. apply Nat.ltb_ge. lia.
Qed.

(** On scored elements the order of [sort] by [idx] is the order of the
    indices. *)
Lemma sorted_by_idx_keys (l : list (RankItem ops)) :
  Forall (fun t => idxOf ops t = Some (keyOf ops t)) l ->
  Sorted (fun a b => byIdxAsc ops a b = false) l ->
  StronglySorted le (map (keyOf ops) l).
Proof.
  intros Hscored Hsorted.
  apply Sorted_StronglySorted; [intros x y z; apply Nat.le_trans |].
  induction Hsorted as [| a l Hs IH Hhd]; cbn [map]; [constructor |].
  inversion Hscored as [| ? ? Ha Hl]; subst.
  constructor; [now apply IH |].
  destruct Hhd as [| b l Hab]; cbn [map]; constructor.
  inversion Hl as [| ? ? Hb _]; subst.
  unfold byIdxAsc in Hab. rewrite Ha, Hb in Hab.
  now apply Nat.ltb_ge in Hab.
Qed.

Lemma topCount_bounds (n : nat) : 1 <= topCount ops n <= 3.
Proof. unfold topCount. lia. Qed.

(** C5.  With at most three sentences the summary is all of them, in
    their order, joined by one space; the ranker is not called.  With more
    than three, [count] being [min(3, max(1, floor(N * 0.2)))], the summary
    joins by one space the sentences at [picked], where [picked] holds the
    indices of the first [count] elements of the ranked list, in strictly
    ascending order; each is a position of the sentence array. *)
Theorem summary_selection (sentences : list jsstring) :
  (length sentences <= 3 ->
   Summarize.summaryOf ops sentences
   = ([], Value (JS.join (lit " ") (map Some sentences))))
  /\ (3 < length sentences ->
      let ranked := textRank ops sentences
                      (fst (Text.buildSentenceVectors sentences))
                      (Summarize.routeOpts ops) in
      let count := topCount ops (length sentences) in
      exists picked : list nat,
        Summarize.summaryOf ops sentences
        = ([EvRank (length sentences)],
           Value (JS.join (lit " ") (map (nth_error sentences) picked)))
        /\ length picked = count
        /\ count = Z.to_nat (Z.min 3 (Z.max 1
                     (floor ops (mul ops (ofZ ops (Z.of_nat (length sentences)))
                                   (div ops (ofZ ops 2) (ofZ ops 10))))))
        /\ Permutation picked (map (keyOf ops) (firstn count ranked))
        /\ StronglySorted lt picked
        /\ Forall (fun i => exists text, nth_error sentences i = Some text)
             picked).
Proof.
  split.
  - intros Hle. unfold Summarize.summaryOf.
    apply Nat.leb_le in Hle. now rewrite Hle.
  - intros Hgt ranked count.
    assert (Hn : 2 <= length sentences) by lia.
    pose proof (textRank_keys sentences
                  (fst (Text.buildSentenceVectors sentences))
                  (Summarize.routeOpts ops) Hn) as Hkeys.
    fold ranked in Hkeys.
    assert (Hscored : Forall (fun t => idxOf ops t = Some (keyOf ops t)) ranked).
    { apply Forall_forall. intros t Ht.
      destruct (textRank_item ops sentences _ _ t Hn Ht) as (i & s & -> & _).
      reflexivity. }
    set (chosen := firstn count ranked).
    set (sorted := jsSort (byIdxAsc ops) chosen).
    assert (Hperm : Permutation sorted chosen) by apply jsSort_perm.
    assert (Hchosen : Forall (fun t => idxOf ops t = Some (keyOf ops t)) chosen).
    { apply Forall_forall. intros t Ht. rewrite Forall_forall in Hscored.
      apply Hscored. now apply (In_firstn count ranked t). }
    assert (Hsorted : Forall (fun t => idxOf ops t = Some (keyOf ops t)) sorted).
    { apply Forall_forall. intros t Ht. rewrite Forall_forall in Hchosen.
      apply Hchosen. now apply (Permutation_in _ Hperm). }
    assert (Hnd : NoDup (map (keyOf ops) chosen)).
    { unfold chosen. rewrite <- firstn_map. apply NoDup_firstn.
      apply (Permutation_NoDup (Permutation_sym Hkeys)), seq_NoDup. }
    assert (Hrange : Forall (fun i => i < length sentences)
                       (map (keyOf ops) sorted)).
    { apply Forall_forall. intros i Hi.
      apply (Permutation_in _ (Permutation_map _ Hperm)) in Hi.
      unfold chosen in Hi. rewrite <- firstn_map in Hi.
      apply In_firstn in Hi.
      apply (Permutation_in _ Hkeys) in Hi. apply in_seq in Hi. lia. }
    exists (map (keyOf ops) sorted). repeat split.
    + unfold Summarize.summaryOf.
      replace (length sentences <=? 3) with false
        by (symmetry; apply Nat.leb_gt; lia).
      unfold selectTop. fold ranked count chosen sorted.
      rewrite map_map. cbn.
      do 3 f_equal. apply map_ext_in. intros t Ht.
      rewrite Forall_forall in Hsorted. unfold sentenceAt.
      now rewrite (Hsorted t Ht).
    + rewrite length_map. unfold sorted. rewrite jsSort_length.
      unfold chosen. rewrite length_firstn.
      pose proof (textRank_length ops sentences
                    (fst (Text.buildSentenceVectors sentences))
                    (Summarize.routeOpts ops) Hn) as Hlen.
      fold ranked in Hlen. rewrite Hlen.
      pose proof (topCount_bounds (length sentences)). fold count in H. lia.
    + now apply Permutation_map.
    + apply sorted_le_nodup_lt.
      * apply sorted_by_idx_keys; [assumption |].
        apply jsSort_sorted, byIdxAsc_asym.
      * apply (Permutation_NoDup (Permutation_map _ (Permutation_sym Hperm))).
        exact Hnd.
    + apply Forall_forall. intros i Hi. rewrite Forall_forall in Hrange.
      specialize (Hrange i Hi).
      destruct (nth_error sentences i) as [text |] eqn:E.
      * now exists text.
      * apply nth_error_None in E. lia.
Qed.

End Selector.

(** The ranked list is in descending order of score: no element has a
    score below that of its successor. *)
Lemma byScoreDesc_real_asym (a b : RankItem RealNum) :
  byScoreDesc RealNum a b = true -> byScoreDesc RealNum b a = false.
Proof.
  unfold byScoreDesc.
  destruct (scoreOf RealNum a) as [sa |], (scoreOf RealNum b) as [sb |];
    try discriminate.
  cbn [ltb sub RealNum]. unfold zero. cbn [ofZ RealNum].
  destruct (Rlt_dec 0 (sb - sa)), (Rlt_dec 0 (sa - sb));
    try reflexivity; try discriminate.
  lra.
Qed.

Lemma textRank_descending (sentences : list jsstring)
  (vectors : list Text.Vector) (opts : RankOpts RealNum) :
  2 <= length sentences ->
  Sorted (fun a b => forall sa sb,
            scoreOf RealNum a = Some sa -> scoreOf RealNum b = Some sb ->
            (sb <= sa)%R)
    (textRank RealNum sentences vectors opts).
Proof.
  intros Hn. unfold textRank.
  destruct (Nat.eqb_spec (length sentences) 0) as [E | _]; [lia |].
  destruct (Nat.eqb_spec (length sentences) 1) as [E | _]; [lia |].
  pose proof (jsSort_sorted (byScoreDesc RealNum) byScoreDesc_real_asym
                (withIndex RealNum 0
                   (finalScores RealNum (dampingOf RealNum opts)
                      (itersOf RealNum opts) (length sentences) vectors)))
    as Hsorted.
  induction Hsorted as [| a l Hs IH Hhd]; constructor; [exact IH |].
  destruct Hhd as [| b l Hab]; constructor.
  intros sa sb Ha Hb. unfold byScoreDesc in Hab. rewrite Ha, Hb in Hab.
  cbn [ltb sub RealNum] in Hab. unfold zero in Hab. cbn [ofZ RealNum] in Hab.
  destruct (Rlt_dec 0 (sb - sa)); [discriminate | lra].
Qed.

(** The count in closed form, in the arithmetic the route runs in and for
    the sizes the route can reach: [min(3, max(1, N div 5))]. *)
Lemma topCount_float (n : nat) :
  n <= 60 -> topCount FloatNum n = Nat.min 3 (Nat.max 1 (n / 5)).
Proof.
  intros Hn.
  assert (H : forallb (fun n => topCount FloatNum n
                                =? Nat.min 3 (Nat.max 1 (n / 5)))
                (seq 0 61) = true) by (vm_compute; reflexivity).
  rewrite forallb_forall in H. apply Nat.eqb_eq, H, in_seq. lia.
Qed.

(** The example of the specification, end to end: five sentences, one is
    selected, and it is not the unrelated one about the sky. *)
Lemma cats_example :
  reply (Summarize.route FloatNum (samplePlatform Failed) None (Some catsText))
  = Some {| status := 200; payload := JSummary (lit "Cats are mammals.") |}.
Proof. vm_compute. reflexivity. Qed.

(** ** Sums over lists of indices *)

Section Sums.
Import Recurrence.
Local Open Scope R_scope.

Lemma sumOver_ext (js : list nat) (f g : nat -> R) :
  (forall j, In j js -> f j = g j) -> sumOver js f = sumOver js g.
Proof.
  induction js as [| j js IH]; cbn [sumOver fold_right]; intros H.
  - reflexivity.
  - fold (sumOver js f) (sumOver js g).
    rewrite (H j (or_introl eq_refl)), IH; [reflexivity |].
    intros k Hk. apply H. now right.
Qed.

Lemma sumOver_add (js : list nat) (f g : nat -> R) :
  sumOver js (fun j => f j + g j) = sumOver js f + sumOver js g.
Proof.
  induction js as [| j js IH]; cbn [sumOver fold_right].
  - lra.
  - fold (sumOver js f) (sumOver js g) (sumOver js (fun j => f j + g j)).
    rewrite IH. lra.
Qed.

Lemma sumOver_scale (js : list nat) (c : R) (f : nat -> R) :
  sumOver js (fun j => c * f j) = c * sumOver js f.
Proof.
  induction js as [| j js IH]; cbn [sumOver fold_right].
  - lra.
  - fold (sumOver js f) (sumOver js (fun j => c * f j)).
    rewrite IH. lra.
Qed.

Lemma sumOver_const (js : list nat) (c : R) :
  sumOver js (fun _ => c) = INR (length js) * c.
Proof.
  induction js as [| j js IH].
  - cbn. lra.
  - cbn [sumOver fold_right length]. fold (sumOver js (fun _ => c)).
    rewrite IH, S_INR. lra.
Qed.

Lemma sumOver_swap (ks js : list nat) (g : nat -> nat -> R) :
  sumOver ks (fun i => sumOver js (fun j => g i j))
  = sumOver js (fun j => sumOver ks (fun i => g i j)).
Proof.
  induction ks as [| i ks IH]; cbn [sumOver fold_right].
  - fold (sumOver js (fun _ => 0)). rewrite sumOver_const. lra.
  - fold (sumOver ks (fun i => sumOver js (fun j => g i j))).
    rewrite IH, <- sumOver_add. reflexivity.
Qed.

Lemma sumOver_filter (p : nat -> bool) (js : list nat) (f : nat -> R) :
  sumOver (filter p js) f = sumOver js (fun j => if p j then f j else 0).
Proof.
  induction js as [| j js IH]; cbn [filter sumOver fold_right].
  - reflexivity.
  - fold (sumOver js (fun j => if p j then f j else 0)).
    destruct (p j); cbn [sumOver fold_right];
      fold (sumOver (filter p js) f); rewrite IH; lra.
Qed.

Lemma sumOver_nonneg (js : list nat) (f : nat -> R) :
  (forall j, In j js -> 0 <= f j) -> 0 <= sumOver js f.
Proof.
  induction js as [| j js IH]; cbn [sumOver fold_right]; intros H.
  - lra.
  - fold (sumOver js f).
    pose proof (H j (or_introl eq_refl)).
    assert (0 <= sumOver js f) by (apply IH; intros k Hk; apply H; now right).
    lra.
Qed.

Lemma sumOver_le (js : list nat) (f g : nat -> R) :
  (forall j, In j js -> f j <= g j) -> sumOver js f <= sumOver js g.
Proof.
  induction js as [| j js IH]; cbn [sumOver fold_right]; intros H.
  - lra.
  - fold (sumOver js f) (sumOver js g).
    pose proof (H j (or_introl eq_refl)).
    assert (sumOver js f <= sumOver js g)
      by (apply IH; intros k Hk; apply H; now right).
    lra.
Qed.

Lemma sumOver_term_le (js : list nat) (f : nat -> R) (k : nat) :
  (forall j, In j js -> 0 <= f j) -> In k js -> f k <= sumOver js f.
Proof.
  induction js as [| j js IH]; cbn [sumOver fold_right]; intros H Hk.
  - destruct Hk.
  - fold (sumOver js f).
    pose proof (H j (or_introl eq_refl)).
    assert (Hrest : 0 <= sumOver js f)
      by (apply sumOver_nonneg; intros i Hi; apply H; now right).
    destruct Hk as [-> | Hk].
    + lra.
    + assert (f k <= sumOver js f)
        by (apply IH; [intros i Hi; apply H; now right | assumption]).
      lra.
Qed.

Lemma sumOver_map_S (js : list nat) (f : nat -> R) :
  sumOver (map S js) f = sumOver js (fun j => f (S j)).
Proof.
  induction js as [| j js IH]; cbn [map sumOver fold_right].
  - reflexivity.
  - fold (sumOver (map S js) f) (sumOver js (fun j => f (S j))).
    now rewrite IH.
Qed.

(** The sum of a list of numbers, by position. *)
Lemma sumOver_nth (l : list R) :
  sumOver (seq 0 (length l)) (fun c => nth c l 0) = fold_right Rplus 0 l.
Proof.
  induction l as [| x l IH].
  - reflexivity.
  - cbn [length]. rewrite <- cons_seq, <- seq_shift.
    unfold sumOver at 1. cbn [fold_right].
    fold (sumOver (map S (seq 0 (length l))) (fun c => nth c (x :: l) 0)).
    rewrite sumOver_map_S. cbn [nth]. now rewrite IH.
Qed.

Lemma fold_left_Rplus (l : list R) :
  fold_left Rplus l 0 = fold_right Rplus 0 l.
Proof.
  apply fold_symmetric; intros; lra.
Qed.

End Sums.

(** ** The similarity matrix as the loops fill it *)
Section MatrixLoops.
Variable ops : NumOps.
Variable n : nat.
Variable vectors : list Text.Vector.

Lemma setEntry_square (sim : Matrix ops) (r c : nat) (x : num ops) :
  square ops n sim -> square ops n (setEntry ops sim r c x).
Proof.
  intros [Hlen Hrows]. unfold setEntry. split.
  - now rewrite setNth_length.
  - intros r' Hr'. rewrite setNth_nth.
    destruct ((r =? r') && (r <? length sim)) eqn:E.
    + apply andb_prop in E as [E _]. apply Nat.eqb_eq in E. subst r'.
      rewrite setNth_length. now apply Hrows.
    + now apply Hrows.
Qed.

Lemma setEntry_entry (sim : Matrix ops) (r c r' c' : nat) (x : num ops) :
  square ops n sim -> r < n -> c < n ->
  entry ops (setEntry ops sim r c x) r' c'
  = if (r =? r') && (c =? c') then x else entry ops sim r' c'.
Proof.
  intros [Hlen Hrows] Hr Hc. unfold entry, setEntry.
  rewrite setNth_nth, Hlen.
  replace (r <? n) with true by (symmetry; now apply Nat.ltb_lt).
  rewrite andb_true_r.
  destruct (Nat.eqb_spec r r') as [<- | Hne]; cbn [andb]; [| reflexivity].
  rewrite setNth_nth, (Hrows r Hr).
  replace (c <? n) with true by (symmetry; now apply Nat.ltb_lt).
  now rewrite andb_true_r.
Qed.

(** The inner loop over any list of columns to the right of [i]. *)
Lemma fill_columns (i : nat) (js : list nat) (sim : Matrix ops) :
  square ops n sim -> i < n ->
  (forall j, In j js -> i < j < n) ->
  let sim' := fold_left (fun sim j =>
                  let s := cosineSim ops (nth i vectors []) (nth j vectors []) in
                  setEntry ops (setEntry ops sim i j s) j i s) js sim in
  square ops n sim'
  /\ forall r c,
       entry ops sim' r c
       = if ((r =? i) && existsb (Nat.eqb c) js)
            || ((c =? i) && existsb (Nat.eqb r) js)
         then pairSim ops vectors r c
         else entry ops sim r c.
Proof.
  revert sim. induction js as [| j js IH]; intros sim Hsq Hi Hjs;
    cbn [fold_left existsb].
  - split; [assumption |]. intros r c. now rewrite !andb_false_r.
  - assert (Hj : i < j < n) by (apply Hjs; now left).
    set (s := cosineSim ops (nth i vectors []) (nth j vectors [])).
    assert (Hsq' : square ops n (setEntry ops (setEntry ops sim i j s) j i s))
      by now apply setEntry_square, setEntry_square.
    destruct (IH _ Hsq' Hi) as [Hsq'' Hentry].
    { intros k Hk. apply Hjs. now right. }
    split; [exact Hsq'' |].
    intros r c. rewrite Hentry.
    rewrite setEntry_entry by (try apply setEntry_square; assumption || lia).
    rewrite setEntry_entry by (assumption || lia).
    unfold pairSim.
    repeat match goal with
           | |- context [?a =? ?b] =>
               destruct (Nat.eqb_spec a b); cbn [andb orb]
           | |- context [?a <? ?b] =>
               destruct (Nat.ltb_spec a b); cbn [andb orb]
           | |- context [existsb ?f ?l] =>
               destruct (existsb f l); cbn [andb orb]
           end; subst; try lia; reflexivity.
Qed.

Lemma fillRow_spec (i : nat) (sim : Matrix ops) :
  square ops n sim -> i < n ->
  square ops n (fillRow ops n vectors i sim)
  /\ forall r c, r < n -> c < n ->
       entry ops (fillRow ops n vectors i sim) r c
       = if ((r =? i) && (i <? c)) || ((c =? i) && (i <? r))
         then pairSim ops vectors r c
         else entry ops sim r c.
Proof.
  intros Hsq Hi. unfold fillRow.
  destruct (fill_columns i (seq (S i) (n - S i)) sim Hsq Hi) as [Hsq' Hentry].
  { intros j Hj. apply in_seq in Hj. lia. }
  split; [exact Hsq' |].
  intros r c Hr Hc. rewrite Hentry.
  assert (Hex : forall k, k < n ->
            existsb (Nat.eqb k) (seq (S i) (n - S i)) = (i <? k)).
  { intros k Hk. apply eq_true_iff_eq.
    rewrite existsb_exists, Nat.ltb_lt. split.
    - intros (j & Hj & E). apply in_seq in Hj. apply Nat.eqb_eq in E. lia.
    - intros Hlt. exists k. split; [apply in_seq; lia | apply Nat.eqb_refl]. }
  now rewrite !Hex.
Qed.

(** The outer loop over any list of rows. *)
Lemma fill_rows (rows : list nat) (sim : Matrix ops) :
  square ops n sim ->
  (forall i, In i rows -> i < n) ->
  let sim' := fold_left (fun sim i => fillRow ops n vectors i sim) rows sim in
  square ops n sim'
  /\ forall r c, r < n -> c < n ->
       entry ops sim' r c
       = if ((r <? c) && existsb (Nat.eqb r) rows)
            || ((c <? r) && existsb (Nat.eqb c) rows)
         then pairSim ops vectors r c
         else entry ops sim r c.
Proof.
  revert sim. induction rows as [| i rows IH]; intros sim Hsq Hrows;
    cbn [fold_left existsb].
  - split; [assumption |]. intros r c _ _. now rewrite !andb_false_r.
  - assert (Hi : i < n) by (apply Hrows; now left).
    destruct (fillRow_spec i sim Hsq Hi) as [Hsq' Hrow].
    destruct (IH _ Hsq') as [Hsq'' Hentry].
    { intros k Hk. apply Hrows. now right. }
    split; [exact Hsq'' |].
    intros r c Hr Hc. rewrite Hentry, Hrow by assumption.
    repeat match goal with
           | |- context [?a =? ?b] =>
               destruct (Nat.eqb_spec a b); cbn [andb orb]
           | |- context [?a <? ?b] =>
               destruct (Nat.ltb_spec a b); cbn [andb orb]
           | |- context [existsb ?f ?l] =>
               destruct (existsb f l); cbn [andb orb]
           end; subst; try lia; reflexivity.
Qed.

Lemma zeros_square : square ops n (repeat (repeat (zero ops) n) n).
Proof.
  split; [apply repeat_length |].
  intros r Hr. rewrite nth_repeat_lt by assumption. apply repeat_length.
Qed.

Lemma simMatrix_square : square ops n (simMatrix ops n vectors).
Proof.
  unfold simMatrix.
  apply (fill_rows (seq 0 n) _ zeros_square).
  intros i Hi. apply in_seq in Hi. lia.
Qed.

(** The matrix the loops leave: zero on the diagonal, and off it the one
    value computed for the pair, at both places. *)
Lemma simMatrix_entry (r c : nat) :
  r < n -> c < n ->
  entry ops (simMatrix ops n vectors) r c
  = if r =? c then zero ops
    else if r <? c
         then cosineSim ops (nth r vectors []) (nth c vectors [])
         else cosineSim ops (nth c vectors []) (nth r vectors []).
Proof.
  intros Hr Hc. unfold simMatrix.
  destruct (fill_rows (seq 0 n) _ zeros_square) as [_ Hentry].
  { intros i Hi. apply in_seq in Hi. lia. }
  rewrite Hentry by assumption.
  assert (Hex : forall k, k < n -> existsb (Nat.eqb k) (seq 0 n) = true).
  { intros k Hk. apply existsb_exists. exists k.
    split; [apply in_seq; lia | apply Nat.eqb_refl]. }
  rewrite !Hex, !andb_true_r by assumption.
  unfold pairSim.
  destruct (Nat.eqb_spec r c) as [-> | Hne].
  - rewrite Nat.ltb_irrefl. cbn [orb]. unfold entry.
    rewrite !nth_repeat_lt by assumption. reflexivity.
  - destruct (Nat.ltb_spec r c), (Nat.ltb_spec c r); try lia; reflexivity.
Qed.

End MatrixLoops.

(** ** The similarity matrix over the real numbers *)

Section RealMatrix.
Import Recurrence.
Local Open Scope R_scope.

Lemma nth_map_in {A B} (f : A -> B) (l : list A) (j : nat) (dA : A) (dB : B) :
  (j < length l)%nat -> nth j (map f l) dB = f (nth j l dA).
Proof.
  revert j. induction l as [| x l IH]; intros j Hj; cbn [length] in Hj.
  - lia.
  - destruct j as [| j]; cbn [map nth]; [reflexivity |].
    apply IH. lia.
Qed.

Lemma nth_map_seq {A} (f : nat -> A) (n i : nat) (d : A) :
  (i < n)%nat -> nth i (map f (seq 0 n)) d = f i.
Proof.
  intros Hi.
  rewrite (nth_map_in f (seq 0 n) i 0%nat d) by now rewrite length_seq.
  now rewrite seq_nth.
Qed.

Lemma dot_nonneg (b a : Text.Vector) (acc : Z) :
  (0 <= acc)%Z ->
  (0 <= fold_left (fun (acc : Z) '(k, av) =>
          match Text.lookupV k b with
          | Some (S bv) => (acc + Z.of_nat av * Z.of_nat (S bv))%Z
          | _ => acc
          end) a acc)%Z.
Proof.
  revert acc. induction a as [| [k av] a IH]; intros acc Hacc; cbn [fold_left].
  - assumption.
  - apply IH. destruct (Text.lookupV k b) as [[| bv] |]; lia.
Qed.

Lemma squares_grow (v : Text.Vector) (acc : Z) :
  (acc <= fold_left (fun (acc : Z) '(_, c) =>
            (acc + Z.of_nat c * Z.of_nat c)%Z) v acc)%Z.
Proof.
  revert acc. induction v as [| [k c] v IH]; intros acc; cbn [fold_left].
  - lia.
  - etransitivity; [| apply IH]. nia.
Qed.

Lemma cosineSim_nonneg (a b : Text.Vector) : 0 <= cosineSim RealNum a b.
Proof.
  unfold cosineSim. cbv zeta.
  match goal with
  | |- context [if ?c then _ else _] => destruct c eqn:E
  end.
  - cbn. lra.
  - apply orb_false_iff in E as [Ea Eb].
    apply Z.eqb_neq in Ea, Eb.
    pose proof (squares_grow a 0%Z) as Hna.
    pose proof (squares_grow b 0%Z) as Hnb.
    cbn [div mul sqrt ofZ RealNum].
    apply Rmult_le_pos.
    + apply IZR_le, dot_nonneg. lia.
    + apply Rlt_le, Rinv_0_lt_compat, Rmult_lt_0_compat;
        apply sqrt_lt_R0, IZR_lt; lia.
Qed.

Variable n : nat.
Variable vectors : list Text.Vector.

Lemma entry_simOf (r c : nat) :
  (r < n)%nat -> (c < n)%nat ->
  entry RealNum (simOf n vectors) r c
  = if (r =? c)%nat then 0
    else if (r <? c)%nat
         then cosineSim RealNum (nth r vectors []) (nth c vectors [])
         else cosineSim RealNum (nth c vectors []) (nth r vectors []).
Proof.
  intros Hr Hc. unfold simOf.
  exact (simMatrix_entry RealNum n vectors r c Hr Hc).
Qed.

Lemma entry_nonneg (r c : nat) :
  (r < n)%nat -> (c < n)%nat -> 0 <= entry RealNum (simOf n vectors) r c.
Proof.
  intros Hr Hc. rewrite entry_simOf by assumption.
  destruct (r =? c)%nat; [lra |].
  destruct (r <? c)%nat; apply cosineSim_nonneg.
Qed.

Lemma entry_sym (r c : nat) :
  (r < n)%nat -> (c < n)%nat ->
  entry RealNum (simOf n vectors) r c = entry RealNum (simOf n vectors) c r.
Proof.
  intros Hr Hc. rewrite !entry_simOf by assumption.
  destruct (Nat.eqb_spec r c) as [-> | Hne].
  - now rewrite Nat.eqb_refl.
  - destruct (Nat.eqb_spec c r) as [-> | _]; [contradiction |].
    destruct (Nat.ltb_spec r c), (Nat.ltb_spec c r); try reflexivity; lia.
Qed.

Lemma simOf_length : length (simOf n vectors) = n.
Proof. exact (proj1 (simMatrix_square RealNum n vectors)). Qed.

Lemma simOf_row_length (r : nat) :
  (r < n)%nat -> length (nth r (simOf n vectors) []) = n.
Proof.
  intros Hr. exact (proj2 (simMatrix_square RealNum n vectors) r Hr).
Qed.

Lemma rowSumOf_length : length (rowSumOf n vectors) = n.
Proof. unfold rowSumOf, rowSums. now rewrite length_map, simOf_length. Qed.

(** A row sum is the sum of the entries of its row. *)
Lemma rowSumOf_nth (j : nat) :
  (j < n)%nat ->
  nth j (rowSumOf n vectors) 0 = sumOver (seq 0 n) (fun c => entry RealNum (simOf n vectors) j c).
Proof.
  intros Hj. unfold rowSumOf, rowSums.
  rewrite (nth_map_in _ (simOf n vectors) j [] 0)
    by now rewrite simOf_length.
  change (fold_left (add RealNum) (nth j (simOf n vectors) []) (zero RealNum))
    with (fold_left Rplus (nth j (simOf n vectors) []) 0).
  rewrite fold_left_Rplus, <- sumOver_nth, simOf_row_length by assumption.
  reflexivity.
Qed.

Lemma rowSumOf_nonneg (j : nat) : (j < n)%nat -> 0 <= nth j (rowSumOf n vectors) 0.
Proof.
  intros Hj. rewrite rowSumOf_nth by assumption.
  apply sumOver_nonneg. intros c Hc. apply in_seq in Hc.
  apply entry_nonneg; lia.
Qed.

(** A positive entry makes the sum of its row positive. *)
Lemma positive_entry_row (j i : nat) :
  (j < n)%nat -> (i < n)%nat ->
  0 < entry RealNum (simOf n vectors) j i -> 0 < nth j (rowSumOf n vectors) 0.
Proof.
  intros Hj Hi Hpos. rewrite rowSumOf_nth by assumption.
  eapply Rlt_le_trans; [exact Hpos |].
  apply (sumOver_term_le (seq 0 n) (fun c => entry RealNum (simOf n vectors) j c) i).
  - intros c Hc. apply in_seq in Hc. apply entry_nonneg; lia.
  - apply in_seq. lia.
Qed.

(** A row whose sum is zero holds only zeros, and so does its column. *)
Lemma zero_row_column (i j : nat) :
  (i < n)%nat -> (j < n)%nat ->
  nth i (rowSumOf n vectors) 0 = 0 -> entry RealNum (simOf n vectors) j i = 0.
Proof.
  intros Hi Hj Hzero. rewrite entry_sym by assumption.
  pose proof (entry_nonneg i j Hi Hj) as Hnn.
  destruct (Rle_lt_or_eq_dec _ _ Hnn) as [Hpos | <-]; [| reflexivity].
  pose proof (positive_entry_row i j Hi Hj Hpos). lra.
Qed.

End RealMatrix.

(** ** The recurrence of the ranker (C4) *)

Section RealRecurrence.
Import Recurrence.
Local Open Scope R_scope.

Variable n : nat.
Variable vectors : list Text.Vector.
Variable d : R.

Lemma filter_none {A} (p : A -> bool) (l : list A) :
  (forall x, In x l -> p x = false) -> filter p l = [].
Proof.
  induction l as [| x l IH]; cbn [filter]; intros H.
  - reflexivity.
  - rewrite (H x (or_introl eq_refl)). apply IH.
    intros y Hy. apply H. now right.
Qed.

Lemma eqb_real (x y : R) :
  (x = y /\ eqb RealNum x y = true) \/ (x <> y /\ eqb RealNum x y = false).
Proof.
  cbn [eqb RealNum]. destruct (Req_dec_T x y); [left | right]; now split.
Qed.

(** The inner loop over [j], started from [base]. *)
Lemma inner_loop (i : nat) (scores : list R) (js : list nat) (base : R) :
  fold_left (fun acc j =>
      if leb RealNum (entry RealNum (simOf n vectors) j i) (zero RealNum)
      then acc
      else add RealNum acc
             (mul RealNum
                (mul RealNum d
                   (div RealNum (entry RealNum (simOf n vectors) j i)
                      (nth j (rowSumOf n vectors) (zero RealNum))))
                (nth j scores (zero RealNum))))
    js base
  = base
    + d * sumOver
            (filter (fun j => ltb RealNum 0 (entry RealNum (simOf n vectors) j i))
               js)
            (fun j => entry RealNum (simOf n vectors) j i
                      / nth j (rowSumOf n vectors) 0 * nth j scores 0).
Proof.
  revert base. induction js as [| j js IH]; intros base;
    cbn [fold_left filter].
  - cbn. lra.
  - rewrite IH. cbn [leb ltb add mul div RealNum]. unfold zero. cbn [ofZ RealNum].
    destruct (Rle_dec (entry RealNum (simOf n vectors) j i) 0) as [Hle | Hgt],
      (Rlt_dec 0 (entry RealNum (simOf n vectors) j i)) as [Hlt | Hnlt];
      try lra; try reflexivity.
    unfold sumOver. cbn [fold_right].
    match goal with |- @eq _ ?a ?b => change (@eq R a b) end. ring.
Qed.

(** One pass of the loops computes the recurrence of the specification. *)
Lemma nextScore_recurrence (scores : list R) (i : nat) :
  (i < n)%nat ->
  nextScore RealNum d n (simOf n vectors) (rowSumOf n vectors) scores i
  = recurrence d n (simOf n vectors) (rowSumOf n vectors) scores i.
Proof.
  intros Hi. unfold nextScore, recurrence, contributors.
  match goal with
  | |- context [if eqb RealNum ?x ?y then _ else _] =>
      destruct (eqb_real x y) as [Hzero | Hnz]
  end.
  - destruct Hzero as [Hzero ->]. unfold zero in Hzero. cbn [ofZ RealNum] in Hzero.
    rewrite filter_none.
    + unfold sumOver, one. cbn [fold_right div sub ofZ RealNum].
      match goal with |- @eq _ ?a ?b => change (@eq R a b) end. lra.
    + intros j Hj. apply in_seq in Hj.
      rewrite (zero_row_column n vectors i j Hi) by (lia || assumption).
      cbn [ltb RealNum].
      destruct (Rlt_dec 0 0) as [Habs | _]; [lra |].
      apply andb_false_r.
  - destruct Hnz as [Hnz ->]. unfold zero in Hnz. cbn [ofZ RealNum] in Hnz.
    etransitivity; [exact (inner_loop i scores (seq 0 n) _) |].
    unfold one. cbn [div sub ofZ RealNum].
    match goal with |- @eq _ ?a ?b => change (@eq R a b) end.
    f_equal. f_equal. f_equal. apply filter_ext_in.
    intros j Hj. apply in_seq in Hj. cbn [eqb ltb RealNum].
    destruct (Rlt_dec 0 (entry RealNum (simOf n vectors) j i)) as [Hpos | Hnpos].
    + pose proof (positive_entry_row n vectors j i) as Hrow.
      destruct (Req_dec_T (nth j (rowSumOf n vectors) 0) 0) as [E | _];
        [| reflexivity].
      assert (0 < nth j (rowSumOf n vectors) 0) by (apply Hrow; lia || assumption).
      lra.
    + now rewrite andb_false_r.
Qed.

Lemma iterations_succ (k : nat) (sim : Matrix RealNum)
  (rowSum scores : list R) :
  iterations RealNum (S k) d n sim rowSum scores
  = iteration RealNum d n sim rowSum
      (iterations RealNum k d n sim rowSum scores).
Proof.
  revert scores. induction k as [| k IH]; intros scores.
  - reflexivity.
  - change (iterations RealNum (S (S k)) d n sim rowSum scores)
      with (iterations RealNum (S k) d n sim rowSum
              (iteration RealNum d n sim rowSum scores)).
    now rewrite IH.
Qed.

Lemma finalScores_succ (k i : nat) :
  (i < n)%nat ->
  nth i (finalScores RealNum d (S k) n vectors) 0
  = recurrence d n (simOf n vectors) (rowSumOf n vectors)
      (finalScores RealNum d k n vectors) i.
Proof.
  intros Hi. unfold finalScores. cbv zeta.
  rewrite iterations_succ.
  rewrite (iteration_closed RealNum)
    by exact (iterations_length RealNum k d n _ _ _ (repeat_length _ n)).
  rewrite (nth_map_seq _ n i 0) by assumption.
  apply (nextScore_recurrence _ i Hi).
Qed.

End RealRecurrence.

(** C4.  For two or more sentences: every score starts at [1/N]; each of
    the iterations replaces every score [i] by
    [(1-d)/N + d * sum over j of (sim[j][i] / rowSum[j]) * score[j]], the
    sum ranging over the [j] with a non-zero row sum and a positive
    similarity to [i], and the scores on the right being those of the
    previous iteration; the result pairs the scores after exactly [iters]
    iterations with their indices; and the summarize route asks for 30
    iterations with [d = 0.85]. *)
Theorem textRank_recurrence (sentences : list jsstring)
  (vectors : list Text.Vector) (opts : RankOpts RealNum) :
  2 <= length sentences ->
  let n := length sentences in
  let d := dampingOf RealNum opts in
  let scoresAt := fun k => finalScores RealNum d k n vectors in
  scoresAt 0 = repeat (1 / IZR (Z.of_nat n))%R n
  /\ (forall k i, i < n ->
        nth i (scoresAt (S k)) 0%R
        = Recurrence.recurrence d n (Recurrence.simOf n vectors)
            (Recurrence.rowSumOf n vectors) (scoresAt k) i)
  /\ Permutation (textRank RealNum sentences vectors opts)
       (withIndex RealNum 0 (scoresAt (itersOf RealNum opts)))
  /\ itersOf RealNum (Summarize.routeOpts RealNum) = 30
  /\ dampingOf RealNum (Summarize.routeOpts RealNum) = (85 / 100)%R.
Proof.
  intros Hn n d scoresAt. repeat split.
  - intros k i Hi. apply finalScores_succ, Hi.
  - unfold textRank. fold n d.
    destruct (Nat.eqb_spec n 0) as [E | _]; [lia |].
    destruct (Nat.eqb_spec n 1) as [E | _]; [lia |].
    apply jsSort_perm.
  - unfold dampingOf, Summarize.routeOpts. cbn [damping eqb div ofZ RealNum].
    now destruct (Req_dec_T _ _), (Req_dec_T _ _).
Qed.

Lemma textRank_recurrence_witness :
  2 <= length tersePage
  /\ itersOf RealNum (Summarize.routeOpts RealNum) = 30.
Proof.
  assert (H : 2 <= length tersePage) by (cbn; lia).
  split; [exact H |].
  exact (proj1 (proj2 (proj2 (proj2
           (textRank_recurrence tersePage
              (fst (Text.buildSentenceVectors tersePage))
              (Summarize.routeOpts RealNum) H))))).
Defined.

(** ** The sum of the scores (C7) *)

Section RealScores.
Import Recurrence.
Local Open Scope R_scope.

Variable n : nat.
Variable vectors : list Text.Vector.
Variable d : R.
Hypothesis n_pos : (0 < n)%nat.
Hypothesis d_range : 0 <= d <= 1.

Lemma IZR_n_pos : 0 < IZR (Z.of_nat n).
Proof. apply IZR_lt. lia. Qed.

Lemma iteration_nth (scores : list R) (i : nat) :
  length scores = n ->
  (i < n)%nat ->
  nth i (iteration RealNum d n (simOf n vectors) (rowSumOf n vectors) scores) 0
  = recurrence d n (simOf n vectors) (rowSumOf n vectors) scores i.
Proof.
  intros Hlen Hi. rewrite (iteration_closed RealNum) by exact Hlen.
  rewrite (nth_map_seq _ n i 0) by assumption.
  now apply nextScore_recurrence.
Qed.

(** Over the contributors of [i] or over all [j], the sum is the same: a
    [j] that does not contribute has similarity 0 to [i]. *)
Lemma contributors_sum (scores : list R) (i : nat) :
  (i < n)%nat ->
  sumOver (contributors n (simOf n vectors) (rowSumOf n vectors) i)
    (fun j => entry RealNum (simOf n vectors) j i
              / nth j (rowSumOf n vectors) 0 * nth j scores 0)
  = sumOver (seq 0 n)
      (fun j => entry RealNum (simOf n vectors) j i
                / nth j (rowSumOf n vectors) 0 * nth j scores 0).
Proof.
  intros Hi. unfold contributors. rewrite sumOver_filter.
  apply sumOver_ext. intros j Hj. apply in_seq in Hj.
  cbn [eqb ltb RealNum].
  destruct (Req_dec_T (nth j (rowSumOf n vectors) 0) 0) as [Hzero | Hnz];
    cbn [negb andb].
  - rewrite (entry_sym n vectors j i), (zero_row_column n vectors j i)
      by (lia || assumption).
    unfold Rdiv. ring.
  - destruct (Rlt_dec 0 (entry RealNum (simOf n vectors) j i)) as [Hpos | Hnpos];
      [reflexivity |].
    pose proof (entry_nonneg n vectors j i).
    assert (E : entry RealNum (simOf n vectors) j i = 0)
      by (assert (0 <= entry RealNum (simOf n vectors) j i)
            by (apply H; lia); lra).
    rewrite E. unfold Rdiv. ring.
Qed.

(** The sum after one iteration. *)
Lemma sum_after_iteration (scores : list R) :
  length scores = n ->
  sumScores n (iteration RealNum d n (simOf n vectors) (rowSumOf n vectors)
               scores)
  = (1 - d) + d * linkedScores n vectors scores.
Proof.
  intros Hlen. unfold sumScores, linkedScores.
  rewrite (sumOver_ext _ _
             (fun i => (1 - d) / IZR (Z.of_nat n)
                       + d * sumOver (seq 0 n)
                               (fun j => entry RealNum (simOf n vectors) j i
                                         / nth j (rowSumOf n vectors) 0
                                         * nth j scores 0))).
  2:{ intros i Hi. apply in_seq in Hi.
      rewrite iteration_nth by (assumption || lia). unfold recurrence.
      rewrite contributors_sum by lia. reflexivity. }
  rewrite sumOver_add, sumOver_const, sumOver_scale, length_seq.
  rewrite INR_IZR_INZ.
  replace (IZR (Z.of_nat n) * ((1 - d) / IZR (Z.of_nat n))) with (1 - d)
    by (field; apply Rgt_not_eq, IZR_n_pos).
  f_equal. f_equal.
  rewrite sumOver_swap. apply sumOver_ext. intros j Hj. apply in_seq in Hj.
  rewrite (sumOver_ext _ _
             (fun i => nth j scores 0 / nth j (rowSumOf n vectors) 0
                       * entry RealNum (simOf n vectors) j i))
    by (intros; unfold Rdiv; ring).
  rewrite sumOver_scale, <- rowSumOf_nth by lia.
  destruct (Req_dec_T (nth j (rowSumOf n vectors) 0) 0) as [-> | Hnz].
  - ring.
  - now field.
Qed.

Lemma linkedScores_bounds (scores : list R) :
  (forall j, (j < n)%nat -> 0 <= nth j scores 0) ->
  0 <= linkedScores n vectors scores <= sumScores n scores.
Proof.
  intros Hnn. unfold linkedScores, sumScores. split.
  - apply sumOver_nonneg. intros j Hj. apply in_seq in Hj.
    destruct (Req_dec_T _ _); [lra | apply Hnn; lia].
  - apply sumOver_le. intros j Hj. apply in_seq in Hj.
    destruct (Req_dec_T _ _); [apply Hnn; lia | lra].
Qed.

Lemma iteration_wellScored (scores : list R) :
  wellScored n d scores ->
  wellScored n d (iteration RealNum d n (simOf n vectors) (rowSumOf n vectors)
                scores).
Proof.
  intros (Hlen & Hnn & Hsum). split; [| split].
  - exact (iteration_length RealNum d n _ _ scores Hlen).
  - intros i Hi. rewrite iteration_nth by assumption. unfold recurrence.
    rewrite contributors_sum by assumption.
    apply Rplus_le_le_0_compat.
    + apply Rmult_le_pos; [lra |].
      apply Rlt_le, Rinv_0_lt_compat, IZR_n_pos.
    + apply Rmult_le_pos; [lra |].
      apply sumOver_nonneg. intros j Hj. apply in_seq in Hj.
      apply Rmult_le_pos; [| apply Hnn; lia].
      pose proof (entry_nonneg n vectors j i) as He.
      pose proof (rowSumOf_nonneg n vectors j) as Hr.
      destruct (Req_dec_T (nth j (rowSumOf n vectors) 0) 0) as [-> | Hnz].
      * unfold Rdiv. rewrite Rinv_0. rewrite Rmult_0_r. lra.
      * apply Rmult_le_pos; [apply He; lia |].
        apply Rlt_le, Rinv_0_lt_compat.
        assert (0 <= nth j (rowSumOf n vectors) 0) by (apply Hr; lia). lra.
  - rewrite sum_after_iteration by assumption.
    pose proof (linkedScores_bounds scores Hnn) as [Hl1 Hl2].
    split; nra.
Qed.

Lemma iterations_wellScored (k : nat) (scores : list R) :
  wellScored n d scores ->
  wellScored n d (iterations RealNum k d n (simOf n vectors) (rowSumOf n vectors)
                scores).
Proof.
  revert scores. induction k as [| k IH]; intros scores Hs; cbn [iterations].
  - assumption.
  - apply IH, iteration_wellScored, Hs.
Qed.

Lemma initial_wellScored :
  wellScored n d (repeat (div RealNum (one RealNum) (ofZ RealNum (Z.of_nat n))) n).
Proof.
  unfold one. cbn [div ofZ RealNum].
  assert (Hnth : forall j, (j < n)%nat ->
            nth j (repeat (1 / IZR (Z.of_nat n)) n) 0 = 1 / IZR (Z.of_nat n)).
  { intros j Hj. apply nth_repeat_lt. assumption. }
  split; [| split].
  - apply repeat_length.
  - intros j Hj. rewrite Hnth by assumption.
    apply Rlt_le, Rdiv_lt_0_compat; [lra | apply IZR_n_pos].
  - unfold sumScores.
    rewrite (sumOver_ext _ _ (fun _ => 1 / IZR (Z.of_nat n)))
      by (intros j Hj; apply in_seq in Hj; apply Hnth; lia).
    rewrite sumOver_const, length_seq, INR_IZR_INZ.
    replace (IZR (Z.of_nat n) * (1 / IZR (Z.of_nat n))) with 1
      by (field; apply Rgt_not_eq, IZR_n_pos).
    lra.
Qed.

Lemma finalScores_wellScored (k : nat) :
  wellScored n d (finalScores RealNum d k n vectors).
Proof.
  unfold finalScores. cbv zeta.
  apply iterations_wellScored, initial_wellScored.
Qed.

(** When no row sum is zero the sum of the scores stays 1. *)
Hypothesis all_linked :
  forall j, (j < n)%nat -> nth j (rowSumOf n vectors) 0 <> 0.

Lemma linkedScores_all (scores : list R) :
  linkedScores n vectors scores = sumScores n scores.
Proof.
  unfold linkedScores, sumScores. apply sumOver_ext.
  intros j Hj. apply in_seq in Hj.
  destruct (Req_dec_T _ _) as [E | _]; [| reflexivity].
  exfalso. apply (all_linked j); [lia | assumption].
Qed.

Lemma iterations_sum_one (k : nat) (scores : list R) :
  length scores = n ->
  sumScores n scores = 1 ->
  sumScores n (iterations RealNum k d n (simOf n vectors) (rowSumOf n vectors)
               scores) = 1.
Proof.
  revert scores. induction k as [| k IH]; intros scores Hlen Hs;
    cbn [iterations].
  - assumption.
  - apply IH.
    + exact (iteration_length RealNum d n _ _ scores Hlen).
    + rewrite sum_after_iteration, linkedScores_all, Hs by assumption. ring.
Qed.

Lemma finalScores_sum_one (k : nat) :
  sumScores n (finalScores RealNum d k n vectors) = 1.
Proof.
  unfold finalScores. cbv zeta. apply iterations_sum_one.
  { apply repeat_length. }
  unfold sumScores.
  rewrite (sumOver_ext _ _ (fun _ => 1 / IZR (Z.of_nat n))).
  - rewrite sumOver_const, length_seq, INR_IZR_INZ.
    field. apply Rgt_not_eq, IZR_n_pos.
  - intros j Hj. apply in_seq in Hj. unfold one. cbn [div ofZ RealNum].
    apply nth_repeat_lt. lia.
Qed.

End RealScores.

Section RankedTotals.
Import Recurrence.
Local Open Scope R_scope.

Lemma totalScore_perm (l l' : list (RankItem RealNum)) :
  Permutation l l' -> totalScore l = totalScore l'.
Proof.
  induction 1 as [| t l l' _ IH | t u l | l l' l'' _ IH1 _ IH2];
    cbn [totalScore fold_right].
  - reflexivity.
  - fold (totalScore l) (totalScore l'). now rewrite IH.
  - fold (totalScore l).
    destruct (scoreOf RealNum t), (scoreOf RealNum u); lra.
  - now rewrite IH1.
Qed.

Lemma totalScore_withIndex (scores : list R) (i : nat) :
  totalScore (withIndex RealNum i scores) = fold_right Rplus 0 scores.
Proof.
  revert i. induction scores as [| s scores IH]; intros i;
    cbn [withIndex totalScore fold_right scoreOf].
  - reflexivity.
  - fold (totalScore (withIndex RealNum (S i) scores)). now rewrite IH.
Qed.

Lemma In_withIndex (scores : list R) (k : nat) (t : RankItem RealNum) :
  In t (withIndex RealNum k scores) ->
  exists i, (i < length scores)%nat
            /\ t = @Scored RealNum (k + i) (nth i scores 0).
Proof.
  revert k. induction scores as [| s scores IH]; intros k;
    cbn [withIndex In].
  - intros [].
  - intros [<- | Hin].
    + exists 0%nat. cbn [length nth]. split; [lia |]. now rewrite Nat.add_0_r.
    + destruct (IH (S k) Hin) as (i & Hi & ->).
      exists (S i). cbn [length nth]. split; [lia |].
      now rewrite Nat.add_succ_r.
Qed.

Lemma textRank_perm (sentences : list jsstring)
  (vectors : list Text.Vector) (opts : RankOpts RealNum) :
  (2 <= length sentences)%nat ->
  Permutation (textRank RealNum sentences vectors opts)
    (withIndex RealNum 0
       (finalScores RealNum (dampingOf RealNum opts) (itersOf RealNum opts)
          (length sentences) vectors)).
Proof.
  intros Hn. unfold textRank.
  destruct (Nat.eqb_spec (length sentences) 0) as [E | _]; [lia |].
  destruct (Nat.eqb_spec (length sentences) 1) as [E | _]; [lia |].
  apply jsSort_perm.
Qed.

(** The total of the ranked list is the sum of the final scores. *)
Lemma textRank_total (sentences : list jsstring)
  (vectors : list Text.Vector) (opts : RankOpts RealNum) :
  (2 <= length sentences)%nat ->
  totalScore (textRank RealNum sentences vectors opts)
  = sumScores (length sentences)
      (finalScores RealNum (dampingOf RealNum opts) (itersOf RealNum opts)
         (length sentences) vectors).
Proof.
  intros Hn.
  rewrite (totalScore_perm _ _ (textRank_perm sentences vectors opts Hn)).
  rewrite totalScore_withIndex.
  unfold sumScores.
  rewrite <- sumOver_nth. f_equal. f_equal.
  exact (finalScores_length RealNum _ _ _ _).
Qed.

(** C7, as the code has it, in exact arithmetic: the statement is over the
    real numbers, of which the binary64 scores of the running code are
    roundings (see [linked_sentences_float_total] for how close they come).
    For two or more sentences and a damping factor between 0 and 1 (the
    route passes 0.85): no score is negative; the scores sum to at least
    [1 - d] and at most 1; and they sum to 1 when no row of the similarity
    matrix sums to zero, that is, when every sentence shares a term with
    another. *)
Theorem textRank_score_sum (sentences : list jsstring)
  (vectors : list Text.Vector) (opts : RankOpts RealNum) :
  (2 <= length sentences)%nat ->
  0 <= dampingOf RealNum opts <= 1 ->
  (forall t s, In t (textRank RealNum sentences vectors opts) ->
               scoreOf RealNum t = Some s -> 0 <= s)
  /\ 1 - dampingOf RealNum opts
     <= totalScore (textRank RealNum sentences vectors opts) <= 1
  /\ ((forall j, (j < length sentences)%nat ->
                 nth j (rowSumOf (length sentences) vectors) 0 <> 0) ->
      totalScore (textRank RealNum sentences vectors opts) = 1).
Proof.
  intros Hn Hd.
  assert (Hpos : (0 < length sentences)%nat) by lia.
  pose proof (finalScores_wellScored (length sentences) vectors
                (dampingOf RealNum opts) Hpos Hd (itersOf RealNum opts))
    as (_ & Hnn & Hsum).
  split; [| split].
  - intros t s Ht Hs.
    apply (Permutation_in _ (textRank_perm sentences vectors opts Hn)) in Ht.
    apply In_withIndex in Ht as (i & Hi & ->).
    cbn [scoreOf] in Hs. injection Hs as <-.
    apply Hnn.
    eapply Nat.lt_le_trans; [exact Hi |].
    apply Nat.eq_le_incl.
    exact (finalScores_length RealNum _ _ _ _).
  - now rewrite textRank_total.
  - intros Hlinked. rewrite textRank_total by assumption.
    now apply finalScores_sum_one.
Qed.

Lemma routeOpts_damping :
  dampingOf RealNum (Summarize.routeOpts RealNum) = 85 / 100.
Proof.
  unfold dampingOf, Summarize.routeOpts. cbn [damping eqb div ofZ RealNum].
  now destruct (Req_dec_T _ _), (Req_dec_T _ _).
Qed.

(** When every row sum is zero, the scores sum to [1 - d] from the first
    iteration on. *)
Lemma unlinked_total (n : nat) (vectors : list Text.Vector) (d : R) (k : nat) :
  (0 < n)%nat ->
  (forall j, (j < n)%nat -> nth j (rowSumOf n vectors) 0 = 0) ->
  sumScores n (finalScores RealNum d (S k) n vectors) = 1 - d.
Proof.
  intros Hn Hzero. unfold finalScores. cbv zeta.
  rewrite iterations_succ.
  change (simMatrix RealNum n vectors) with (simOf n vectors).
  change (rowSums RealNum (simOf n vectors)) with (rowSumOf n vectors).
  rewrite sum_after_iteration
    by (assumption
        || exact (iterations_length RealNum k d n _ _ _ (repeat_length _ n))).
  replace (linkedScores n vectors _) with 0; [ring |].
  unfold linkedScores. symmetry.
  rewrite (sumOver_ext _ _ (fun _ => 0)).
  - rewrite sumOver_const. ring.
  - intros j Hj. apply in_seq in Hj.
    destruct (Req_dec_T _ _) as [_ | Hnz]; [reflexivity |].
    exfalso. apply Hnz, Hzero. lia.
Qed.

(** C7 does not hold for every sentence set.  Four sentences that share
    no term: after the 30 iterations of the route the scores sum to 0.15,
    which is not close to 1. *)
Lemma unrelated_sentences_sum_to_0_15 :
  totalScore (textRank RealNum tersePage
                (fst (Text.buildSentenceVectors tersePage))
                (Summarize.routeOpts RealNum)) = 15 / 100
  /\ ~ Rabs (totalScore (textRank RealNum tersePage
                           (fst (Text.buildSentenceVectors tersePage))
                           (Summarize.routeOpts RealNum)) - 1) <= 1 / 2.
Proof.
  assert (Htotal :
    totalScore (textRank RealNum tersePage
                  (fst (Text.buildSentenceVectors tersePage))
                  (Summarize.routeOpts RealNum)) = 15 / 100).
  { rewrite textRank_total by (cbn; lia).
    rewrite routeOpts_damping.
    change (itersOf RealNum (Summarize.routeOpts RealNum)) with 30%nat.
    change (length tersePage) with 4%nat.
    replace (fst (Text.buildSentenceVectors tersePage))
      with [@nil (nat * nat); []; []; []] by (vm_compute; reflexivity).
    rewrite unlinked_total.
    - lra.
    - lia.
    - intros j Hj. rewrite rowSumOf_nth by assumption.
      rewrite (sumOver_ext _ _ (fun _ => 0)).
      + rewrite sumOver_const. ring.
      + intros c Hc. apply in_seq in Hc.
        rewrite entry_simOf by lia.
        destruct (j =? c)%nat; [reflexivity |].
        assert (Hempty : forall i, nth i [@nil (nat * nat); []; []; []] [] = [])
          by (intros [| [| [| [| [| i]]]]]; reflexivity).
        rewrite !Hempty. now destruct (j <? c)%nat. }
  split; [exact Htotal |].
  rewrite Htotal. intros H.
  replace (15 / 100 - 1) with (- (85 / 100)) in H by lra.
  rewrite Rabs_Ropp, Rabs_pos_eq in H by lra. lra.
Qed.

End RankedTotals.

(** The same four sentences in the arithmetic the code runs in: the 30
    iterations leave a total below 0.2. *)
Lemma unrelated_sentences_float_total :
  PrimFloat.ltb
    (fold_right (fun t acc => match scoreOf FloatNum t with
                              | Some s => PrimFloat.add s acc
                              | None => acc
                              end) (Float64.ofZ 0)
       (textRank FloatNum tersePage
          (fst (Text.buildSentenceVectors tersePage))
          (Summarize.routeOpts FloatNum)))
    (PrimFloat.div (Float64.ofZ 1) (Float64.ofZ 5)) = true.
Proof. vm_compute. reflexivity. Qed.

(** And the example text of the specification, whose last sentence shares
    no term with the others: the total stays below 0.9. *)
Lemma cats_float_total :
  PrimFloat.ltb
    (fold_right (fun t acc => match scoreOf FloatNum t with
                              | Some s => PrimFloat.add s acc
                              | None => acc
                              end) (Float64.ofZ 0)
       (textRank FloatNum (Text.splitSentences catsText)
          (fst (Text.buildSentenceVectors (Text.splitSentences catsText)))
          (Summarize.routeOpts FloatNum)))
    (PrimFloat.div (Float64.ofZ 9) (Float64.ofZ 10)) = true.
Proof. vm_compute. reflexivity. Qed.

(** The count over the real numbers, for every size. *)
Lemma topCount_real (n : nat) :
  topCount RealNum n = Nat.min 3 (Nat.max 1 (n / 5)).
Proof.
  unfold topCount. cbn [floor mul div ofZ RealNum].
  replace (Int_part (IZR (Z.of_nat n) * (2 / 10))) with (Z.of_nat n / 5)%Z.
  - rewrite <- (Nat2Z.id (Nat.min 3 (Nat.max 1 (n / 5)))).
    f_equal. rewrite Nat2Z.inj_min, Nat2Z.inj_max, Nat2Z.inj_div.
    reflexivity.
  - apply Int_part_spec.
    pose proof (Z.div_mod (Z.of_nat n) 5 ltac:(lia)) as Hdiv.
    pose proof (Z.mod_pos_bound (Z.of_nat n) 5 ltac:(lia)) as Hmod.
    set (q := (Z.of_nat n / 5)%Z) in *.
    set (m := (Z.of_nat n mod 5)%Z) in *.
    rewrite Hdiv, plus_IZR, mult_IZR.
    assert (0 <= IZR m)%R by (apply IZR_le; lia).
    assert (IZR m <= 4)%R by (apply IZR_le; lia).
    split; lra.
Qed.

Lemma summary_selection_witness :
  Summarize.summaryOf FloatNum [lit "One two."; lit "Three four."]
  = ([], Value (lit "One two. Three four."))
  /\ exists picked,
       Summarize.summaryOf FloatNum (Text.splitSentences catsText)
       = ([EvRank (length (Text.splitSentences catsText))],
          Value (JS.join (lit " ")
                   (map (nth_error (Text.splitSentences catsText)) picked)))
       /\ length picked = 1.
Proof.
  split.
  - refine (proj1 (summary_selection FloatNum
                     [lit "One two."; lit "Three four."]) _).
    cbn. lia.
  - assert (H : 3 < length (Text.splitSentences catsText))
      by (vm_compute; lia).
    destruct (proj2 (summary_selection FloatNum (Text.splitSentences catsText)) H)
      as (picked & Hsummary & Hlen & _).
    exists picked. split; [exact Hsummary |].
    rewrite Hlen. vm_compute. reflexivity.
Defined.

(** ** White space after extraction *)

Section WhiteSpace.
Import TextShape.

Lemma collapseSpace_again (s : jsstring) :
  Extract.collapseSpace false (Extract.collapseSpace false s)
  = Extract.collapseSpace false s
  /\ Extract.collapseSpace true (Extract.collapseSpace true s)
     = Extract.collapseSpace true s
  /\ Extract.collapseSpace false (Extract.collapseSpace true s)
     = Extract.collapseSpace true s.
Proof.
  induction s as [| x s (IH1 & IH2 & IH3)]; [repeat split |].
  cbn [Extract.collapseSpace].
  destruct (isSpace x) eqn:Ex.
  - repeat split; try assumption.
    cbn [Extract.collapseSpace]. change (isSpace 32) with true. cbn iota.
    now rewrite IH2.
  - repeat split; cbn [Extract.collapseSpace]; rewrite Ex;
      now rewrite IH1.
Qed.

Lemma collapseSpace_true_head (s : jsstring) :
  match Extract.collapseSpace true s with
  | [] => True
  | y :: _ => isSpace y = false
  end.
Proof.
  induction s as [| x s IH]; cbn [Extract.collapseSpace]; [exact I |].
  destruct (isSpace x) eqn:Ex; [exact IH | exact Ex].
Qed.

Lemma collapseSpace_spaced (s : jsstring) (inRun : bool) :
  spaced (Extract.collapseSpace inRun s) = true.
Proof.
  revert inRun. induction s as [| x s IH]; intros inRun;
    cbn [Extract.collapseSpace]; [reflexivity |].
  destruct (isSpace x) eqn:Ex.
  - destruct inRun; [apply IH |].
    cbn [spaced]. change (isSpace 32) with true. cbn iota.
    rewrite IH, andb_true_r. cbn [N.eqb Pos.eqb andb].
    pose proof (collapseSpace_true_head s) as H.
    destruct (Extract.collapseSpace true s); [reflexivity | now rewrite H].
  - cbn [spaced]. rewrite Ex. apply IH.
Qed.

Lemma spaced_app (u v : jsstring) :
  spaced (u ++ v) = true -> spaced u = true /\ spaced v = true.
Proof.
  induction u as [| x u IH]; cbn [app spaced]; intros H.
  - split; [reflexivity | assumption].
  - apply andb_prop in H as [Hx Hrest].
    destruct (IH Hrest) as [Hu Hv]. split; [| assumption].
    rewrite Hu, andb_true_r.
    destruct (isSpace x); [| reflexivity].
    apply andb_prop in Hx as [H32 Hnext]. rewrite H32. cbn [andb].
    destruct u as [| y u]; [reflexivity | exact Hnext].
Qed.

Lemma spaced_collapse (s : jsstring) :
  spaced s = true -> Extract.collapseSpace false s = s.
Proof.
  induction s as [| x s IH]; cbn [spaced Extract.collapseSpace];
    [reflexivity |].
  intros H. apply andb_prop in H as [Hx Hs].
  destruct (isSpace x) eqn:Ex.
  - apply andb_prop in Hx as [H32 Hnext]. apply N.eqb_eq in H32. subst x.
    f_equal. destruct s as [| y s]; [reflexivity |].
    apply negb_true_iff in Hnext. cbn [Extract.collapseSpace].
    rewrite Hnext. f_equal.
    specialize (IH Hs). cbn [Extract.collapseSpace] in IH.
    rewrite Hnext in IH. now injection IH.
  - f_equal. now apply IH.
Qed.

(** [trimStart] drops a run of white space and stops at the first other
    code unit. *)
Lemma trimStart_split (s : jsstring) :
  exists p, s = p ++ trimStart s
            /\ forallb isSpace p = true
            /\ match trimStart s with
               | [] => True
               | y :: _ => isSpace y = false
               end.
Proof.
  induction s as [| x s (p & Hs & Hp & Hhead)]; cbn [trimStart].
  - exists []. repeat split.
  - destruct (isSpace x) eqn:Ex.
    + exists (x :: p). cbn [app forallb]. rewrite Ex, Hp.
      repeat split; [now f_equal | assumption].
    + exists []. repeat split. exact Ex.
Qed.

Lemma trimStart_fixed (s : jsstring) :
  match s with
  | [] => True
  | y :: _ => isSpace y = false
  end ->
  trimStart s = s.
Proof.
  destruct s as [| y s]; [reflexivity |]. cbn [trimStart]. now intros ->.
Qed.

(** What [trim] leaves: a piece of [s] between two runs of white space,
    with no white space at either end. *)
Lemma trim_split (s : jsstring) :
  exists p q, s = p ++ trim s ++ q
              /\ forallb isSpace p = true
              /\ forallb isSpace q = true
              /\ trimmed (trim s) = true.
Proof.
  unfold trim.
  destruct (trimStart_split s) as (p & Hs & Hp & Hhead).
  destruct (trimStart_split (rev (trimStart s))) as (q & Hr & Hq & Hlast).
  set (a := trimStart s) in *. set (b := trimStart (rev a)) in *.
  assert (Ha : a = rev b ++ rev q).
  { rewrite <- (rev_involutive a), Hr, rev_app_distr. reflexivity. }
  exists p, (rev q). repeat split.
  - now rewrite <- Ha.
  - assumption.
  - rewrite forallb_forall in *. intros x Hx. apply Hq. now apply in_rev.
  - unfold trimmed. rewrite rev_involutive.
    apply andb_true_intro. split.
    + destruct (rev b) as [| y t] eqn:Eb; [reflexivity |].
      rewrite Ha in Hhead. cbn [app] in Hhead. now rewrite Hhead.
    + destruct b as [| y t]; [reflexivity | now rewrite Hlast].
Qed.

Lemma trimmed_trim (s : jsstring) : trimmed s = true -> trim s = s.
Proof.
  unfold trimmed, trim. intros H. apply andb_prop in H as [Hfirst Hlast].
  rewrite (trimStart_fixed s).
  - rewrite (trimStart_fixed (rev s)); [apply rev_involutive |].
    destruct (rev s); [exact I | now apply negb_true_iff].
  - destruct s; [exact I | now apply negb_true_iff].
Qed.

Lemma trim_again (s : jsstring) : trim (trim s) = trim s.
Proof.
  destruct (trim_split s) as (_ & _ & _ & _ & _ & H). now apply trimmed_trim.
Qed.

Lemma trim_spaced (s : jsstring) : spaced s = true -> spaced (trim s) = true.
Proof.
  intros H. destruct (trim_split s) as (p & q & Hs & _).
  rewrite Hs in H. apply spaced_app in H as [_ H].
  now apply spaced_app in H as [H _].
Qed.

(** The extracted text is tidy: no white space at either end, and inside
    only single space characters. *)
Lemma stripTags_tidy (text : jsstring) :
  spaced (Extract.stripTags text) = true
  /\ trimmed (Extract.stripTags text) = true.
Proof.
  unfold Extract.stripTags. split.
  - apply trim_spaced, collapseSpace_spaced.
  - now destruct (trim_split (Extract.collapseSpace false
             (Extract.replaceAll Extract.tagMatch 0
                (Extract.replaceAll
                   (Extract.blockMatch (lit "<style") (lit "</style>")) 0
                   (Extract.replaceAll
                      (Extract.blockMatch (lit "<script") (lit "</script>")) 0
                      text)))))
      as (_ & _ & _ & _ & _ & H).
Qed.

End WhiteSpace.

(** ** No tag survives extraction *)

Section TagFree.
Import TextShape.

Lemma tagMatch_cons (x : N) (r : jsstring) :
  Extract.tagMatch (x :: r) = None <-> (x = ch "<" -> closes r).
Proof.
  unfold Extract.tagMatch, closes. destruct (N.eqb_spec x (ch "<")) as [-> | Hx].
  - destruct r as [| y r]; cbn [Extract.findChar].
    + split; [now left | reflexivity].
    + destruct (N.eqb_spec y (ch ">")) as [-> | Hy].
      * split; [intros _ _; right; now eexists | reflexivity].
      * destruct (Extract.findChar (ch ">") r); cbn [option_map].
        -- split; [discriminate |]. intros H.
           destruct (H eq_refl) as [H' | [r' H']]; [discriminate |].
           injection H' as H' _. contradiction.
        -- split; [now left | reflexivity].
  - split; [intros _ H; contradiction | reflexivity].
Qed.

Lemma matchesIn_cons (m : jsstring -> option nat) (x : N) (r : jsstring) :
  matchesIn m (x :: r) = false <-> m (x :: r) = None /\ matchesIn m r = false.
Proof.
  cbn [matchesIn]. destruct (m (x :: r)).
  - split; [discriminate | intros [H _]; discriminate].
  - split; [now split | now intros [_ H]].
Qed.

Lemma findChar_none (c : N) (s : jsstring) :
  Extract.findChar c s = None <-> ~ In c s.
Proof.
  induction s as [| x s IH]; cbn [Extract.findChar In]; [tauto |].
  destruct (N.eqb_spec x c) as [-> | Hx].
  - split; [discriminate | intros H; exfalso; apply H; now left].
  - destruct (Extract.findChar c s); cbn [option_map].
    + split; [discriminate |]. intros H. exfalso.
      assert (H' : ~ In c s) by tauto. apply IH in H'. discriminate.
    + split; [| reflexivity]. intros _ [H | H]; [contradiction |].
      now apply IH in H.
Qed.

Lemma replaceAll_In (m : jsstring -> option nat) (s : jsstring) (skip : nat)
  (c : N) :
  In c (Extract.replaceAll m skip s) -> c = 32%N \/ In c s.
Proof.
  revert skip. induction s as [| x s IH]; intros skip;
    cbn [Extract.replaceAll In]; [tauto |].
  destruct skip as [| k].
  - destruct (m (x :: s)); intros [H | H]; auto;
      destruct (IH _ H); auto.
  - intros H. destruct (IH _ H); auto.
Qed.

Lemma collapseSpace_In (s : jsstring) (inRun : bool) (c : N) :
  In c (Extract.collapseSpace inRun s) -> c = 32%N \/ In c s.
Proof.
  revert inRun. induction s as [| x s IH]; intros inRun;
    cbn [Extract.collapseSpace In]; [tauto |].
  destruct (isSpace x); [destruct inRun |].
  - intros H. destruct (IH _ H); auto.
  - intros [H | H]; auto. destruct (IH _ H); auto.
  - intros [H | H]; auto. destruct (IH _ H); auto.
Qed.

Lemma closes_replaceAll (r : jsstring) :
  closes r -> closes (Extract.replaceAll Extract.tagMatch 0 r).
Proof.
  intros [H | [r' ->]].
  - left. apply findChar_none. intros Hin.
    apply replaceAll_In in Hin as [Hin | Hin]; [discriminate |].
    now apply findChar_none in H.
  - right. cbn [Extract.replaceAll]. now eexists.
Qed.

Lemma closes_collapseSpace (r : jsstring) :
  closes r -> closes (Extract.collapseSpace false r).
Proof.
  intros [H | [r' ->]].
  - left. apply findChar_none. intros Hin.
    apply collapseSpace_In in Hin as [Hin | Hin]; [discriminate |].
    now apply findChar_none in H.
  - right. cbn [Extract.collapseSpace]. now eexists.
Qed.

Lemma closes_prefix (r v : jsstring) : closes (r ++ v) -> closes r.
Proof.
  intros [H | [r' H]].
  - left. apply findChar_none. intros Hin.
    apply findChar_none in H. apply H, in_or_app. now left.
  - destruct r as [| y r].
    + now left.
    + right. injection H as -> _. now eexists.
Qed.

Lemma replaceAll_tag_free (s : jsstring) (skip : nat) :
  matchesIn Extract.tagMatch (Extract.replaceAll Extract.tagMatch skip s)
  = false.
Proof.
  revert skip. induction s as [| x s IH]; intros skip;
    cbn [Extract.replaceAll]; [reflexivity |].
  destruct skip as [| k]; [| apply IH].
  destruct (Extract.tagMatch (x :: s)) eqn:E.
  - apply matchesIn_cons. split; [| apply IH].
    apply tagMatch_cons. discriminate.
  - apply matchesIn_cons. split; [| apply IH].
    apply tagMatch_cons. intros Hx. apply closes_replaceAll.
    now apply (proj1 (tagMatch_cons x s)).
Qed.

Lemma collapseSpace_tag_free (s : jsstring) (inRun : bool) :
  matchesIn Extract.tagMatch s = false ->
  matchesIn Extract.tagMatch (Extract.collapseSpace inRun s) = false.
Proof.
  revert inRun. induction s as [| x s IH]; intros inRun H;
    cbn [Extract.collapseSpace]; [reflexivity |].
  apply matchesIn_cons in H as [Hx Hs].
  destruct (isSpace x) eqn:Ex; [destruct inRun |].
  - now apply IH.
  - apply matchesIn_cons. split; [| now apply IH].
    apply tagMatch_cons. discriminate.
  - apply matchesIn_cons. split; [| now apply IH].
    apply tagMatch_cons. intros Hlt. apply closes_collapseSpace.
    now apply (proj1 (tagMatch_cons x s)).
Qed.

Lemma tag_free_app (u v : jsstring) :
  matchesIn Extract.tagMatch (u ++ v) = false ->
  matchesIn Extract.tagMatch u = false
  /\ matchesIn Extract.tagMatch v = false.
Proof.
  induction u as [| x u IH]; cbn [app]; intros H.
  - split; [reflexivity | assumption].
  - apply matchesIn_cons in H as [Hx Hrest].
    destruct (IH Hrest) as [Hu Hv]. split; [| assumption].
    apply matchesIn_cons. split; [| assumption].
    apply tagMatch_cons. intros Hlt. apply (closes_prefix u v).
    now apply (proj1 (tagMatch_cons x (u ++ v))).
Qed.

Lemma trim_tag_free (s : jsstring) :
  matchesIn Extract.tagMatch s = false ->
  matchesIn Extract.tagMatch (trim s) = false.
Proof.
  intros H. destruct (trim_split s) as (p & q & Hs & _).
  rewrite Hs in H. apply tag_free_app in H as [_ H].
  now apply tag_free_app in H as [H _].
Qed.

(** The extracted text holds no tag: nowhere in it does [<[^>]+>] match. *)
Lemma stripTags_leaves_no_tag (text : jsstring) :
  matchesIn Extract.tagMatch (Extract.stripTags text) = false.
Proof.
  unfold Extract.stripTags.
  apply trim_tag_free, collapseSpace_tag_free, replaceAll_tag_free.
Qed.

(** *** Extraction of extracted text *)

Lemma replaceAll_no_match (m : jsstring -> option nat) (s : jsstring) :
  matchesIn m s = false -> Extract.replaceAll m 0 s = s.
Proof.
  induction s as [| x s IH]; [reflexivity |].
  intros H. apply matchesIn_cons in H as [Hx Hs].
  cbn [Extract.replaceAll]. rewrite Hx. f_equal. now apply IH.
Qed.

Lemma lowerAscii_small (x p : N) :
  (p < 65)%N -> Extract.lowerAscii x = p -> x = p.
Proof.
  unfold Extract.lowerAscii, isUpper. intros Hp.
  destruct (N.leb_spec 65 x); destruct (N.leb_spec x 90); cbn [andb]; lia.
Qed.

Lemma prefixCI_suffix (pat s r : jsstring) :
  Extract.prefixCI pat s = Some r -> exists u, s = u ++ r.
Proof.
  revert s. induction pat as [| p pat IH]; intros s; cbn [Extract.prefixCI].
  - intros [= ->]. now exists [].
  - destruct s as [| x s]; [discriminate |].
    destruct (Extract.lowerAscii x =? p)%N; [| discriminate].
    intros H. destruct (IH _ H) as [u ->]. now exists (x :: u).
Qed.

Lemma findChar_app_some (c : N) (u v : jsstring) (i : nat) :
  Extract.findChar c v = Some i ->
  exists j, Extract.findChar c (u ++ v) = Some j.
Proof.
  intros H. destruct (Extract.findChar c (u ++ v)) eqn:E; [now eexists |].
  apply findChar_none in E. exfalso. apply E, in_or_app. right.
  destruct (in_dec N.eq_dec c v) as [Hin | Hout]; [assumption |].
  apply findChar_none in Hout. congruence.
Qed.

(** Where a [<script ...>...</script>] or [<style ...>...</style>] block
    starts, a tag starts. *)
Lemma block_is_tag (p : N) (w closing s : jsstring) :
  p <> ch ">" -> (p < 65 \/ 97 <= p)%N ->
  Extract.blockMatch (ch "<" :: p :: w) closing s <> None ->
  Extract.tagMatch s <> None.
Proof.
  intros Hp Hrange. unfold Extract.blockMatch.
  destruct (Extract.prefixCI (ch "<" :: p :: w) s) as [r1 |] eqn:E;
    [| intros H; now contradiction H].
  destruct (Extract.findChar (ch ">") r1) as [i |] eqn:Ei;
    [| intros H; now contradiction H].
  intros _.
  cbn [Extract.prefixCI] in E.
  destruct s as [| x s]; [discriminate |].
  destruct (N.eqb_spec (Extract.lowerAscii x) (ch "<")) as [Hx | Hx];
    [| discriminate].
  apply lowerAscii_small in Hx; [| reflexivity]. subst x.
  destruct s as [| y s]; [discriminate |].
  destruct (N.eqb_spec (Extract.lowerAscii y) p) as [Hy | Hy];
    [| discriminate].
  apply prefixCI_suffix in E as [u ->].
  destruct (findChar_app_some (ch ">") u r1 i Ei) as [j Hj].
  cbn [Extract.tagMatch Extract.findChar]. change (ch "<" =? ch "<")%N with true.
  cbn iota.
  destruct (N.eqb_spec y (ch ">")) as [-> | Hne].
  - exfalso. apply Hp. rewrite <- Hy. reflexivity.
  - rewrite Hj. cbn [option_map]. discriminate.
Qed.

Lemma tag_free_block_free (p : N) (w closing s : jsstring) :
  p <> ch ">" -> (p < 65 \/ 97 <= p)%N ->
  matchesIn Extract.tagMatch s = false ->
  matchesIn (Extract.blockMatch (ch "<" :: p :: w) closing) s = false.
Proof.
  intros Hp Hrange. induction s as [| x s IH]; [reflexivity |].
  intros H. apply matchesIn_cons in H as [Hx Hs].
  apply matchesIn_cons. split; [| now apply IH].
  destruct (Extract.blockMatch (ch "<" :: p :: w) closing (x :: s)) eqn:E;
    [| reflexivity].
  exfalso. apply (block_is_tag p w closing (x :: s) Hp Hrange);
    [rewrite E; discriminate | assumption].
Qed.

Lemma stripTags_fixed (s : jsstring) :
  matchesIn Extract.tagMatch s = false ->
  spaced s = true -> trimmed s = true ->
  Extract.stripTags s = s.
Proof.
  intros Htag Hsp Htr. unfold Extract.stripTags.
  rewrite (replaceAll_no_match _ s).
  - rewrite (replaceAll_no_match _ s).
    + rewrite (replaceAll_no_match _ s Htag).
      rewrite (spaced_collapse s Hsp). now apply trimmed_trim.
    + apply (tag_free_block_free (ch "s") (lit "tyle"));
        [discriminate | right; discriminate | assumption].
  - apply (tag_free_block_free (ch "s") (lit "cript"));
      [discriminate | right; discriminate | assumption].
Qed.

(** Extracting text from extracted text changes nothing. *)
Lemma stripTags_idempotent (text : jsstring) :
  Extract.stripTags (Extract.stripTags text) = Extract.stripTags text.
Proof.
  destruct (stripTags_tidy text) as [Hsp Htr].
  apply stripTags_fixed; [apply stripTags_leaves_no_tag | assumption ..].
Qed.

End TagFree.

(** ** The segmenter *)

Section Segmenter.
Import TextShape.

Lemma isTerminal_not_space (c : N) : Text.isTerminal c = true -> isSpace c = false.
Proof.
  unfold Text.isTerminal. intros H.
  apply orb_prop in H as [H | H]; [apply orb_prop in H as [H | H] |];
    apply N.eqb_eq in H; subst c; reflexivity.
Qed.

(** The pieces of [splitAfterMark] hold the code units of the text. *)
Lemma splitAfterMark_In (s cur : jsstring) (afterMark inSep : bool)
  (p : jsstring) (x : N) :
  In p (Text.splitAfterMark afterMark inSep cur s) -> In x p ->
  In x cur \/ In x s.
Proof.
  revert afterMark inSep cur.
  induction s as [| y s IH]; intros afterMark inSep cur;
    cbn [Text.splitAfterMark].
  - intros [<- | []] Hx. left. now apply in_rev.
  - destruct (isSpace y && inSep).
    + intros Hp Hx. destruct (IH _ _ _ Hp Hx); [now left | right; now right].
    + destruct (isSpace y && afterMark).
      * intros [<- | Hp] Hx; [left; now apply in_rev |].
        destruct (IH _ _ _ Hp Hx) as [[] | H]. right. now right.
      * intros Hp Hx. destruct (IH _ _ _ Hp Hx) as [[<- | H] | H].
        -- right. now left.
        -- now left.
        -- right. now right.
Qed.

(** Every code unit that is not white space lands in some piece. *)
Lemma splitAfterMark_covers (s cur : jsstring) (afterMark inSep : bool)
  (x : N) :
  isSpace x = false -> In x cur \/ In x s ->
  exists p, In p (Text.splitAfterMark afterMark inSep cur s) /\ In x p.
Proof.
  intros Hx. revert afterMark inSep cur.
  induction s as [| y s IH]; intros afterMark inSep cur Hin;
    cbn [Text.splitAfterMark].
  - destruct Hin as [Hin | []]. exists (rev cur).
    split; [now left | now apply in_rev in Hin].
  - assert (Hy : isSpace y = true -> In x cur \/ In x s).
    { intros Hy. destruct Hin as [Hin | [-> | Hin]]; auto. congruence. }
    destruct (isSpace y) eqn:Ey; cbn [andb].
    + destruct inSep.
      * apply IH. now apply Hy.
      * destruct afterMark.
        -- destruct (Hy eq_refl) as [Hin' | Hin'].
           ++ exists (rev cur). split; [now left | now apply in_rev in Hin'].
           ++ destruct (IH false true [] (or_intror Hin')) as (p & Hp & Hxp).
              exists p. split; [now right | assumption].
        -- apply IH. destruct Hin as [Hin | [-> | Hin]]; auto.
           ++ left. now right.
           ++ left. now left.
    + apply IH. destruct Hin as [Hin | [-> | Hin]]; auto.
      * left. now right.
      * left. now left.
Qed.

(** Every piece but the last one was closed right after a terminal mark. *)
Lemma splitAfterMark_marks (s cur : jsstring) (afterMark inSep : bool) :
  (afterMark = true ->
   exists c rest, cur = c :: rest /\ Text.isTerminal c = true) ->
  exists ps final,
    Text.splitAfterMark afterMark inSep cur s = ps ++ [final]
    /\ Forall (fun p => exists body c,
                 p = body ++ [c] /\ Text.isTerminal c = true) ps.
Proof.
  revert afterMark inSep cur.
  induction s as [| y s IH]; intros afterMark inSep cur Hcur;
    cbn [Text.splitAfterMark].
  - exists [], (rev cur). split; [reflexivity | constructor].
  - destruct (isSpace y && inSep).
    + apply IH. discriminate.
    + destruct (isSpace y && afterMark) eqn:E.
      * apply andb_prop in E as [_ ->].
        destruct (Hcur eq_refl) as (c & rest & -> & Hc).
        destruct (IH false true []) as (ps & final & Hps & Hall);
          [discriminate |].
        exists (rev (c :: rest) :: ps), final. rewrite Hps.
        split; [reflexivity |]. constructor; [| assumption].
        exists (rev rest), c. split; [reflexivity | assumption].
      * apply IH. intros Hy. now exists y, cur.
Qed.

Lemma trim_In (s : jsstring) (x : N) : In x (trim s) -> In x s.
Proof.
  intros H. destruct (trim_split s) as (p & q & Hs & _). rewrite Hs.
  apply in_or_app. right. apply in_or_app. now left.
Qed.

Lemma trim_keeps (s : jsstring) (x : N) :
  isSpace x = false -> In x s -> In x (trim s).
Proof.
  intros Hx H. destruct (trim_split s) as (p & q & Hs & Hp & Hq & _).
  rewrite Hs in H. rewrite forallb_forall in Hp, Hq.
  apply in_app_or in H as [H | H]; [apply Hp in H; congruence |].
  apply in_app_or in H as [H | H]; [assumption | apply Hq in H; congruence].
Qed.

(** [trim] keeps a last code unit that is not white space. *)
Lemma trim_last (body : jsstring) (c : N) :
  isSpace c = false -> exists body', trim (body ++ [c]) = body' ++ [c].
Proof.
  intros Hc.
  destruct (trim_split (body ++ [c])) as (p & q & Hs & Hp & Hq & _).
  destruct q as [| y q' _] using rev_ind.
  - rewrite app_nil_r in Hs.
    destruct (trim (body ++ [c])) as [| z t _] using rev_ind.
    + exfalso. rewrite app_nil_r in Hs. subst p.
      rewrite forallb_forall in Hp.
      assert (H : isSpace c = true) by (apply Hp, in_or_app; right; now left).
      congruence.
    + rewrite app_assoc in Hs.
      apply app_inj_tail in Hs as [_ ->]. now exists t.
  - exfalso. rewrite !app_assoc in Hs. apply app_inj_tail in Hs as [_ ->].
    rewrite forallb_forall in Hq.
    assert (H : isSpace y = true) by (apply Hq, in_or_app; right; now left).
    congruence.
Qed.

Lemma splitSentences_In (text s : jsstring) :
  In s (Text.splitSentences text) ->
  s <> [] /\ trimmed s = true /\ ~ In 10%N s.
Proof.
  unfold Text.splitSentences. intros H.
  apply filter_In in H as [H Hlen]. apply in_map_iff in H as (p & <- & Hp).
  split; [| split].
  - intros E. rewrite E in Hlen. discriminate.
  - now destruct (trim_split p) as (_ & _ & _ & _ & _ & H).
  - intros Hin. apply trim_In in Hin.
    destruct (splitAfterMark_In _ _ _ _ _ _ Hp Hin) as [[] | Hx].
    apply in_map_iff in Hx as (y & Hy & _).
    destruct (N.eqb_spec y 10); [discriminate | congruence].
Qed.

(** Text that is not blank has a sentence. *)
Lemma splitSentences_nonempty (text : jsstring) :
  trim text <> [] -> Text.splitSentences text <> [].
Proof.
  intros Htext.
  destruct (trim_split text) as (p & q & Hs & _ & _ & Htr).
  destruct (trim text) as [| x t] eqn:Et; [now contradiction Htext |].
  unfold trimmed in Htr. apply andb_prop in Htr as [Hx _].
  apply negb_true_iff in Hx.
  assert (Hin : In x (map (fun c => if (c =? 10)%N then 32%N else c) text)).
  { apply in_map_iff. exists x. split.
    - destruct (N.eqb_spec x 10) as [-> | _]; [discriminate | reflexivity].
    - rewrite Hs. apply in_or_app. right. now left. }
  destruct (splitAfterMark_covers _ [] false false x Hx (or_intror Hin))
    as (piece & Hpiece & Hxp).
  unfold Text.splitSentences. intros E.
  assert (H : In (trim piece)
                (filter (fun s => negb (length s =? 0))
                   (map trim (Text.splitAfterMark false false []
                      (map (fun c => if (c =? 10)%N then 32%N else c) text))))).
  { apply filter_In. split; [now apply in_map |].
    pose proof (trim_keeps piece x Hx Hxp) as Hk.
    destruct (trim piece); [destruct Hk | reflexivity]. }
  rewrite E in H. destruct H.
Qed.

(** All sentences but the last come from pieces closed by a mark. *)
Lemma splitSentences_marks (text : jsstring) :
  exists marked rest,
    Text.splitSentences text = marked ++ rest
    /\ length rest <= 1
    /\ Forall (fun s => exists body c,
                 s = body ++ [c] /\ Text.isTerminal c = true) marked.
Proof.
  unfold Text.splitSentences.
  destruct (splitAfterMark_marks
              (map (fun c => if (c =? 10)%N then 32%N else c) text)
              [] false false) as (ps & final & -> & Hall); [discriminate |].
  rewrite map_app, filter_app.
  exists (filter (fun s => negb (length s =? 0)) (map trim ps)),
         (filter (fun s => negb (length s =? 0)) (map trim [final])).
  split; [reflexivity |]. split.
  - cbn [map filter]. destruct (negb _); cbn [length]; lia.
  - apply Forall_forall. intros s Hs.
    apply filter_In in Hs as [Hs _]. apply in_map_iff in Hs as (p & <- & Hp).
    rewrite Forall_forall in Hall.
    destruct (Hall p Hp) as (body & c & -> & Hc).
    destruct (trim_last body c (isTerminal_not_space c Hc)) as [body' ->].
    now exists body', c.
Qed.

End Segmenter.

(** ** The tokenizer *)

Section Tokenizer.

Lemma splitSpace_In (s cur : jsstring) (inSep : bool) (p : jsstring) (x : N) :
  In p (Text.splitSpace inSep cur s) -> In x p ->
  In x cur \/ (In x s /\ isSpace x = false).
Proof.
  revert inSep cur. induction s as [| y s IH]; intros inSep cur;
    cbn [Text.splitSpace].
  - intros [<- | []] Hx. left. now apply in_rev.
  - destruct (isSpace y) eqn:Ey; [destruct inSep |].
    + intros Hp Hx. destruct (IH _ _ Hp Hx) as [H | [H1 H2]]; [now left |].
      right. split; [now right | assumption].
    + intros [<- | Hp] Hx; [left; now apply in_rev |].
      destruct (IH _ _ Hp Hx) as [[] | [H1 H2]].
      right. split; [now right | assumption].
    + intros Hp Hx. destruct (IH _ _ Hp Hx) as [[<- | H] | [H1 H2]].
      * right. split; [now left | assumption].
      * now left.
      * right. split; [now right | assumption].
Qed.

Lemma tokenize_In (s w : jsstring) :
  In w (Text.tokenize s) ->
  2 < length w /\ forallb (fun c => isLower c || isDigit c) w = true.
Proof.
  unfold Text.tokenize. intros H. apply filter_In in H as [H Hlen].
  split; [now apply Nat.ltb_lt |].
  apply forallb_forall. intros x Hx.
  destruct (splitSpace_In _ _ _ _ _ H Hx) as [[] | [Hin Hsp]].
  apply in_map_iff in Hin as (c & Hc & _).
  destruct (isLower c || isDigit c || isSpace c) eqn:E.
  - subst c. rewrite Hsp, orb_false_r in E. exact E.
  - now subst x.
Qed.

Lemma tokenize_nil : Text.tokenize [] = [].
Proof. reflexivity. Qed.

End Tokenizer.

(** ** The vectorizer *)

Section Vectorizer.
Import Text TermCount.

Lemma jsstring_eqb_eq (a b : jsstring) : JS.eqb a b = true <-> a = b.
Proof.
  revert b. induction a as [| x a IH]; intros [| y b]; cbn [JS.eqb];
    try (split; [discriminate | discriminate]); [tauto |].
  rewrite andb_true_iff, N.eqb_eq, IH. split.
  - now intros [-> ->].
  - intros [= -> ->]. now split.
Qed.

Lemma countIn_zero (t : jsstring) (toks : list jsstring) :
  countIn t toks = 0 <-> ~ In t toks.
Proof.
  unfold countIn. induction toks as [| w toks IH]; cbn [filter In length].
  - tauto.
  - destruct (JS.eqb t w) eqn:E.
    + apply jsstring_eqb_eq in E. subst w. cbn [length].
      split; [discriminate | intros H; exfalso; apply H; now left].
    + rewrite IH. split; [| tauto].
      intros H [Hw | Hin]; [| tauto].
      subst w. assert (Ht : JS.eqb t t = true) by now apply jsstring_eqb_eq.
      congruence.
Qed.

Lemma countIn_snoc (t w : jsstring) (toks : list jsstring) :
  countIn t (toks ++ [w])
  = countIn t toks + (if JS.eqb t w then 1 else 0).
Proof.
  unfold countIn. rewrite filter_app, length_app. cbn [filter].
  now destruct (JS.eqb t w).
Qed.

Lemma vocabGet_some (t : jsstring) (vocab : Vocab) (pos id : nat) :
  vocabGet t vocab pos = Some id ->
  pos <= id /\ nth_error vocab (id - pos) = Some t.
Proof.
  revert pos. induction vocab as [| w vocab IH]; intros pos;
    cbn [vocabGet]; [discriminate |].
  destruct (JS.eqb w t) eqn:E.
  - intros [= <-]. apply jsstring_eqb_eq in E. subst w.
    rewrite Nat.sub_diag. split; [lia | reflexivity].
  - intros H. destruct (IH _ H) as [Hle Hnth]. split; [lia |].
    replace (id - pos) with (S (id - S pos)) by lia. exact Hnth.
Qed.

Lemma vocabGet_none (t : jsstring) (vocab : Vocab) (pos : nat) :
  vocabGet t vocab pos = None -> ~ In t vocab.
Proof.
  revert pos. induction vocab as [| w vocab IH]; intros pos;
    cbn [vocabGet In]; [tauto |].
  destruct (JS.eqb w t) eqn:E; [discriminate |].
  intros H [Hw | Hin]; [| now apply (IH _ H)].
  subst w. assert (Ht : JS.eqb t t = true) by now apply jsstring_eqb_eq.
  congruence.
Qed.

Lemma lookupV_none (k : nat) (v : Vector) :
  lookupV k v = None <-> ~ In k (map fst v).
Proof.
  induction v as [| [k' c] v IH]; cbn [lookupV map In fst]; [tauto |].
  destruct (Nat.eqb_spec k' k) as [-> | Hne].
  - split; [discriminate | intros H; exfalso; apply H; now left].
  - rewrite IH. tauto.
Qed.

Lemma bump_keys (k k' : nat) (v : Vector) :
  In k' (map fst (bump k v)) <-> k' = k \/ In k' (map fst v).
Proof.
  induction v as [| [k0 c] v IH]; cbn [bump map In fst].
  - intuition.
  - destruct (Nat.eqb_spec k0 k) as [-> | Hne]; cbn [map In fst].
    + intuition.
    + destruct (k <? k0); cbn [map In fst]; [intuition |].
      rewrite IH. intuition.
Qed.

Lemma bump_ascending (k : nat) (v : Vector) :
  ascending v -> ascending (bump k v).
Proof.
  unfold ascending. induction v as [| [k0 c] v IH]; cbn [bump map fst];
    intros H.
  - repeat constructor.
  - apply StronglySorted_inv in H as [Hs Hall].
    destruct (Nat.eqb_spec k0 k) as [-> | Hne]; cbn [map fst].
    + now constructor.
    + destruct (Nat.ltb_spec k k0) as [Hlt | Hge]; cbn [map fst].
      * constructor; [now constructor |].
        constructor; [assumption |].
        eapply Forall_impl; [| exact Hall]. cbn. lia.
      * constructor; [now apply IH |].
        apply Forall_forall. intros x Hx. apply bump_keys in Hx as [-> | Hx].
        -- lia.
        -- rewrite Forall_forall in Hall. now apply Hall.
Qed.

Lemma bump_positive (k : nat) (v : Vector) :
  Forall (fun kc => 1 <= snd kc) v ->
  Forall (fun kc => 1 <= snd kc) (bump k v).
Proof.
  induction v as [| [k0 c] v IH]; cbn [bump]; intros H.
  - repeat constructor.
  - apply Forall_cons_iff in H as [Hc Hv].
    destruct (k0 =? k); [constructor; [cbn; lia | assumption] |].
    destruct (k <? k0).
    + constructor; [cbn; lia |]. now constructor.
    + constructor; [assumption | now apply IH].
Qed.

Lemma lookupV_bump_other (k k' : nat) (v : Vector) :
  k' <> k -> lookupV k' (bump k v) = lookupV k' v.
Proof.
  intros Hne. induction v as [| [k0 c] v IH]; cbn [bump lookupV].
  - destruct (Nat.eqb_spec k k'); [congruence | reflexivity].
  - destruct (Nat.eqb_spec k0 k) as [-> | Hne0]; cbn [lookupV].
    + destruct (Nat.eqb_spec k k'); [congruence | reflexivity].
    + destruct (k <? k0); cbn [lookupV].
      * destruct (Nat.eqb_spec k k'); [congruence | reflexivity].
      * now rewrite IH.
Qed.

Lemma lookupV_bump_same (k : nat) (v : Vector) :
  ascending v ->
  lookupV k (bump k v)
  = Some (S (match lookupV k v with Some c => c | None => 0 end)).
Proof.
  unfold ascending. induction v as [| [k0 c] v IH]; cbn [bump lookupV map fst];
    intros H.
  - now rewrite Nat.eqb_refl.
  - apply StronglySorted_inv in H as [Hs Hall].
    destruct (Nat.eqb_spec k0 k) as [-> | Hne]; cbn [lookupV].
    + now rewrite Nat.eqb_refl.
    + destruct (Nat.ltb_spec k k0) as [Hlt | Hge]; cbn [lookupV].
      * rewrite Nat.eqb_refl.
        assert (Hnone : lookupV k v = None).
        { apply lookupV_none. intros Hin. rewrite Forall_forall in Hall.
          apply Hall in Hin. lia. }
        now rewrite Hnone.
      * destruct (Nat.eqb_spec k0 k); [contradiction | now apply IH].
Qed.

Lemma addToken_step (vocab0 : Vocab) (done : list jsstring)
  (st : Vocab * Vector) (t : jsstring) :
  tokensDone vocab0 done st ->
  tokensDone vocab0 (done ++ [t]) (addToken st t).
Proof.
  destruct st as [vocab freq]. cbn [fst snd].
  intros ((new & Hvocab & Hnew) & Hnd & Hdone & Hasc & Hshape & Hlook).
  cbn [fst snd] in *. unfold addToken, tokensDone.
  destruct (vocabGet t vocab 0) as [id |] eqn:Eget; cbn [fst snd].
  - apply vocabGet_some in Eget as [_ Hid]. rewrite Nat.sub_0_r in Hid.
    assert (Hidlt : id < length vocab)
      by (apply nth_error_Some; congruence).
    split; [| split; [| split; [| split; [| split]]]].
    + exists new. split; [assumption |]. intros t' Ht'.
      apply in_or_app. left. now apply Hnew.
    + assumption.
    + intros t' Ht'. apply in_app_or in Ht' as [Ht' | [<- | []]].
      * now apply Hdone.
      * eapply nth_error_In. exact Hid.
    + now apply bump_ascending.
    + apply Forall_forall. intros [k c] Hkc. cbn [fst snd]. split.
      * assert (Hk : In k (map fst (bump id freq)))
          by (apply in_map_iff; now exists (k, c)).
        apply bump_keys in Hk as [-> | Hk]; [assumption |].
        apply in_map_iff in Hk as ([k1 c1] & Hk1 & Hin). cbn in Hk1. subst k1.
        rewrite Forall_forall in Hshape. now apply (Hshape (k, c1)).
      * assert (Hpos : Forall (fun kc => 1 <= snd kc) (bump id freq)).
        { apply bump_positive. eapply Forall_impl; [| exact Hshape].
          cbn. tauto. }
        rewrite Forall_forall in Hpos. now apply (Hpos (k, c)).
    + intros k. unfold termCount. destruct (Nat.eq_dec k id) as [-> | Hne].
      * rewrite (lookupV_bump_same id freq Hasc), Hlook. unfold termCount.
        rewrite Hid, countIn_snoc.
        assert (Ht : JS.eqb t t = true) by now apply jsstring_eqb_eq.
        rewrite Ht, Nat.add_1_r. now destruct (countIn t done).
      * rewrite (lookupV_bump_other id k freq Hne), Hlook. unfold termCount.
        destruct (nth_error vocab k) as [t' |] eqn:Ek; [| reflexivity].
        rewrite countIn_snoc.
        destruct (JS.eqb t' t) eqn:E; [| now rewrite Nat.add_0_r].
        apply jsstring_eqb_eq in E. subst t'. exfalso. apply Hne.
        apply (proj1 (NoDup_nth_error vocab) Hnd k id);
          [apply nth_error_Some; congruence | congruence].
  - apply vocabGet_none in Eget.
    assert (Hfresh : countIn t done = 0).
    { apply countIn_zero. intros Hin. apply Eget. now apply Hdone. }
    split; [| split; [| split; [| split; [| split]]]].
    + exists (new ++ [t]). split; [now rewrite Hvocab, app_assoc |].
      intros t' Ht'. apply in_or_app.
      apply in_app_or in Ht' as [Ht' | Ht']; [left; now apply Hnew | now right].
    + apply NoDup_app; [assumption | repeat constructor; intros [] |].
      intros x Hx [<- | []]. contradiction.
    + intros t' Ht'. apply in_or_app.
      apply in_app_or in Ht' as [Ht' | Ht']; [left; now apply Hdone | now right].
    + now apply bump_ascending.
    + rewrite length_app. cbn [length].
      apply Forall_forall. intros [k c] Hkc. cbn [fst snd]. split.
      * assert (Hk : In k (map fst (bump (length vocab) freq)))
          by (apply in_map_iff; now exists (k, c)).
        apply bump_keys in Hk as [-> | Hk]; [lia |].
        apply in_map_iff in Hk as ([k1 c1] & Hk1 & Hin). cbn in Hk1. subst k1.
        rewrite Forall_forall in Hshape.
        destruct (Hshape (k, c1) Hin) as [Hlt _]. cbn in Hlt. lia.
      * assert (Hpos : Forall (fun kc => 1 <= snd kc)
                         (bump (length vocab) freq)).
        { apply bump_positive. eapply Forall_impl; [| exact Hshape].
          cbn. tauto. }
        rewrite Forall_forall in Hpos. now apply (Hpos (k, c)).
    + intros k. unfold termCount.
      destruct (Nat.eq_dec k (length vocab)) as [-> | Hne].
      * rewrite (lookupV_bump_same _ freq Hasc), Hlook. unfold termCount.
        rewrite (proj2 (nth_error_None vocab (length vocab)) (le_n _)).
        rewrite nth_error_app2, Nat.sub_diag by lia. cbn [nth_error].
        rewrite countIn_snoc, Hfresh.
        assert (Ht : JS.eqb t t = true) by now apply jsstring_eqb_eq.
        now rewrite Ht.
      * rewrite (lookupV_bump_other _ k freq Hne), Hlook. unfold termCount.
        destruct (Nat.lt_ge_cases k (length vocab)) as [Hlt | Hge].
        -- rewrite nth_error_app1 by assumption.
           destruct (nth_error vocab k) as [t' |] eqn:Ek; [| reflexivity].
           rewrite countIn_snoc.
           destruct (JS.eqb t' t) eqn:E; [| now rewrite Nat.add_0_r].
           apply jsstring_eqb_eq in E. subst t'. exfalso. apply Eget.
           eapply nth_error_In. exact Ek.
        -- rewrite (proj2 (nth_error_None vocab k) Hge).
           rewrite (proj2 (nth_error_None (vocab ++ [t]) k));
             [reflexivity |].
           rewrite length_app. cbn [length]. lia.
Qed.

Lemma addToken_fold (vocab0 : Vocab) (toks done : list jsstring)
  (st : Vocab * Vector) :
  tokensDone vocab0 done st ->
  tokensDone vocab0 (done ++ toks) (fold_left addToken toks st).
Proof.
  revert done st. induction toks as [| t toks IH]; intros done st H;
    cbn [fold_left].
  - now rewrite app_nil_r.
  - replace (done ++ t :: toks) with ((done ++ [t]) ++ toks)
      by now rewrite <- app_assoc.
    apply IH. now apply addToken_step.
Qed.

Lemma vectorOf_grows (vocab new : Vocab) (v : Vector) (s : jsstring) :
  NoDup (vocab ++ new) -> vectorOf vocab v s -> vectorOf (vocab ++ new) v s.
Proof.
  intros Hnd (Htoks & Hasc & Hshape & Hlook).
  split; [| split; [| split]].
  - intros t Ht. apply in_or_app. left. now apply Htoks.
  - assumption.
  - eapply Forall_impl; [| exact Hshape]. cbn. intros kc [H1 H2].
    rewrite length_app. split; [lia | assumption].
  - intros k. rewrite Hlook. unfold termCount.
    destruct (Nat.lt_ge_cases k (length vocab)) as [Hlt | Hge].
    + now rewrite nth_error_app1.
    + rewrite (proj2 (nth_error_None vocab k) Hge).
      rewrite nth_error_app2 by assumption.
      destruct (nth_error new (k - length vocab)) as [t |] eqn:Ek;
        [| reflexivity].
      assert (Hzero : countIn t (tokenize s) = 0).
      { apply countIn_zero. intros Hin. apply Htoks in Hin.
        apply NoDup_app_remove_l in Hnd as Hnew.
        apply nth_error_In in Ek.
        clear - Hnd Hin Ek. induction vocab as [| w vocab IH].
        - destruct Hin.
        - cbn in Hnd. apply NoDup_cons_iff in Hnd as [Hw Hnd].
          destruct Hin as [-> | Hin].
          + apply Hw, in_or_app. now right.
          + now apply IH. }
      now rewrite Hzero.
Qed.

Lemma addSentence_step (done : list jsstring) (st : Vocab * list Vector)
  (s : jsstring) :
  sentencesDone done st -> sentencesDone (done ++ [s]) (addSentence st s).
Proof.
  destruct st as [vocab vectors]. intros (Hnd & Hfrom & Hvec).
  cbn [fst snd] in *. unfold addSentence.
  assert (Hstart : tokensDone vocab [] (vocab, [])).
  { split; [| split; [| split; [| split; [| split]]]]; cbn [fst snd].
    - exists []. split; [now rewrite app_nil_r | intros t []].
    - assumption.
    - intros t [].
    - constructor.
    - constructor.
    - intros k. unfold termCount, countIn. cbn.
      now destruct (nth_error vocab k). }
  apply (addToken_fold vocab (tokenize s)) in Hstart.
  cbn [app] in Hstart.
  destruct (fold_left addToken (tokenize s) (vocab, [])) as [vocab' freq].
  destruct Hstart as ((new & Hvocab & Hnew) & Hnd' & Hdone & Hasc & Hshape
                      & Hlook).
  cbn [fst snd] in *. subst vocab'.
  split; [assumption | split].
  - intros t Ht. apply in_app_or in Ht as [Ht | Ht].
    + destruct (Hfrom t Ht) as (s' & Hs' & Hts').
      exists s'. split; [apply in_or_app; now left | assumption].
    + exists s. split; [apply in_or_app; right; now left | now apply Hnew].
  - apply Forall2_app.
    + eapply Forall2_impl; [| exact Hvec].
      intros v s' H. now apply vectorOf_grows.
    + constructor; [| constructor]. repeat split; assumption.
Qed.

Lemma addSentence_fold (sentences done : list jsstring)
  (st : Vocab * list Vector) :
  sentencesDone done st ->
  sentencesDone (done ++ sentences) (fold_left addSentence sentences st).
Proof.
  revert done st. induction sentences as [| s sentences IH]; intros done st H;
    cbn [fold_left].
  - now rewrite app_nil_r.
  - replace (done ++ s :: sentences) with ((done ++ [s]) ++ sentences)
      by now rewrite <- app_assoc.
    apply IH. now apply addSentence_step.
Qed.

Lemma buildSentenceVectors_spec (sentences : list jsstring) :
  snd (buildSentenceVectors sentences) = length (vocabOf sentences)
  /\ sentencesDone sentences
       (vocabOf sentences, fst (buildSentenceVectors sentences)).
Proof.
  unfold buildSentenceVectors, vocabOf.
  assert (H : sentencesDone [] (([], []) : Vocab * list Vector)).
  { split; [constructor | split; [intros t [] | constructor]]. }
  apply (addSentence_fold sentences) in H. cbn [app] in H.
  destruct (fold_left addSentence sentences ([], [])) as [vocab vectors].
  cbn [fst snd]. split; [reflexivity | exact H].
Qed.

End Vectorizer.

(** ** The similarity of two sentence vectors *)

Section CosineFacts.
Import Text TermCount Cosine.

Lemma cosineSim_unfold (ops : NumOps) (a b : Vector) :
  cosineSim ops a b
  = if (normOf a =? 0)%Z || (normOf b =? 0)%Z then zero ops
    else div ops (ofZ ops (dotOf a b))
           (mul ops (sqrt ops (ofZ ops (normOf a)))
              (sqrt ops (ofZ ops (normOf b)))).
Proof. reflexivity. Qed.

Lemma dot_fold (b a : Vector) (acc : Z) :
  fold_left (fun acc '(k, av) =>
      match lookupV k b with
      | Some (S bv) => (acc + Z.of_nat av * Z.of_nat (S bv))%Z
      | _ => acc
      end) a acc
  = (acc + fold_left (fun acc '(k, av) =>
             (acc + Z.of_nat av * valueAt b k)%Z) a 0)%Z.
Proof.
  assert (Hgen : forall acc0 acc1,
    fold_left (fun acc '(k, av) =>
        match lookupV k b with
        | Some (S bv) => (acc + Z.of_nat av * Z.of_nat (S bv))%Z
        | _ => acc
        end) a acc0
    = (acc0 - acc1 + fold_left (fun acc '(k, av) =>
               (acc + Z.of_nat av * valueAt b k)%Z) a acc1)%Z).
  { induction a as [| [k av] a IH]; intros acc0 acc1; cbn [fold_left].
    - lia.
    - rewrite (IH _ (acc1 + Z.of_nat av * valueAt b k)%Z). unfold valueAt.
      destruct (lookupV k b) as [[| bv] |]; lia. }
  rewrite (Hgen acc 0%Z). lia.
Qed.

Lemma dotOf_cons (k av : nat) (a b : Vector) :
  dotOf ((k, av) :: a) b = (Z.of_nat av * valueAt b k + dotOf a b)%Z.
Proof.
  unfold dotOf. cbn [fold_left]. rewrite dot_fold.
  rewrite (dot_fold b a 0). unfold valueAt.
  destruct (lookupV k b) as [[| bv] |]; lia.
Qed.

Lemma normOf_cons (k c : nat) (v : Vector) :
  normOf ((k, c) :: v) = (Z.of_nat c * Z.of_nat c + normOf v)%Z.
Proof.
  unfold normOf. cbn [fold_left].
  assert (Hgen : forall acc0 acc1,
    fold_left (fun acc '(_, c) => (acc + Z.of_nat c * Z.of_nat c)%Z) v acc0
    = (acc0 - acc1
       + fold_left (fun acc '(_, c) => (acc + Z.of_nat c * Z.of_nat c)%Z)
           v acc1)%Z).
  { induction v as [| [k' c'] v IH]; intros acc0 acc1; cbn [fold_left].
    - lia.
    - rewrite (IH _ (acc1 + Z.of_nat c' * Z.of_nat c')%Z). lia. }
  rewrite (Hgen _ 0%Z). lia.
Qed.

Lemma normOf_nonneg (v : Vector) : (0 <= normOf v)%Z.
Proof.
  induction v as [| [k c] v IH]; [reflexivity |]. rewrite normOf_cons. nia.
Qed.

Lemma dotOf_nonneg (a b : Vector) : (0 <= dotOf a b)%Z.
Proof.
  induction a as [| [k av] a IH]; [reflexivity |]. rewrite dotOf_cons.
  unfold valueAt. destruct (lookupV k b); nia.
Qed.

Lemma dotOf_nil_r (a : Vector) : dotOf a [] = 0%Z.
Proof.
  induction a as [| [k av] a IH]; [reflexivity |].
  rewrite dotOf_cons, IH. unfold valueAt. cbn. lia.
Qed.

(** An entry of [b] under a key that [a] does not hold plays no part. *)
Lemma dotOf_skip_r (a b : Vector) (k c : nat) :
  ~ In k (map fst a) -> dotOf a ((k, c) :: b) = dotOf a b.
Proof.
  induction a as [| [k' av] a IH]; intros Hk; [reflexivity |].
  rewrite !dotOf_cons, IH by (intros H; apply Hk; now right).
  unfold valueAt. cbn [lookupV].
  destruct (Nat.eqb_spec k k') as [-> | _]; [| reflexivity].
  exfalso. apply Hk. now left.
Qed.

Lemma ascending_tail (k c : nat) (v : Vector) :
  ascending ((k, c) :: v) ->
  ascending v /\ forall k', In k' (map fst v) -> k < k'.
Proof.
  unfold ascending. cbn [map fst]. intros H.
  apply StronglySorted_inv in H as [Hs Hall]. split; [assumption |].
  now apply Forall_forall.
Qed.

Lemma valueAt_below (k k' c : nat) (v : Vector) :
  ascending ((k', c) :: v) -> k < k' -> valueAt ((k', c) :: v) k = 0%Z.
Proof.
  intros H Hlt. apply ascending_tail in H as [_ Hall].
  unfold valueAt.
  assert (Hnone : lookupV k ((k', c) :: v) = None).
  { apply lookupV_none. cbn [map fst]. intros [-> | Hin]; [lia |].
    apply Hall in Hin. lia. }
  now rewrite Hnone.
Qed.

(** Two ascending vectors are walked as a merge walks them. *)
Lemma merge_ind (P : Vector -> Vector -> Prop) :
  (forall b, P [] b) ->
  (forall a, P a []) ->
  (forall k av a k' bv b,
     ascending ((k, av) :: a) -> ascending ((k', bv) :: b) ->
     k < k' -> P a ((k', bv) :: b) -> P ((k, av) :: a) ((k', bv) :: b)) ->
  (forall k av a k' bv b,
     ascending ((k, av) :: a) -> ascending ((k', bv) :: b) ->
     k' < k -> P ((k, av) :: a) b -> P ((k, av) :: a) ((k', bv) :: b)) ->
  (forall k av a bv b,
     ascending ((k, av) :: a) -> ascending ((k, bv) :: b) ->
     P a b -> P ((k, av) :: a) ((k, bv) :: b)) ->
  forall a b, ascending a -> ascending b -> P a b.
Proof.
  intros Hnil_l Hnil_r Hlt Hgt Heq.
  induction a as [| [k av] a IHa]; [intros; apply Hnil_l |].
  intros b Ha. induction b as [| [k' bv] b IHb]; [intros; apply Hnil_r |].
  intros Hb.
  pose proof (proj1 (ascending_tail _ _ _ Ha)) as Ha'.
  pose proof (proj1 (ascending_tail _ _ _ Hb)) as Hb'.
  destruct (Nat.lt_trichotomy k k') as [H | [H | H]].
  - apply Hlt; auto.
  - subst k'. apply Heq; auto.
  - apply Hgt; auto.
Qed.

Lemma dotOf_step_lt (k av k' bv : nat) (a b : Vector) :
  ascending ((k', bv) :: b) -> k < k' ->
  dotOf ((k, av) :: a) ((k', bv) :: b) = dotOf a ((k', bv) :: b).
Proof.
  intros Hb Hlt. rewrite dotOf_cons, (valueAt_below k k' bv b Hb Hlt). lia.
Qed.

Lemma dotOf_step_gt (k av k' bv : nat) (a b : Vector) :
  ascending ((k, av) :: a) -> k' < k ->
  dotOf ((k, av) :: a) ((k', bv) :: b) = dotOf ((k, av) :: a) b.
Proof.
  intros Ha Hlt. apply dotOf_skip_r.
  apply ascending_tail in Ha as [_ Hall]. cbn [map fst].
  intros [-> | Hin]; [lia |]. apply Hall in Hin. lia.
Qed.

Lemma dotOf_step_eq (k av bv : nat) (a b : Vector) :
  ascending ((k, av) :: a) ->
  dotOf ((k, av) :: a) ((k, bv) :: b)
  = (Z.of_nat av * Z.of_nat bv + dotOf a b)%Z.
Proof.
  intros Ha. rewrite dotOf_cons. unfold valueAt. cbn [lookupV].
  rewrite Nat.eqb_refl. f_equal. apply dotOf_skip_r.
  apply ascending_tail in Ha as [_ Hall].
  intros Hin. apply Hall in Hin. lia.
Qed.

Lemma dotOf_sym (a b : Vector) :
  ascending a -> ascending b -> dotOf a b = dotOf b a.
Proof.
  revert a b. apply merge_ind.
  - intros b. now rewrite dotOf_nil_r.
  - intros a. now rewrite dotOf_nil_r.
  - intros k av a k' bv b Ha Hb Hlt IH.
    now rewrite (dotOf_step_lt _ _ _ _ _ _ Hb Hlt),
      (dotOf_step_gt _ _ _ _ _ _ Hb Hlt).
  - intros k av a k' bv b Ha Hb Hlt IH.
    now rewrite (dotOf_step_gt _ _ _ _ _ _ Ha Hlt),
      (dotOf_step_lt _ _ _ _ _ _ Ha Hlt).
  - intros k av a bv b Ha Hb IH.
    rewrite (dotOf_step_eq _ _ _ _ _ Ha), (dotOf_step_eq _ _ _ _ _ Hb), IH.
    lia.
Qed.

(** One step of the inequality of Cauchy and Schwarz. *)
Lemma cauchy_step (x y D A B : Z) :
  (0 <= x)%Z -> (0 <= y)%Z -> (0 <= D)%Z -> (0 <= A)%Z -> (0 <= B)%Z ->
  (D * D <= A * B)%Z ->
  ((x * y + D) * (x * y + D) <= (x * x + A) * (y * y + B))%Z.
Proof.
  intros Hx Hy HD HA HB H.
  assert (Hmid : (2 * (x * y) * D <= x * x * B + y * y * A)%Z).
  { destruct (Z_le_gt_dec (2 * (x * y) * D) (x * x * B + y * y * A))
      as [Hle | Hgt]; [assumption | exfalso].
    assert (H0 : (0 <= x * x * B + y * y * A)%Z) by nia.
    assert (H1 : ((x * x * B + y * y * A) * (x * x * B + y * y * A)
                  < (2 * (x * y) * D) * (2 * (x * y) * D))%Z) by nia.
    assert (H2 : (4 * (x * y) * (x * y) * (D * D)
                  <= 4 * (x * y) * (x * y) * (A * B))%Z).
    { apply Z.mul_le_mono_nonneg_l; [nia | assumption]. }
    assert (H3 : (0 <= (x * x * B - y * y * A) * (x * x * B - y * y * A))%Z)
      by apply Z.square_nonneg.
    nia. }
  nia.
Qed.

Lemma dotOf_cauchy (a b : Vector) :
  ascending a -> ascending b ->
  (dotOf a b * dotOf a b <= normOf a * normOf b)%Z.
Proof.
  revert a b. apply merge_ind.
  - intros b. cbn. pose proof (normOf_nonneg b). lia.
  - intros a. rewrite dotOf_nil_r. cbn. pose proof (normOf_nonneg a). lia.
  - intros k av a k' bv b Ha Hb Hlt IH.
    rewrite (dotOf_step_lt _ _ _ _ _ _ Hb Hlt), (normOf_cons k av a).
    pose proof (normOf_nonneg ((k', bv) :: b)). nia.
  - intros k av a k' bv b Ha Hb Hlt IH.
    rewrite (dotOf_step_gt _ _ _ _ _ _ Ha Hlt), (normOf_cons k' bv b).
    pose proof (normOf_nonneg ((k, av) :: a)). nia.
  - intros k av a bv b Ha Hb IH.
    rewrite (dotOf_step_eq _ _ _ _ _ Ha), !normOf_cons.
    apply cauchy_step;
      first [assumption | apply dotOf_nonneg | apply normOf_nonneg | lia].
Qed.

Local Open Scope R_scope.

Lemma cosineSim_real (a b : Vector) :
  cosineSim RealNum a b
  = if ((normOf a =? 0)%Z || (normOf b =? 0)%Z)%bool then 0
    else IZR (dotOf a b)
         / (R_sqrt.sqrt (IZR (normOf a)) * R_sqrt.sqrt (IZR (normOf b))).
Proof. reflexivity. Qed.

Lemma cosineSim_le_one (a b : Vector) :
  ascending a -> ascending b -> cosineSim RealNum a b <= 1.
Proof.
  intros Ha Hb. rewrite cosineSim_real.
  destruct ((normOf a =? 0)%Z || (normOf b =? 0)%Z)%bool eqn:E; [lra |].
  apply orb_false_iff in E as [Ea Eb]. apply Z.eqb_neq in Ea, Eb.
  pose proof (normOf_nonneg a) as Hna. pose proof (normOf_nonneg b) as Hnb.
  assert (Hpa : 0 < IZR (normOf a)) by (apply IZR_lt; lia).
  assert (Hpb : 0 < IZR (normOf b)) by (apply IZR_lt; lia).
  rewrite <- sqrt_mult by lra.
  assert (Hpos : 0 < R_sqrt.sqrt (IZR (normOf a) * IZR (normOf b))).
  { apply sqrt_lt_R0. now apply Rmult_lt_0_compat. }
  apply (Rmult_le_reg_r (R_sqrt.sqrt (IZR (normOf a) * IZR (normOf b))));
    [assumption |].
  unfold Rdiv. rewrite Rmult_assoc, Rinv_l, Rmult_1_r, Rmult_1_l by lra.
  rewrite <- (sqrt_square (IZR (dotOf a b)))
    by (apply IZR_le, dotOf_nonneg).
  apply sqrt_le_1_alt. rewrite <- !mult_IZR. apply IZR_le.
  now apply dotOf_cauchy.
Qed.

Lemma cosineSim_sym (a b : Vector) :
  ascending a -> ascending b ->
  cosineSim RealNum a b = cosineSim RealNum b a.
Proof.
  intros Ha Hb. rewrite !cosineSim_real, (dotOf_sym a b Ha Hb).
  rewrite (orb_comm (normOf a =? 0)%Z).
  destruct ((normOf b =? 0)%Z || (normOf a =? 0)%Z)%bool; [reflexivity |].
  now rewrite (Rmult_comm (R_sqrt.sqrt (IZR (normOf a)))).
Qed.

Lemma cosineSim_pos (a b : Vector) :
  ascending a -> ascending b ->
  (0 < cosineSim RealNum a b <-> (0 < dotOf a b)%Z).
Proof.
  intros Ha Hb. rewrite cosineSim_real.
  pose proof (normOf_nonneg a) as Hna. pose proof (normOf_nonneg b) as Hnb.
  pose proof (dotOf_cauchy a b Ha Hb) as Hcs.
  pose proof (dotOf_nonneg a b) as Hd.
  destruct ((normOf a =? 0)%Z || (normOf b =? 0)%Z)%bool eqn:E.
  - split; [lra |]. intros Hpos. exfalso.
    apply orb_prop in E as [E | E]; apply Z.eqb_eq in E; rewrite E in Hcs; nia.
  - apply orb_false_iff in E as [Ea Eb]. apply Z.eqb_neq in Ea, Eb.
    assert (Hden : 0 < R_sqrt.sqrt (IZR (normOf a))
                       * R_sqrt.sqrt (IZR (normOf b))).
    { apply Rmult_lt_0_compat; apply sqrt_lt_R0, IZR_lt; lia. }
    split.
    + intros H. destruct (Z.eq_dec (dotOf a b) 0) as [E0 | Hne]; [| lia].
      rewrite E0 in H. unfold Rdiv in H. rewrite Rmult_0_l in H. lra.
    + intros H. apply Rdiv_lt_0_compat; [now apply IZR_lt | assumption].
Qed.

End CosineFacts.

(** ** The similarity of two sentences *)

Section SentenceSimilarity.
Import Text TermCount Cosine.
Variable sentences : list jsstring.

Lemma vectorOf_nil (vocab : Vocab) : vectorOf vocab [] [].
Proof.
  split; [intros t [] | split; [apply SSorted_nil | split; [constructor |]]].
  intros k. unfold termCount, countIn. cbn.
  now destruct (nth_error vocab k).
Qed.

Lemma Forall2_nth {A B} (R : A -> B -> Prop) (l : list A) (l' : list B)
  (d : A) (d' : B) (i : nat) :
  Forall2 R l l' -> R d d' -> R (nth i l d) (nth i l' d').
Proof.
  intros H Hd. revert i.
  induction H as [| x y l l' Hxy _ IH]; intros i.
  - now destruct i.
  - destruct i as [| i]; cbn [nth]; [exact Hxy | apply IH].
Qed.

Lemma vectorOf_nth (i : nat) :
  vectorOf (vocabOf sentences)
    (nth i (fst (buildSentenceVectors sentences)) [])
    (nth i sentences []).
Proof.
  destruct (buildSentenceVectors_spec sentences) as [_ (_ & _ & Hvec)].
  cbn [fst snd] in Hvec.
  apply Forall2_nth; [exact Hvec | apply vectorOf_nil].
Qed.

Lemma vector_ascending (i : nat) :
  ascending (nth i (fst (buildSentenceVectors sentences)) []).
Proof. exact (proj1 (proj2 (vectorOf_nth i))). Qed.

Lemma valueAt_cons (k c k0 : nat) (v : Vector) :
  valueAt ((k, c) :: v) k0 = if k =? k0 then Z.of_nat c else valueAt v k0.
Proof. unfold valueAt. cbn [lookupV]. now destruct (k =? k0). Qed.

Lemma valueAt_nonneg (v : Vector) (k : nat) : (0 <= valueAt v k)%Z.
Proof. unfold valueAt. destruct (lookupV k v); lia. Qed.

(** The dot product is positive when some id has an entry in both
    vectors, and only then. *)
Lemma dotOf_pos (a b : Vector) :
  ascending a ->
  ((0 < dotOf a b)%Z <->
   exists k, (0 < valueAt a k)%Z /\ (0 < valueAt b k)%Z).
Proof.
  induction a as [| [k av] a IH]; intros Ha.
  - cbn. split; [lia | intros (k & H & _); cbn in H; lia].
  - apply ascending_tail in Ha as [Ha Hall]. rewrite dotOf_cons.
    pose proof (dotOf_nonneg a b) as Hd.
    pose proof (valueAt_nonneg b k) as Hb.
    split.
    + intros H.
      destruct (Z_lt_le_dec 0 (Z.of_nat av * valueAt b k)) as [Hpos | Hzero].
      * exists k. rewrite valueAt_cons, Nat.eqb_refl. nia.
      * destruct (proj1 (IH Ha)) as (k0 & Hk0 & Hbk0); [nia |].
        exists k0. split; [| assumption]. rewrite valueAt_cons.
        destruct (Nat.eqb_spec k k0) as [-> | _]; [| assumption].
        exfalso. unfold valueAt in Hk0.
        destruct (lookupV k0 a) eqn:E; [| lia].
        assert (Hin : In k0 (map fst a)).
        { destruct (in_dec Nat.eq_dec k0 (map fst a)) as [Hin | Hout];
            [assumption |].
          apply lookupV_none in Hout. congruence. }
        apply Hall in Hin. lia.
    + intros (k0 & Hk0 & Hbk0). rewrite valueAt_cons in Hk0.
      destruct (Nat.eqb_spec k k0) as [-> | _].
      * nia.
      * assert (0 < dotOf a b)%Z by (apply (IH Ha); now exists k0). nia.
Qed.

Lemma valueAt_sentence (i k : nat) :
  (0 < valueAt (nth i (fst (buildSentenceVectors sentences)) []) k)%Z
  <-> exists t, nth_error (vocabOf sentences) k = Some t
                /\ In t (tokenize (nth i sentences [])).
Proof.
  destruct (vectorOf_nth i) as (_ & _ & _ & Hlook).
  unfold valueAt. rewrite Hlook. unfold termCount.
  destruct (nth_error (vocabOf sentences) k) as [t |].
  - destruct (countIn t (tokenize (nth i sentences []))) eqn:E.
    + apply countIn_zero in E. split; [lia |].
      intros (t' & [= <-] & Hin). contradiction.
    + split; [| lia]. intros _. exists t. split; [reflexivity |].
      destruct (in_dec (list_eq_dec N.eq_dec) t
                  (tokenize (nth i sentences []))) as [Hin | Hout];
        [assumption |].
      apply countIn_zero in Hout. congruence.
  - split; [lia | intros (t & H & _); discriminate].
Qed.

Lemma shared_token (i j : nat) :
  (0 < dotOf (nth i (fst (buildSentenceVectors sentences)) [])
         (nth j (fst (buildSentenceVectors sentences)) []))%Z
  <-> exists t, In t (tokenize (nth i sentences []))
                /\ In t (tokenize (nth j sentences [])).
Proof.
  rewrite (dotOf_pos _ _ (vector_ascending i)). split.
  - intros (k & Hi & Hj).
    apply valueAt_sentence in Hi as (t & Ht & Hti).
    apply valueAt_sentence in Hj as (t' & Ht' & Htj).
    exists t. split; [assumption | congruence].
  - intros (t & Hti & Htj).
    destruct (vectorOf_nth i) as (Hvocab & _).
    destruct (In_nth_error _ _ (Hvocab t Hti)) as [k Hk].
    exists k. split; apply valueAt_sentence; now exists t.
Qed.

Lemma ascending_ext (a b : Vector) :
  ascending a -> ascending b ->
  (forall k, lookupV k a = lookupV k b) -> a = b.
Proof.
  revert a b. apply (merge_ind (fun a b =>
    (forall k, lookupV k a = lookupV k b) -> a = b)).
  - intros [| [k c] b] H; [reflexivity |].
    specialize (H k). cbn [lookupV] in H. rewrite Nat.eqb_refl in H.
    discriminate.
  - intros [| [k c] a] H; [reflexivity |].
    specialize (H k). cbn [lookupV] in H. rewrite Nat.eqb_refl in H.
    discriminate.
  - intros k av a k' bv b Ha Hb Hlt _ H. exfalso.
    specialize (H k). cbn [lookupV] in H. rewrite Nat.eqb_refl in H.
    destruct (Nat.eqb_spec k' k); [lia |].
    apply ascending_tail in Hb as [_ Hall]. symmetry in H.
    assert (Hin : In k (map fst b)).
    { destruct (in_dec Nat.eq_dec k (map fst b)) as [Hin | Hout];
        [assumption |].
      apply lookupV_none in Hout. congruence. }
    apply Hall in Hin. lia.
  - intros k av a k' bv b Ha Hb Hlt _ H. exfalso.
    specialize (H k'). cbn [lookupV] in H. rewrite Nat.eqb_refl in H.
    destruct (Nat.eqb_spec k k'); [lia |].
    apply ascending_tail in Ha as [_ Hall].
    assert (Hin : In k' (map fst a)).
    { destruct (in_dec Nat.eq_dec k' (map fst a)) as [Hin | Hout];
        [assumption |].
      apply lookupV_none in Hout. congruence. }
    apply Hall in Hin. lia.
  - intros k av a bv b Ha Hb IH H.
    pose proof (H k) as Hk. cbn [lookupV] in Hk. rewrite Nat.eqb_refl in Hk.
    injection Hk as ->. f_equal.
    apply ascending_tail in Ha as [_ Halla].
    apply ascending_tail in Hb as [_ Hallb].
    apply IH. intros k0. specialize (H k0). cbn [lookupV] in H.
    destruct (Nat.eqb_spec k k0) as [E | _]; [subst k0 | assumption].
    transitivity (@None nat); [| symmetry]; apply lookupV_none; intros Hin.
    + apply Halla in Hin. lia.
    + apply Hallb in Hin. lia.
Qed.

Lemma dotOf_self (a : Vector) : ascending a -> dotOf a a = normOf a.
Proof.
  induction a as [| [k c] a IH]; intros Ha; [reflexivity |].
  rewrite (dotOf_step_eq _ _ _ _ _ Ha), normOf_cons, IH; [reflexivity |].
  now apply ascending_tail in Ha.
Qed.

Lemma normOf_pos (v : Vector) :
  Forall (fun kc => 1 <= snd kc) v -> v <> [] -> (0 < normOf v)%Z.
Proof.
  destruct v as [| [k c] v]; intros H Hne; [now contradiction Hne |].
  rewrite normOf_cons. pose proof (normOf_nonneg v).
  apply Forall_cons_iff in H as [Hc _]. cbn in Hc. nia.
Qed.

Lemma same_tokens_same_vector (i j : nat) :
  tokenize (nth i sentences []) = tokenize (nth j sentences []) ->
  nth i (fst (buildSentenceVectors sentences)) []
  = nth j (fst (buildSentenceVectors sentences)) [].
Proof.
  intros Htoks.
  apply ascending_ext; try apply vector_ascending.
  intros k.
  destruct (vectorOf_nth i) as (_ & _ & _ & Hi).
  destruct (vectorOf_nth j) as (_ & _ & _ & Hj).
  now rewrite Hi, Hj, Htoks.
Qed.

Lemma tokens_vector_nonempty (i : nat) :
  tokenize (nth i sentences []) <> [] ->
  nth i (fst (buildSentenceVectors sentences)) [] <> [].
Proof.
  intros Hne Hnil.
  destruct (tokenize (nth i sentences [])) as [| t toks] eqn:E;
    [now contradiction Hne |].
  assert (Hin : In t (tokenize (nth i sentences [])))
    by (rewrite E; now left).
  destruct (vectorOf_nth i) as (Hvocab & _).
  destruct (In_nth_error _ _ (Hvocab t Hin)) as [k Hk].
  assert (Hpos : (0 < valueAt (nth i (fst (buildSentenceVectors sentences)) [])
                         k)%Z)
    by (apply valueAt_sentence; now exists t).
  rewrite Hnil in Hpos. cbn in Hpos. lia.
Qed.

End SentenceSimilarity.

(** ** The order of the ranked list *)

Section RankOrder.
Import Ranking.
Local Open Scope R_scope.




End RankOrder.

(** ** The scores of the ranked list *)

Section ScoreBounds.
Import Recurrence Ranking.
Local Open Scope R_scope.

Variable n : nat.
Variable vectors : list Text.Vector.
Variable d : R.
Hypothesis n_pos : (0 < n)%nat.

Lemma share_nonneg (scores : list R) (i j : nat) :
  (forall j, (j < n)%nat -> 0 <= nth j scores 0) ->
  (i < n)%nat -> (j < n)%nat ->
  0 <= entry RealNum (simOf n vectors) j i
       / nth j (rowSumOf n vectors) 0 * nth j scores 0.
Proof.
  intros Hnn Hi Hj.
  apply Rmult_le_pos; [| now apply Hnn].
  pose proof (entry_nonneg n vectors j i Hj Hi) as He.
  pose proof (rowSumOf_nonneg n vectors j Hj) as Hr.
  destruct (Req_dec_T (nth j (rowSumOf n vectors) 0) 0) as [-> | Hnz].
  - unfold Rdiv. rewrite Rinv_0, Rmult_0_r. lra.
  - apply Rmult_le_pos; [assumption |].
    apply Rlt_le, Rinv_0_lt_compat. lra.
Qed.

Lemma finalScores_bounds (k i : nat) :
  0 <= d <= 1 -> (i < n)%nat ->
  (1 - d) / IZR (Z.of_nat n) <= nth i (finalScores RealNum d (S k) n vectors) 0
  <= 1.
Proof.
  intros Hd Hi. split.
  - rewrite finalScores_succ by assumption. unfold recurrence.
    rewrite contributors_sum by assumption.
    destruct (finalScores_wellScored n vectors d n_pos Hd k) as (_ & Hnn & _).
    match goal with
    | |- _ <= _ + d * ?S => assert (Hsum : 0 <= S)
    end.
    { apply sumOver_nonneg.
      intros j Hj. apply in_seq in Hj. apply share_nonneg; [assumption | lia ..]. }
    match goal with
    | |- _ <= _ + d * ?S => pose proof (Rmult_le_pos d S (proj1 Hd) Hsum)
    end.
    lra.
  - destruct (finalScores_wellScored n vectors d n_pos Hd (S k))
      as (_ & Hnn & Hsum).
    unfold sumScores in Hsum.
    eapply Rle_trans; [| exact (proj2 Hsum)].
    apply (sumOver_term_le (seq 0 n)
             (fun j => nth j (finalScores RealNum d (S k) n vectors) 0) i);
      [| apply in_seq; lia].
    intros j Hj. apply in_seq in Hj. apply Hnn. lia.
Qed.

Lemma finalScores_pos (k j : nat) :
  0 <= d < 1 -> (j < n)%nat ->
  0 < nth j (finalScores RealNum d k n vectors) 0.
Proof.
  intros Hd Hj.
  assert (Hn : 0 < IZR (Z.of_nat n)) by (apply IZR_lt; lia).
  destruct k as [| k].
  - unfold finalScores. cbn [iterations]. unfold one. cbn [div ofZ RealNum].
    rewrite nth_repeat_lt by assumption.
    apply Rdiv_lt_0_compat; lra.
  - assert (Hd' : 0 <= d <= 1) by lra.
    destruct (finalScores_bounds k j Hd' Hj) as [Hlow _].
    eapply Rlt_le_trans; [| exact Hlow].
    apply Rdiv_lt_0_compat; lra.
Qed.

(** A sentence whose row sum is zero is left at the base score. *)
Lemma unlinked_score (k i : nat) :
  (i < n)%nat ->
  nth i (rowSumOf n vectors) 0 = 0 ->
  nth i (finalScores RealNum d (S k) n vectors) 0
  = (1 - d) / IZR (Z.of_nat n).
Proof.
  intros Hi Hzero.
  rewrite finalScores_succ by assumption. unfold recurrence, contributors.
  rewrite filter_none.
  - unfold sumOver. cbn [fold_right]. lra.
  - intros j Hj. apply in_seq in Hj.
    rewrite (zero_row_column n vectors i j Hi) by (lia || assumption).
    cbn [ltb RealNum]. destruct (Rlt_dec 0 0) as [Habs | _]; [lra |].
    apply andb_false_r.
Qed.

(** A sentence similar to another one ends above the base score. *)
Lemma linked_score (k i j : nat) :
  0 < d < 1 -> (i < n)%nat -> (j < n)%nat ->
  0 < entry RealNum (simOf n vectors) j i ->
  (1 - d) / IZR (Z.of_nat n)
  < nth i (finalScores RealNum d (S k) n vectors) 0.
Proof.
  intros Hd Hi Hj Hpos.
  assert (Hd' : 0 <= d <= 1) by lra.
  rewrite finalScores_succ by assumption. unfold recurrence.
  rewrite contributors_sum by assumption.
  destruct (finalScores_wellScored n vectors d n_pos Hd' k) as (_ & Hnn & _).
  assert (Hterm : 0 < entry RealNum (simOf n vectors) j i
                      / nth j (rowSumOf n vectors) 0
                      * nth j (finalScores RealNum d k n vectors) 0).
  { apply Rmult_lt_0_compat.
    - apply Rdiv_lt_0_compat; [assumption |].
      now apply (positive_entry_row n vectors j i).
    - apply finalScores_pos; [lra | assumption]. }
  match goal with
  | |- _ < _ + d * ?S => assert (Hsum : 0 < S)
  end.
  { eapply Rlt_le_trans; [exact Hterm |].
    apply (sumOver_term_le (seq 0 n)
             (fun j => entry RealNum (simOf n vectors) j i
                       / nth j (rowSumOf n vectors) 0
                       * nth j (finalScores RealNum d k n vectors) 0) j);
      [| apply in_seq; lia].
    intros j' Hj'. apply in_seq in Hj'.
    apply share_nonneg; [assumption | lia ..]. }
  match goal with
  | |- _ < _ + d * ?S => pose proof (Rmult_lt_0_compat d S (proj1 Hd) Hsum)
  end.
  lra.
Qed.

End ScoreBounds.

Section IsolatedSentences.
Import Recurrence Ranking Text TermCount Cosine.
Local Open Scope R_scope.

Variable sentences : list jsstring.

Lemma pair_similar (i j : nat) :
  (i < length sentences)%nat -> (j < length sentences)%nat -> i <> j ->
  (0 < entry RealNum
         (simOf (length sentences) (fst (buildSentenceVectors sentences))) j i
   <-> exists t, In t (tokenize (nth i sentences []))
                 /\ In t (tokenize (nth j sentences []))).
Proof.
  intros Hi Hj Hne. rewrite entry_simOf by assumption.
  destruct (Nat.eqb_spec j i) as [E | _]; [now contradiction Hne |].
  destruct (j <? i)%nat.
  - rewrite cosineSim_pos by apply vector_ascending.
    rewrite shared_token. split; intros (t & H1 & H2); now exists t.
  - rewrite cosineSim_pos by apply vector_ascending.
    now rewrite shared_token.
Qed.

Lemma isolated_row (i : nat) :
  (i < length sentences)%nat ->
  isolated sentences i ->
  nth i (rowSumOf (length sentences) (fst (buildSentenceVectors sentences))) 0
  = 0.
Proof.
  intros Hi Hiso. rewrite rowSumOf_nth by assumption.
  rewrite (sumOver_ext _ _ (fun _ => 0)).
  - rewrite sumOver_const. lra.
  - intros j Hj. apply in_seq in Hj.
    destruct (Nat.eq_dec j i) as [-> | Hne].
    + rewrite entry_simOf, Nat.eqb_refl by assumption. reflexivity.
    + rewrite entry_sym by lia.
      pose proof (entry_nonneg (length sentences)
                    (fst (buildSentenceVectors sentences)) j i) as Hnn.
      destruct (Rle_lt_or_eq_dec _ _ (Hnn ltac:(lia) Hi)) as [Hpos | <-];
        [| reflexivity].
      exfalso. apply pair_similar in Hpos as (t & Hti & Htj); [| lia ..].
      exact (Hiso j t Hne Hti Htj).
Qed.

Lemma ranked_score (opts : RankOpts RealNum) (vectors : list Vector)
  (i : nat) (s : R) :
  (2 <= length sentences)%nat ->
  In (@Scored RealNum i s) (textRank RealNum sentences vectors opts) ->
  (i < length sentences)%nat
  /\ exists k, itersOf RealNum opts = S k
     /\ s = nth i (finalScores RealNum (dampingOf RealNum opts) (S k)
                     (length sentences) vectors) 0.
Proof.
  intros Hn Hin.
  apply (Permutation_in _ (textRank_perm sentences vectors opts Hn)) in Hin.
  apply In_withIndex in Hin as (i' & Hi' & Heq).
  cbn [Nat.add] in Heq. injection Heq as -> ->.
  rewrite (finalScores_length RealNum) in Hi'. split; [assumption |].
  unfold itersOf. destruct (iters RealNum opts) as [[| k] |].
  - now exists 19%nat.
  - now exists k.
  - now exists 19%nat.
Qed.

End IsolatedSentences.

(** ** The answers of the two routes *)

Section RouteAnswers.
Import Answers TextShape.

Lemma urlGuard_answers (parsed : option ParsedURL) (r : Response) :
  urlGuard parsed = Some r -> In r guardErrors.
Proof.
  unfold urlGuard, guardErrors. destruct parsed as [p |].
  - destruct (negb _); [intros [= <-]; cbn; tauto |].
    destruct (_ || _); [intros [= <-]; cbn; tauto |].
    destruct (_ && _); [intros [= <-]; cbn; tauto | discriminate].
  - intros [= <-]. cbn. tauto.
Qed.

Lemma join_head (sep x : jsstring) (rest : list (option jsstring)) :
  x <> [] -> JS.join sep (Some x :: rest) <> [].
Proof.
  intros Hx. destruct x as [| c x]; [now contradiction Hx |].
  destruct rest; cbn; discriminate.
Qed.

(** The selection step returns a summary; it is not empty when no
    sentence is. *)
Lemma summaryOf_value (ops : NumOps) (sentences : list jsstring) :
  exists s,
    Summarize.summaryOf ops sentences
    = (if length sentences <=? 3 then []
       else [EvRank (length sentences)], Value s)
    /\ (sentences <> [] -> Forall (fun x => x <> []) sentences -> s <> []).
Proof.
  unfold Summarize.summaryOf.
  destruct (Nat.leb_spec (length sentences) 3) as [Hle | Hgt].
  - eexists. split; [reflexivity |]. intros Hne Hall.
    destruct sentences as [| x rest]; [now contradiction Hne |].
    cbn [map]. apply join_head. now apply Forall_cons_iff in Hall as [Hx _].
  - eexists. split; [reflexivity |]. intros _ Hall. unfold selectTop.
    set (ranked := textRank ops sentences _ _).
    set (count := topCount ops (length sentences)).
    assert (Hn : 2 <= length sentences) by lia.
    assert (Hlen : length (jsSort (byIdxAsc ops) (firstn count ranked)) <> 0).
    { rewrite jsSort_length, length_firstn. unfold ranked.
      rewrite (textRank_length ops) by assumption.
      pose proof (topCount_bounds ops (length sentences)). fold count in H.
      lia. }
    destruct (jsSort (byIdxAsc ops) (firstn count ranked)) as [| t top] eqn:E;
      [now contradiction Hlen |].
    assert (Ht : In t ranked).
    { apply (In_firstn count). apply (jsSort_In (byIdxAsc ops)).
      rewrite E. now left. }
    destruct (textRank_item ops sentences _ _ t Hn Ht) as (i & sc & -> & Hi).
    cbn [map sentenceAt idxOf].
    destruct (nth_error sentences i) as [x |] eqn:Ex.
    + apply join_head. rewrite Forall_forall in Hall.
      apply Hall. eapply nth_error_In. exact Ex.
    + apply nth_error_None in Ex. lia.
Qed.

Lemma fetches_app (t t' : list Event) :
  fetches (t ++ t') = fetches t ++ fetches t'.
Proof.
  induction t as [| [u | | n] t IH]; cbn [app fetches]; congruence.
Qed.

(** The summarize route from the text on. *)
Lemma summarize_after_text (ops : NumOps) (text : jsstring) :
  exists t r,
    (if (length text =? 0) || (length (trim text) =? 0)
     then answer (respond 422 "No text to summarize")
     else
       let sentences := firstn 60 (Text.splitSentences text) in
       if length sentences =? 0 then answer (respond 422 "No sentences")
       else
         summary <- Summarize.summaryOf ops sentences ;;
         answer {| status := 200; payload := JSummary summary |})
    = ((t, Answered r) : Run void)
    /\ fetches t = []
    /\ (r = respond 422 "No text to summarize"
        \/ exists s, r = {| status := 200; payload := JSummary s |}
                     /\ s <> []).
Proof.
  destruct ((length text =? 0) || (length (trim text) =? 0)) eqn:Eblank.
  - eexists _, _. split; [reflexivity |]. split; [reflexivity | now left].
  - apply orb_false_iff in Eblank as [_ Etrim]. apply Nat.eqb_neq in Etrim.
    assert (Hsome : Text.splitSentences text <> []).
    { apply splitSentences_nonempty. intros E. now rewrite E in Etrim. }
    cbv zeta.
    assert (Hne : firstn 60 (Text.splitSentences text) <> []).
    { destruct (Text.splitSentences text); [now contradiction Hsome |].
      discriminate. }
    assert (Hall : Forall (fun x => x <> [])
                     (firstn 60 (Text.splitSentences text))).
    { apply Forall_forall. intros x Hx. apply In_firstn in Hx.
      now apply splitSentences_In in Hx. }
    remember (firstn 60 (Text.splitSentences text)) as sentences.
    destruct (Nat.eqb_spec (length sentences) 0) as [E | _].
    { destruct sentences; [now contradiction Hne | discriminate]. }
    destruct (summaryOf_value ops sentences) as (s & -> & Hs).
    cbn [bind answer]. eexists _, _. split; [reflexivity |]. split.
    + rewrite app_nil_r. now destruct (length sentences <=? 3).
    + right. exists s. split; [reflexivity | now apply Hs].
Qed.

Lemma summarize_cases (ops : NumOps) (P : Platform)
  (url rawText : option jsstring) :
  exists t r,
    Summarize.route ops P url rawText = (t, Answered r)
    /\ fetches t = expectedFetches P url
    /\ (In r summarizeErrors
        \/ exists s, r = {| status := 200; payload := JSummary s |}
                     /\ s <> []).
Proof.
  unfold Summarize.route, expectedFetches.
  match goal with
  | |- context [bind _ ?k] =>
      assert (Hk : forall text, exists t r,
                k text = (t, Answered r)
                /\ fetches t = []
                /\ (r = respond 422 "No text to summarize"
                    \/ exists s, r = {| status := 200; payload := JSummary s |}
                                 /\ s <> []))
        by (intros text; apply summarize_after_text);
      set (rest := k) in *
  end.
  assert (Hgo : forall t0 text,
            exists t r,
              tryCatch (bind ((t0, Value text) : Run jsstring) rest) onError
              = (t, Answered r)
              /\ fetches t = fetches t0
              /\ (In r summarizeErrors
                  \/ exists s, r = {| status := 200; payload := JSummary s |}
                               /\ s <> [])).
  { intros t0 text. destruct (Hk text) as (t & r & Hrest & Hf & Hr).
    cbn [bind]. rewrite Hrest. cbn [tryCatch].
    eexists _, _. split; [reflexivity |]. split.
    - now rewrite fetches_app, Hf, app_nil_r.
    - destruct Hr as [-> | Hr]; [left; cbn; tauto | now right]. }
  destruct (truthy url).
  - destruct (urlGuard (parseURL P (valueOf url))) as [rejection |] eqn:Eg.
    + eexists _, _. split; [reflexivity |]. split; [reflexivity |].
      left. apply in_or_app. left. now apply urlGuard_answers in Eg.
    + destruct (remote P (valueOf url)) as [| | res] eqn:Er.
      * unfold Summarize.fetchTextFromUrl, fetch. rewrite Er.
        eexists _, _. split; [reflexivity |]. split; [reflexivity |].
        left. cbn. tauto.
      * unfold Summarize.fetchTextFromUrl, fetch. rewrite Er.
        eexists _, _. split; [reflexivity |]. split; [reflexivity |].
        left. cbn. tauto.
      * destruct (ok res) eqn:Eok.
        -- rewrite (summarize_fetchText_cases P _ res Er Eok).
           destruct (readable res);
             [destruct (Summarize.MAX_BYTES <? length (concat (chunks res))) |].
           ++ eexists _, _. split; [reflexivity |]. split; [reflexivity |].
              left. cbn. tauto.
           ++ apply Hgo.
           ++ apply Hgo.
        -- unfold Summarize.fetchTextFromUrl, fetch. rewrite Er.
           cbn [bind emit ret app]. rewrite Eok.
           eexists _, _. split; [reflexivity |]. split; [reflexivity |].
           left. cbn. tauto.
  - destruct (truthy rawText).
    + apply Hgo.
    + eexists _, _. split; [reflexivity |]. split; [reflexivity |].
      left. cbn. tauto.
Qed.

Lemma article_cases (P : Platform) (url : option jsstring) :
  exists t r,
    FetchArticle.route P url = (t, Answered r)
    /\ fetches t = expectedFetches P url
    /\ (In r articleErrors
        \/ exists text, r = {| status := 200; payload := JText text |}
                        /\ matchesIn Extract.tagMatch text = false
                        /\ spaced text = true /\ trimmed text = true).
Proof.
  unfold FetchArticle.route, expectedFetches.
  assert (Hok : forall text,
            matchesIn Extract.tagMatch (Extract.stripTags text) = false
            /\ spaced (Extract.stripTags text) = true
            /\ trimmed (Extract.stripTags text) = true).
  { intros text. destruct (stripTags_tidy text).
    split; [apply stripTags_leaves_no_tag | now split]. }
  destruct (truthy url); cbn [negb].
  - destruct (urlGuard (parseURL P (valueOf url))) as [rejection |] eqn:Eg.
    + eexists _, _. split; [reflexivity |]. split; [reflexivity |].
      left. apply in_or_app. left. now apply urlGuard_answers in Eg.
    + destruct (remote P (valueOf url)) as [| | res] eqn:Er.
      * unfold FetchArticle.fetchText, fetch. rewrite Er.
        eexists _, _. split; [reflexivity |]. split; [reflexivity |].
        left. cbn. tauto.
      * unfold FetchArticle.fetchText, fetch. rewrite Er.
        eexists _, _. split; [reflexivity |]. split; [reflexivity |].
        left. cbn. tauto.
      * destruct (ok res) eqn:Eok.
        -- rewrite (article_fetchText_cases P _ res Er Eok).
           destruct (readable res);
             [destruct (FetchArticle.MAX_BYTES
                        <? length (concat (chunks res))) |].
           ++ eexists _, _. split; [reflexivity |]. split; [reflexivity |].
              left. cbn. tauto.
           ++ eexists _, _. split; [reflexivity |]. split; [reflexivity |].
              right. eexists. split; [reflexivity | apply Hok].
           ++ eexists _, _. split; [reflexivity |]. split; [reflexivity |].
              right. eexists. split; [reflexivity | apply Hok].
        -- unfold FetchArticle.fetchText, fetch. rewrite Er.
           cbn [bind emit ret app]. rewrite Eok.
           eexists _, _. split; [reflexivity |]. split; [reflexivity |].
           left. cbn. tauto.
  - eexists _, _. split; [reflexivity |]. split; [reflexivity |].
    left. cbn. tauto.
Qed.

End RouteAnswers.

(** ** Authentication of the bookmark routes *)

Section AuthFacts.
Import Bookmarks.

Lemma split_nonempty (c : N) (s : jsstring) : JS.split c s <> [].
Proof.
  destruct s as [| x s]; cbn [JS.split]; [discriminate |].
  destruct (x =? c)%N; [discriminate |].
  destruct (JS.split c s); discriminate.
Qed.

Lemma split_one (c : N) (s b : jsstring) :
  JS.split c s = [b] ->
  s = b /\ forallb (fun x => negb (x =? c)%N) b = true.
Proof.
  revert b. induction s as [| x s IH]; intros b; cbn [JS.split].
  - intros [= <-]. now split.
  - destruct (x =? c)%N eqn:Ex.
    + intros [= _ H]. now apply split_nonempty in H.
    + destruct (JS.split c s) as [| p ps] eqn:E;
        [now apply split_nonempty in E |].
      intros [= <- ->]. destruct (IH p eq_refl) as [-> Hp].
      split; [reflexivity |]. cbn [forallb]. now rewrite Ex, Hp.
Qed.

Lemma split_two (c : N) (s a b : jsstring) :
  JS.split c s = [a; b] ->
  s = a ++ c :: b
  /\ forallb (fun x => negb (x =? c)%N) a = true
  /\ forallb (fun x => negb (x =? c)%N) b = true.
Proof.
  revert a. induction s as [| x s IH]; intros a; cbn [JS.split].
  - discriminate.
  - destruct (N.eqb_spec x c) as [-> | Hx].
    + intros [= <- H]. apply split_one in H as [-> Hb]. now repeat split.
    + destruct (JS.split c s) as [| p ps] eqn:E;
        [now apply split_nonempty in E |].
      intros [= <- ->]. destruct (IH p eq_refl) as (-> & Hp & Hb).
      repeat split; [| assumption]. cbn [forallb].
      apply N.eqb_neq in Hx. now rewrite Hx, Hp.
Qed.

Lemma split_pair (c : N) (a b : jsstring) :
  forallb (fun x => negb (x =? c)%N) a = true ->
  forallb (fun x => negb (x =? c)%N) b = true ->
  JS.split c (a ++ c :: b) = [a; b].
Proof.
  intros Ha Hb. now rewrite (split_app_sep c a b Ha), (split_no_sep c b Hb).
Qed.

Variable Claim : Type.
Variable verify : jsstring -> option (Payload Claim).

Lemma authMiddleware_pair (scheme token : jsstring) :
  spaceless scheme = true -> spaceless token = true ->
  authMiddleware Claim verify (Some (scheme ++ ch " " :: token))
  = match verify token with
    | Some payload =>
        Next {| id := userId Claim payload;
                userEmail := email Claim payload |}
    | None => Reject (respond 401 "Invalid token")
    end.
Proof.
  intros Hs Ht. unfold authMiddleware.
  assert (Htruthy : truthy (Some (scheme ++ ch " " :: token)) = true)
    by now destruct scheme.
  rewrite Htruthy. cbn [negb valueOf].
  now rewrite (split_pair (ch " ") scheme token Hs Ht).
Qed.

Lemma authMiddleware_next (auth : option jsstring) (user : User Claim) :
  authMiddleware Claim verify auth = Next user ->
  exists scheme token payload,
    auth = Some (scheme ++ ch " " :: token)
    /\ spaceless scheme = true /\ spaceless token = true
    /\ verify token = Some payload
    /\ user = {| id := userId Claim payload;
                 userEmail := email Claim payload |}.
Proof.
  unfold authMiddleware.
  destruct (truthy auth) eqn:Etruthy; cbn [negb]; [| discriminate].
  destruct auth as [s |]; [| discriminate]. cbn [valueOf].
  destruct (JS.split (ch " ") s) as [| a [| b [| c rest]]] eqn:E;
    cbn [length Nat.eqb negb]; try discriminate.
  cbn [nth]. destruct (verify b) as [payload |] eqn:Ev; [| discriminate].
  intros [= <-]. apply split_two in E as (-> & Ha & Hb).
  now exists a, b, payload.
Qed.

Lemma authMiddleware_reject (auth : option jsstring) (r : Response) :
  authMiddleware Claim verify auth = Reject r ->
  r = respond 401 "Unauthorized" \/ r = respond 401 "Invalid token".
Proof.
  unfold authMiddleware.
  destruct (negb (truthy auth)); [intros [= <-]; now left |].
  destruct (negb _); [intros [= <-]; now left |].
  destruct (verify _); [discriminate | intros [= <-]; now right].
Qed.

End AuthFacts.

(** * Further properties of the code *)

(** ** The text extractor *)

(** X1.  The text the extractor returns is tidy: it neither starts nor
    ends with white space, and every white-space code unit in it is a
    single space character standing between two other code units. *)
Theorem extracted_text_is_tidy (text : jsstring) :
  TextShape.trimmed (Extract.stripTags text) = true
  /\ TextShape.spaced (Extract.stripTags text) = true.
Proof.
  destruct (stripTags_tidy text) as [Hsp Htr]. now split.
Qed.

(** X2.  The text the extractor returns holds no tag: the pattern
    [<[^>]+>] matches nowhere in it. *)
Theorem extracted_text_has_no_tag (text : jsstring) :
  TextShape.matchesIn Extract.tagMatch (Extract.stripTags text) = false.
Proof. apply stripTags_leaves_no_tag. Qed.

(** X3.  Extraction is idempotent: run on its own result, the extractor
    returns it unchanged. *)
Theorem extraction_is_idempotent (text : jsstring) :
  Extract.stripTags (Extract.stripTags text) = Extract.stripTags text.
Proof.
  destruct (stripTags_tidy text) as [Hsp Htr].
  apply stripTags_fixed; [apply stripTags_leaves_no_tag | assumption ..].
Qed.

(** X4.  Extraction never lengthens a text: every replacement puts one
    space for at least one code unit. *)
Theorem extraction_never_lengthens (text : jsstring) :
  length (Extract.stripTags text) <= length text.
Proof. apply stripTags_length. Qed.

(** ** The segmenter and the tokenizer *)

(** X5.  Every sentence of [splitSentences] is non-empty, has no white
    space at either end and holds no line feed. *)
Theorem sentences_are_trimmed_and_not_empty (text : jsstring) :
  Forall (fun s => s <> [] /\ TextShape.trimmed s = true /\ ~ In 10%N s)
    (Text.splitSentences text).
Proof.
  apply Forall_forall. intros s Hs. now apply splitSentences_In in Hs.
Qed.

Lemma Forall_removelast {A} (P : A -> Prop) (l : list A) :
  Forall P l -> Forall P (removelast l).
Proof.
  induction 1 as [| x l Hx Hl IH]; cbn [removelast]; [constructor |].
  destruct l; [constructor | now constructor].
Qed.

(** X6.  Every sentence but the last ends with one of the marks [.], [!]
    and [?]: the text is only ever cut right after a mark. *)
Theorem sentences_before_the_last_end_with_a_mark (text : jsstring) :
  Forall (fun s => exists body c,
            s = body ++ [c] /\ Text.isTerminal c = true)
    (removelast (Text.splitSentences text)).
Proof.
  destruct (splitSentences_marks text) as (marked & rest & -> & Hlen & Hall).
  destruct rest as [| r [| r' rest]]; cbn [length] in Hlen; [| | lia].
  - rewrite app_nil_r. now apply Forall_removelast.
  - now rewrite removelast_last.
Qed.

(** X7.  A text that is not blank has at least one sentence. *)
Theorem text_that_is_not_blank_has_a_sentence (text : jsstring) :
  trim text <> [] -> Text.splitSentences text <> [].
Proof. apply splitSentences_nonempty. Qed.

Lemma text_that_is_not_blank_has_a_sentence_witness :
  trim (lit "  no mark here ") <> []
  /\ Text.splitSentences (lit "  no mark here ") <> [].
Proof.
  assert (H : trim (lit "  no mark here ") <> [])
    by (vm_compute; discriminate).
  split; [exact H |].
  exact (text_that_is_not_blank_has_a_sentence (lit "  no mark here ") H).
Defined.

(** X8.  Every token of [tokenize] is at least three code units long and
    made of the lower-case letters [a-z] and the digits only. *)
Theorem tokens_are_lower_case_words (s : jsstring) :
  Forall (fun w => 2 < length w
                   /\ forallb (fun c => isLower c || isDigit c) w = true)
    (Text.tokenize s).
Proof.
  apply Forall_forall. intros w Hw. exact (tokenize_In s w Hw).
Qed.

(** ** The vectorizer *)

Lemma Forall2_In_r {A B} (R : A -> B -> Prop) (l : list A) (l' : list B)
  (y : B) :
  Forall2 R l l' -> In y l' -> exists x, In x l /\ R x y.
Proof.
  induction 1 as [| x y' l l' Hxy _ IH]; intros Hin; [destruct Hin |].
  destruct Hin as [<- | Hin].
  - exists x. split; [now left | assumption].
  - destruct (IH Hin) as (x' & Hx' & HR). exists x'.
    split; [now right | assumption].
Qed.

Lemma Forall2_Forall_l {A B} (R : A -> B -> Prop) (P : A -> Prop)
  (l : list A) (l' : list B) :
  Forall2 R l l' -> (forall x y, R x y -> P x) -> Forall P l.
Proof.
  intros H HP. induction H as [| x y l l' Hxy _ IH]; constructor.
  - exact (HP x y Hxy).
  - exact IH.
Qed.

(** X9.  [buildSentenceVectors] counts terms.  The vocabulary holds every
    token of every sentence once and nothing else, [vocabSize] is its
    size, and the vector of a sentence maps the id [k] to the number of
    times the [k]-th token of the vocabulary occurs in that sentence,
    having no entry for a token that does not occur. *)
Theorem vectors_count_the_tokens (sentences : list jsstring) :
  let vocab := TermCount.vocabOf sentences in
  NoDup vocab
  /\ snd (Text.buildSentenceVectors sentences) = length vocab
  /\ (forall t, In t vocab
                <-> exists s, In s sentences /\ In t (Text.tokenize s))
  /\ Forall2 (fun v s =>
                forall k, Text.lookupV k v
                          = TermCount.termCount vocab (Text.tokenize s) k)
       (fst (Text.buildSentenceVectors sentences)) sentences.
Proof.
  cbv zeta.
  destruct (buildSentenceVectors_spec sentences) as [Hsize (Hnd & Hfrom & Hvec)].
  cbn [fst snd] in Hnd, Hfrom, Hvec.
  split; [assumption | split; [assumption | split]].
  - intros t. split; [apply Hfrom |].
    intros (s & Hs & Ht).
    destruct (Forall2_In_r _ _ _ s Hvec Hs) as (v & _ & Hv).
    now apply (proj1 Hv).
  - eapply Forall2_impl; [| exact Hvec].
    intros v s Hv. exact (proj2 (proj2 (proj2 Hv))).
Qed.

(** X10.  There is one vector per sentence; in each the ids ascend
    strictly (so no id occurs twice), every id is below [vocabSize] and
    every count is at least 1. *)
Theorem vectors_are_well_formed (sentences : list jsstring) :
  length (fst (Text.buildSentenceVectors sentences)) = length sentences
  /\ Forall (fun v =>
               TermCount.ascending v
               /\ Forall (fun kc =>
                            fst kc < snd (Text.buildSentenceVectors sentences)
                            /\ 1 <= snd kc) v)
       (fst (Text.buildSentenceVectors sentences)).
Proof.
  destruct (buildSentenceVectors_spec sentences) as [Hsize (_ & _ & Hvec)].
  cbn [fst snd] in Hvec. rewrite Hsize. split.
  - exact (Forall2_length Hvec).
  - apply (Forall2_Forall_l _ _ _ _ Hvec).
    intros v s (_ & Hasc & Hshape & _). now split.
Qed.

(** ** The similarity of two sentences *)

Section SimilarityProperties.
Import Text TermCount Cosine.
Local Open Scope R_scope.

(** X11.  For any two sentence vectors the accumulators of [cosineSim]
    obey the inequality of Cauchy and Schwarz: [dot] is not negative and
    its square is at most [na * nb].  So the quotient the function
    returns lies between 0 and 1 when read in exact arithmetic.  The
    binary64 quotient of the running code is a rounding of it and can pass
    1 in the last place: it does for two sentences with the same three
    terms. *)
Theorem similarity_obeys_cauchy_schwarz (sentences : list jsstring)
  (i j : nat) :
  let vectors := fst (buildSentenceVectors sentences) in
  let a := nth i vectors [] in
  let b := nth j vectors [] in
  ((0 <= dotOf a b)%Z /\ (dotOf a b * dotOf a b <= normOf a * normOf b)%Z)
  /\ 0 <= cosineSim RealNum a b <= 1
  /\ PrimFloat.ltb (Float64.ofZ 1)
       (cosineSim FloatNum
          (nth 0 (fst (buildSentenceVectors threeTermPair)) [])
          (nth 1 (fst (buildSentenceVectors threeTermPair)) []))
     = true.
Proof.
  cbv zeta. split; [split | split; [split |]].
  - apply dotOf_nonneg.
  - apply dotOf_cauchy; apply vector_ascending.
  - apply cosineSim_nonneg.
  - apply cosineSim_le_one; apply vector_ascending.
  - vm_compute. reflexivity.
Qed.

(** X12.  The similarity is symmetric. *)
Theorem similarity_is_symmetric (sentences : list jsstring) (i j : nat) :
  let vectors := fst (buildSentenceVectors sentences) in
  cosineSim RealNum (nth i vectors []) (nth j vectors [])
  = cosineSim RealNum (nth j vectors []) (nth i vectors []).
Proof. cbv zeta. apply cosineSim_sym; apply vector_ascending. Qed.

(** X13.  Two sentences have a positive similarity exactly when they
    share a token. *)
Theorem similar_iff_shared_token (sentences : list jsstring) (i j : nat) :
  let vectors := fst (buildSentenceVectors sentences) in
  0 < cosineSim RealNum (nth i vectors []) (nth j vectors [])
  <-> exists t, In t (tokenize (nth i sentences []))
                /\ In t (tokenize (nth j sentences [])).
Proof.
  cbv zeta. rewrite cosineSim_pos by apply vector_ascending.
  apply shared_token.
Qed.

(** X14.  Two sentences with the same tokens, at least one, have the
    same vector, so that [dot], [na] and [nb] are one positive integer [n]
    and [cosineSim] returns [n / (sqrt n * sqrt n)] in whatever arithmetic
    it runs.  In exact arithmetic that is 1; in binary64 it is 1 up to
    rounding, and falls below 1 in the last place for two sentences with
    the same two terms. *)
Theorem same_tokens_give_the_same_vector (sentences : list jsstring)
  (i j : nat) :
  tokenize (nth i sentences []) <> [] ->
  tokenize (nth i sentences []) = tokenize (nth j sentences []) ->
  let vectors := fst (buildSentenceVectors sentences) in
  let a := nth i vectors [] in
  let b := nth j vectors [] in
  a = b
  /\ (0 < normOf a)%Z /\ dotOf a b = normOf a /\ normOf b = normOf a
  /\ (forall ops,
        cosineSim ops a b
        = div ops (ofZ ops (normOf a))
            (mul ops (sqrt ops (ofZ ops (normOf a)))
               (sqrt ops (ofZ ops (normOf a)))))
  /\ cosineSim RealNum a b = 1
  /\ PrimFloat.ltb
       (cosineSim FloatNum
          (nth 0 (fst (buildSentenceVectors twoTermPair)) [])
          (nth 1 (fst (buildSentenceVectors twoTermPair)) []))
       (Float64.ofZ 1)
     = true.
Proof.
  intros Hne Hsame. cbv zeta.
  rewrite <- (same_tokens_same_vector sentences i j Hsame).
  pose proof (vector_ascending sentences i) as Hasc.
  pose proof (tokens_vector_nonempty sentences i Hne) as Hv.
  destruct (vectorOf_nth sentences i) as (_ & _ & Hshape & _).
  set (a := nth i (fst (buildSentenceVectors sentences)) []) in *.
  assert (Hpos : (0 < normOf a)%Z).
  { apply normOf_pos; [| assumption].
    eapply Forall_impl; [| exact Hshape]. cbn. tauto. }
  assert (Hformula : forall ops,
            cosineSim ops a a
            = div ops (ofZ ops (normOf a))
                (mul ops (sqrt ops (ofZ ops (normOf a)))
                   (sqrt ops (ofZ ops (normOf a))))).
  { intros ops. rewrite cosineSim_unfold, (dotOf_self a Hasc).
    destruct (Z.eqb_spec (normOf a) 0) as [E | _]; [lia | reflexivity]. }
  split; [reflexivity |]. split; [exact Hpos |].
  split; [exact (dotOf_self a Hasc) |]. split; [reflexivity |].
  split; [exact Hformula |]. split; [| vm_compute; reflexivity].
  rewrite (Hformula RealNum). cbn [div mul sqrt ofZ RealNum].
  assert (HR : 0 < IZR (normOf a)) by now apply IZR_lt.
  rewrite sqrt_sqrt by lra.
  match goal with |- @eq _ ?x ?y => change (@eq R x y) end.
  field. lra.
Qed.

Lemma same_tokens_give_the_same_vector_witness :
  tokenize (nth 0 twoTermPair []) <> []
  /\ tokenize (nth 0 twoTermPair []) = tokenize (nth 1 twoTermPair [])
  /\ nth 0 (fst (buildSentenceVectors twoTermPair)) []
     = nth 1 (fst (buildSentenceVectors twoTermPair)) []
  /\ cosineSim RealNum
       (nth 0 (fst (buildSentenceVectors twoTermPair)) [])
       (nth 1 (fst (buildSentenceVectors twoTermPair)) [])
     = 1.
Proof.
  assert (H1 : tokenize (nth 0 twoTermPair []) <> [])
    by (vm_compute; discriminate).
  assert (H2 : tokenize (nth 0 twoTermPair [])
               = tokenize (nth 1 twoTermPair []))
    by (vm_compute; reflexivity).
  split; [exact H1 | split; [exact H2 |]].
  pose proof (same_tokens_give_the_same_vector twoTermPair 0 1 H1 H2) as H.
  cbv zeta in H.
  split; [exact (proj1 H) |].
  exact (proj1 (proj2 (proj2 (proj2 (proj2 (proj2 H)))))).
Defined.

End SimilarityProperties.

(** ** The ranked list *)

Section RankingProperties.
Import Recurrence Ranking Text.
Local Open Scope R_scope.



(** X16.  With a damping factor between 0 and 1, every score of the
    ranked list lies between the base score [(1 - d) / N] and 1. *)
Theorem ranked_scores_are_bounded (sentences : list jsstring)
  (vectors : list Vector) (opts : RankOpts RealNum) :
  (2 <= length sentences)%nat ->
  0 <= dampingOf RealNum opts <= 1 ->
  Forall (fun t => exists i s,
            t = @Scored RealNum i s
            /\ (1 - dampingOf RealNum opts) / IZR (Z.of_nat (length sentences))
               <= s <= 1)
    (textRank RealNum sentences vectors opts).
Proof.
  intros Hn Hd. apply Forall_forall. intros t Ht.
  destruct (textRank_item RealNum sentences vectors opts t Hn Ht)
    as (i & s & -> & Hi).
  destruct (ranked_score sentences opts vectors i s Hn Ht)
    as (_ & k & _ & ->).
  eexists i, _. split; [reflexivity |].
  apply finalScores_bounds; [lia | assumption ..].
Qed.

Lemma ranked_scores_are_bounded_witness :
  (2 <= length tersePage)%nat
  /\ 0 <= dampingOf RealNum (Summarize.routeOpts RealNum) <= 1
  /\ Forall (fun t => exists i s,
               t = @Scored RealNum i s
               /\ (1 - dampingOf RealNum (Summarize.routeOpts RealNum))
                  / IZR (Z.of_nat (length tersePage))
                  <= s <= 1)
       (textRank RealNum tersePage (fst (buildSentenceVectors tersePage))
          (Summarize.routeOpts RealNum)).
Proof.
  assert (Hn : (2 <= length tersePage)%nat) by (cbn; lia).
  assert (Hd : 0 <= dampingOf RealNum (Summarize.routeOpts RealNum) <= 1)
    by (rewrite routeOpts_damping; lra).
  split; [exact Hn | split; [exact Hd |]].
  exact (ranked_scores_are_bounded tersePage
           (fst (buildSentenceVectors tersePage))
           (Summarize.routeOpts RealNum) Hn Hd).
Defined.

(** X17.  With a damping factor strictly between 0 and 1, no score of
    the ranked list is below the base score [(1 - d) / N]; a sentence is
    left at the base score exactly when it shares no token with any other
    sentence, and a sentence that does share one scores strictly more. *)
Theorem base_score_iff_isolated (sentences : list jsstring)
  (opts : RankOpts RealNum) :
  (2 <= length sentences)%nat ->
  0 < dampingOf RealNum opts < 1 ->
  let base := (1 - dampingOf RealNum opts)
              / IZR (Z.of_nat (length sentences)) in
  Forall (fun t => exists i s,
            t = @Scored RealNum i s
            /\ base <= s
            /\ (s = base <-> isolated sentences i)
            /\ (~ isolated sentences i -> base < s))
    (textRank RealNum sentences (fst (buildSentenceVectors sentences)) opts).
Proof.
  intros Hn Hd. cbv zeta. apply Forall_forall. intros t Ht.
  destruct (textRank_item RealNum sentences _ opts t Hn Ht)
    as (i & s & -> & Hi).
  destruct (ranked_score sentences opts _ i s Hn Ht) as (_ & k & _ & ->).
  eexists i, _. split; [reflexivity |].
  assert (Hpos : (0 < length sentences)%nat) by lia.
  assert (Hd' : 0 <= dampingOf RealNum opts <= 1) by lra.
  pose proof (proj1 (finalScores_bounds (length sentences)
                       (fst (buildSentenceVectors sentences))
                       (dampingOf RealNum opts) Hpos k i Hd' Hi)) as Hlow.
  assert (Hiff :
    nth i (finalScores RealNum (dampingOf RealNum opts) (S k)
             (length sentences) (fst (buildSentenceVectors sentences))) 0
    = (1 - dampingOf RealNum opts) / IZR (Z.of_nat (length sentences))
    <-> isolated sentences i).
  { split.
    - intros Hbase j tok Hne Hti Htj.
      assert (Hj : (j < length sentences)%nat).
      { destruct (Nat.lt_ge_cases j (length sentences)) as [H | H];
          [assumption |].
        rewrite (nth_overflow sentences [] H) in Htj. destruct Htj. }
      assert (Hsim : 0 < entry RealNum
                           (simOf (length sentences)
                              (fst (buildSentenceVectors sentences))) j i).
      { apply (proj2 (pair_similar sentences i j Hi Hj
                        (fun e => Hne (eq_sym e)))).
        now exists tok. }
      pose proof (linked_score (length sentences)
                    (fst (buildSentenceVectors sentences))
                    (dampingOf RealNum opts) Hpos k i j Hd Hi Hj Hsim) as Hgt.
      rewrite Hbase in Hgt. lra.
    - intros Hiso. apply unlinked_score; [assumption | assumption |].
      now apply isolated_row. }
  split; [exact Hlow | split; [exact Hiff |]].
  intros Hlinked.
  destruct (Rle_lt_or_eq_dec _ _ Hlow) as [Hlt | Heq]; [exact Hlt |].
  exfalso. apply Hlinked, Hiff. symmetry. exact Heq.
Qed.

Lemma base_score_iff_isolated_witness :
  (2 <= length (splitSentences catsText))%nat
  /\ 0 < dampingOf RealNum (Summarize.routeOpts RealNum) < 1
  /\ Forall (fun t => exists i s,
               t = @Scored RealNum i s
               /\ (1 - dampingOf RealNum (Summarize.routeOpts RealNum))
                  / IZR (Z.of_nat (length (splitSentences catsText))) <= s
               /\ (s = (1 - dampingOf RealNum (Summarize.routeOpts RealNum))
                       / IZR (Z.of_nat (length (splitSentences catsText)))
                   <-> isolated (splitSentences catsText) i)
               /\ (~ isolated (splitSentences catsText) i ->
                   (1 - dampingOf RealNum (Summarize.routeOpts RealNum))
                   / IZR (Z.of_nat (length (splitSentences catsText))) < s))
       (textRank RealNum (splitSentences catsText)
          (fst (buildSentenceVectors (splitSentences catsText)))
          (Summarize.routeOpts RealNum)).
Proof.
  assert (Hn : (2 <= length (splitSentences catsText))%nat)
    by (vm_compute; lia).
  assert (Hd : 0 < dampingOf RealNum (Summarize.routeOpts RealNum) < 1)
    by (rewrite routeOpts_damping; lra).
  split; [exact Hn | split; [exact Hd |]].
  exact (base_score_iff_isolated (splitSentences catsText)
           (Summarize.routeOpts RealNum) Hn Hd).
Defined.

End RankingProperties.

(** X18.  The number of sentences the route selects is
    [min(3, max(1, N div 5))]: over the real numbers for every [N], and in
    binary64, the arithmetic the route runs in, for every [N] the route
    can reach (at most 60 sentences are kept). *)
Theorem selection_count_closed_form (n : nat) :
  topCount RealNum n = Nat.min 3 (Nat.max 1 (n / 5))
  /\ (n <= 60 -> topCount FloatNum n = Nat.min 3 (Nat.max 1 (n / 5))).
Proof.
  split; [apply topCount_real | apply topCount_float].
Qed.

Lemma selection_count_closed_form_witness :
  35 <= 60 /\ topCount FloatNum 35 = Nat.min 3 (Nat.max 1 (35 / 5)).
Proof.
  assert (H : 35 <= 60) by lia.
  split; [exact H |].
  exact (proj2 (selection_count_closed_form 35) H).
Defined.

(** ** The URL guard on IPv4 literals *)

(** X19.  For an http or https URL whose host is an IPv4 literal, the
    guard answers 400 "Disallowed IP" exactly when the address lies in
    10.0.0.0/8, 127.0.0.0/8, 169.254.0.0/16, 192.168.0.0/16 or
    172.16.0.0 - 172.31.255.255, and lets every other address through. *)
Theorem ipv4_literal_is_refused_iff_private (proto : jsstring)
  (a b c d : N) :
  JS.eqb proto (lit "http:") || JS.eqb proto (lit "https:") = true ->
  (a < 256)%N -> (b < 256)%N -> (c < 256)%N -> (d < 256)%N ->
  let guard := urlGuard (Some {| protocol := proto;
                                 hostname := URLHost.dotted a b c d |}) in
  (guard = Some (respond 400 "Disallowed IP")
   <-> URLHost.privateRange a b = true)
  /\ (guard = None <-> URLHost.privateRange a b = false).
Proof.
  intros Hproto Ha Hb Hc Hd. cbv zeta.
  rewrite (guard_on_ipv4_literal proto a b c d Hproto Ha Hb Hc Hd).
  destruct (URLHost.privateRange a b); split; split;
    (reflexivity || discriminate).
Qed.

Lemma ipv4_literal_is_refused_iff_private_witness :
  urlGuard (Some {| protocol := lit "https:";
                    hostname := URLHost.dotted 172 20 1 9 |})
  = Some (respond 400 "Disallowed IP")
  /\ urlGuard (Some {| protocol := lit "https:";
                       hostname := URLHost.dotted 172 32 1 9 |})
     = None.
Proof.
  split.
  - apply (proj1 (ipv4_literal_is_refused_iff_private (lit "https:")
                    172 20 1 9 eq_refl eq_refl eq_refl eq_refl eq_refl)).
    reflexivity.
  - apply (proj2 (ipv4_literal_is_refused_iff_private (lit "https:")
                    172 32 1 9 eq_refl eq_refl eq_refl eq_refl eq_refl)).
    reflexivity.
Defined.

(** ** The answers of the routes *)

Section AnswerProperties.
Import Answers TextShape.

(** X20.  Every answer of the summarize route is one of: the four errors
    of the guard, 400 "Missing url or text", 422 "No text to summarize",
    504 "Timeout fetching remote", 500 "Server error", or 200 with a
    summary, which is never empty. *)
Theorem summarize_answer_set (ops : NumOps) (P : Platform)
  (url rawText : option jsstring) (r : Response) :
  reply (Summarize.route ops P url rawText) = Some r ->
  In r summarizeErrors
  \/ exists s, r = {| status := 200; payload := JSummary s |} /\ s <> [].
Proof.
  destruct (summarize_cases ops P url rawText) as (t & r' & -> & _ & Hr).
  cbn [reply snd]. now intros [= <-].
Qed.

Lemma summarize_answer_set_witness :
  reply (Summarize.route FloatNum (samplePlatform Failed) None
           (Some catsText))
  = Some {| status := 200; payload := JSummary (lit "Cats are mammals.") |}
  /\ (In {| status := 200; payload := JSummary (lit "Cats are mammals.") |}
        summarizeErrors
      \/ exists s,
           {| status := 200; payload := JSummary (lit "Cats are mammals.") |}
           = {| status := 200; payload := JSummary s |} /\ s <> []).
Proof.
  assert (H : reply (Summarize.route FloatNum (samplePlatform Failed) None
                       (Some catsText))
              = Some {| status := 200;
                        payload := JSummary (lit "Cats are mammals.") |})
    by (vm_compute; reflexivity).
  split; [exact H |].
  exact (summarize_answer_set FloatNum (samplePlatform Failed) None
           (Some catsText) _ H).
Defined.

(** X21.  The answer 422 "No sentences" is never sent: a text that
    passes the blank check has a sentence. *)
Theorem no_sentences_answer_is_unreachable (ops : NumOps) (P : Platform)
  (url rawText : option jsstring) :
  reply (Summarize.route ops P url rawText)
  <> Some (respond 422 "No sentences").
Proof.
  destruct (summarize_cases ops P url rawText) as (t & r & -> & _ & Hr).
  cbn [reply snd]. intros [= ->].
  destruct Hr as [Hin | (s & Hs & _)]; [| discriminate].
  cbn in Hin. repeat (destruct Hin as [Hin | Hin]; [discriminate |]).
  destruct Hin.
Qed.

(** X22.  Every answer of the article route is one of: 400 "Missing
    url", the four errors of the guard, 502 "Failed to fetch remote", 413
    "Fetched content too large", 504 "Timeout fetching remote", 500
    "Server error", or 200 with a text that is tidy and holds no tag. *)
Theorem article_answer_set (P : Platform) (url : option jsstring)
  (r : Response) :
  reply (FetchArticle.route P url) = Some r ->
  In r articleErrors
  \/ exists text, r = {| status := 200; payload := JText text |}
                  /\ matchesIn Extract.tagMatch text = false
                  /\ spaced text = true /\ trimmed text = true.
Proof.
  destruct (article_cases P url) as (t & r' & -> & _ & Hr).
  cbn [reply snd]. now intros [= <-].
Qed.

Lemma article_answer_set_witness :
  reply (FetchArticle.route (samplePlatform catsPage) None)
  = Some (respond 400 "Missing url")
  /\ (In (respond 400 "Missing url") articleErrors
      \/ exists text,
           respond 400 "Missing url"
           = {| status := 200; payload := JText text |}
           /\ matchesIn Extract.tagMatch text = false
           /\ spaced text = true /\ trimmed text = true).
Proof.
  assert (H : reply (FetchArticle.route (samplePlatform catsPage) None)
              = Some (respond 400 "Missing url")) by reflexivity.
  split; [exact H |].
  exact (article_answer_set (samplePlatform catsPage) None _ H).
Defined.

(** X23.  Either route calls [fetch] once, on the URL of the request,
    when [url] is present and passes the guard; otherwise it never calls
    [fetch]: not without [url], and not for a rejected one. *)
Theorem routes_fetch_the_given_url_once (ops : NumOps) (P : Platform)
  (url rawText : option jsstring) :
  fetches (trace (Summarize.route ops P url rawText)) = expectedFetches P url
  /\ fetches (trace (FetchArticle.route P url)) = expectedFetches P url.
Proof.
  destruct (summarize_cases ops P url rawText) as (t & r & -> & Hf & _).
  destruct (article_cases P url) as (t' & r' & -> & Hf' & _).
  now split.
Qed.

Lemma trimStart_blank (s : jsstring) :
  forallb isSpace s = true -> trimStart s = [].
Proof.
  induction s as [| x s IH]; cbn [forallb trimStart]; [reflexivity |].
  intros H. apply andb_prop in H as [-> Hs]. now apply IH.
Qed.

Lemma forallb_firstn {A} (p : A -> bool) (n : nat) (l : list A) :
  forallb p l = true -> forallb p (firstn n l) = true.
Proof.
  rewrite !forallb_forall. intros H x Hx. apply H.
  now apply (In_firstn n).
Qed.

(** X24.  A text parameter made of white space only is answered 422 "No
    text to summarize", without any call. *)
Theorem blank_text_is_refused (ops : NumOps) (P : Platform)
  (text : jsstring) :
  text <> [] -> forallb isSpace text = true ->
  Summarize.route ops P None (Some text)
  = ([], Answered (respond 422 "No text to summarize")).
Proof.
  intros Hne Hblank. unfold Summarize.route.
  assert (Htruthy : truthy (Some text) = true)
    by (destruct text; [now contradiction Hne | reflexivity]).
  rewrite Htruthy. cbn [truthy bind ret valueOf app]. unfold slice0.
  assert (Htrim : trim (firstn Summarize.MAX_BYTES text) = []).
  { unfold trim.
    now rewrite (trimStart_blank _ (forallb_firstn _ _ _ Hblank)). }
  rewrite Htrim. cbn [length Nat.eqb]. rewrite orb_true_r. reflexivity.
Qed.

Lemma blank_text_is_refused_witness :
  lit "   " <> [] /\ forallb isSpace (lit "   ") = true
  /\ Summarize.route FloatNum (samplePlatform Failed) None (Some (lit "   "))
     = ([], Answered (respond 422 "No text to summarize")).
Proof.
  assert (H1 : lit "   " <> []) by discriminate.
  assert (H2 : forallb isSpace (lit "   ") = true) by reflexivity.
  split; [exact H1 | split; [exact H2 |]].
  exact (blank_text_is_refused FloatNum (samplePlatform Failed) (lit "   ")
           H1 H2).
Defined.

End AnswerProperties.

(** ** Authentication *)

Section AuthProperties.
Import Bookmarks.
Variable Claim : Type.
Variable verify : jsstring -> option (Payload Claim).

(** X25.  [authMiddleware] calls [next] exactly when the authorization
    header is two parts without a space, joined by one space, and
    [jwt.verify] accepts the second part; [req.user] is then built from
    the payload.  Every other request is answered with status 401. *)
Theorem authentication_passes_iff_token_verifies (auth : option jsstring)
  (user : User Claim) :
  (authMiddleware Claim verify auth = Next user
   <-> exists scheme token payload,
         auth = Some (scheme ++ ch " " :: token)
         /\ spaceless scheme = true /\ spaceless token = true
         /\ verify token = Some payload
         /\ user = {| id := userId Claim payload;
                      userEmail := email Claim payload |})
  /\ forall r, authMiddleware Claim verify auth = Reject r -> status r = 401%Z.
Proof.
  split; [split |].
  - apply authMiddleware_next.
  - intros (scheme & token & payload & -> & Hs & Ht & Hv & ->).
    now rewrite (authMiddleware_pair Claim verify scheme token Hs Ht), Hv.
  - intros r Hr.
    now destruct (authMiddleware_reject Claim verify auth r Hr) as [-> | ->].
Qed.

(** X26.  The first part of the header is never looked at: under any two
    scheme words, the empty one included, the same token has the same
    outcome. *)
Theorem authentication_ignores_the_scheme (scheme scheme' token : jsstring) :
  spaceless scheme = true -> spaceless scheme' = true ->
  spaceless token = true ->
  authMiddleware Claim verify (Some (scheme ++ ch " " :: token))
  = authMiddleware Claim verify (Some (scheme' ++ ch " " :: token)).
Proof.
  intros Hs Hs' Ht.
  now rewrite !authMiddleware_pair.
Qed.

End AuthProperties.

Lemma authentication_passes_iff_token_verifies_witness :
  Bookmarks.authMiddleware unit (fun _ => None) (Some (lit "Bearer  abc"))
  = Bookmarks.Reject (respond 401 "Unauthorized")
  /\ status (respond 401 "Unauthorized") = 401%Z.
Proof.
  assert (H : Bookmarks.authMiddleware unit (fun _ => None)
                (Some (lit "Bearer  abc"))
              = Bookmarks.Reject (respond 401 "Unauthorized"))
    by reflexivity.
  split; [exact H |].
  exact (proj2 (authentication_passes_iff_token_verifies unit (fun _ => None)
                  (Some (lit "Bearer  abc"))
                  {| Bookmarks.id := tt; Bookmarks.userEmail := tt |})
           (respond 401 "Unauthorized") H).
Defined.

Lemma authentication_ignores_the_scheme_witness :
  Bookmarks.spaceless (lit "Bearer") = true
  /\ Bookmarks.spaceless (lit "Basic") = true
  /\ Bookmarks.spaceless (lit "abc.def.ghi") = true
  /\ Bookmarks.authMiddleware unit
       (fun _ => Some {| Bookmarks.userId := tt; Bookmarks.email := tt |})
       (Some (lit "Bearer" ++ ch " " :: lit "abc.def.ghi"))
     = Bookmarks.authMiddleware unit
         (fun _ => Some {| Bookmarks.userId := tt; Bookmarks.email := tt |})
         (Some (lit "Basic" ++ ch " " :: lit "abc.def.ghi")).
Proof.
  split; [reflexivity | split; [reflexivity | split; [reflexivity |]]].
  exact (authentication_ignores_the_scheme unit _ (lit "Bearer") (lit "Basic")
           (lit "abc.def.ghi") eq_refl eq_refl eq_refl).
Defined.

(** ** The total of the scores when every sentence is linked (C7) *)

Section LinkedTotals.
Import Recurrence Text.
Local Open Scope R_scope.

(** A sentence that shares a token with another one has a row sum that is
    not zero. *)
Lemma shared_token_row (sentences : list jsstring) (j i : nat)
  (t : jsstring) :
  (j < length sentences)%nat -> (i < length sentences)%nat -> i <> j ->
  In t (tokenize (nth i sentences [])) ->
  In t (tokenize (nth j sentences [])) ->
  nth j (rowSumOf (length sentences)
           (fst (buildSentenceVectors sentences))) 0 <> 0.
Proof.
  intros Hj Hi Hne Hti Htj.
  assert (Hpos : 0 < entry RealNum
                       (simOf (length sentences)
                          (fst (buildSentenceVectors sentences))) j i).
  { apply (proj2 (pair_similar sentences i j Hi Hj Hne)). now exists t. }
  pose proof (positive_entry_row (length sentences)
                (fst (buildSentenceVectors sentences)) j i Hj Hi Hpos).
  lra.
Qed.

Lemma linkedPage_rows (j : nat) :
  (j < length linkedPage)%nat ->
  nth j (rowSumOf (length linkedPage)
           (fst (buildSentenceVectors linkedPage))) 0 <> 0.
Proof.
  intros Hj.
  assert (Hcases : j = 0%nat \/ j = 1%nat \/ j = 2%nat \/ j = 3%nat)
    by (cbn in Hj; lia).
  destruct Hcases as [-> | [-> | [-> | ->]]].
  - apply (shared_token_row linkedPage 0 1 (lit "cats"));
      [cbn; lia | cbn; lia | discriminate | vm_compute; tauto ..].
  - apply (shared_token_row linkedPage 1 0 (lit "cats"));
      [cbn; lia | cbn; lia | discriminate | vm_compute; tauto ..].
  - apply (shared_token_row linkedPage 2 3 (lit "dogs"));
      [cbn; lia | cbn; lia | discriminate | vm_compute; tauto ..].
  - apply (shared_token_row linkedPage 3 2 (lit "dogs"));
      [cbn; lia | cbn; lia | discriminate | vm_compute; tauto ..].
Qed.

End LinkedTotals.

Lemma textRank_score_sum_witness :
  (2 <= length linkedPage)%nat
  /\ (0 <= dampingOf RealNum (Summarize.routeOpts RealNum) <= 1)%R
  /\ (forall j, (j < length linkedPage)%nat ->
        nth j (Recurrence.rowSumOf (length linkedPage)
                 (fst (Text.buildSentenceVectors linkedPage))) 0%R <> 0%R)
  /\ (1 - dampingOf RealNum (Summarize.routeOpts RealNum)
      <= Recurrence.totalScore
           (textRank RealNum linkedPage
              (fst (Text.buildSentenceVectors linkedPage))
              (Summarize.routeOpts RealNum)) <= 1)%R
  /\ Recurrence.totalScore
       (textRank RealNum linkedPage
          (fst (Text.buildSentenceVectors linkedPage))
          (Summarize.routeOpts RealNum)) = 1%R.
Proof.
  assert (Hn : (2 <= length linkedPage)%nat) by (cbn; lia).
  assert (Hd : (0 <= dampingOf RealNum (Summarize.routeOpts RealNum) <= 1)%R)
    by (rewrite routeOpts_damping; lra).
  split; [exact Hn | split; [exact Hd | split; [exact linkedPage_rows |]]].
  split.
  - exact (proj1 (proj2 (textRank_score_sum linkedPage
                           (fst (Text.buildSentenceVectors linkedPage))
                           (Summarize.routeOpts RealNum) Hn Hd))).
  - exact (proj2 (proj2 (textRank_score_sum linkedPage
                           (fst (Text.buildSentenceVectors linkedPage))
                           (Summarize.routeOpts RealNum) Hn Hd))
             linkedPage_rows).
Defined.

(** The same four linked sentences in the arithmetic the code runs in: the
    total is 1 up to rounding, here two units in the last place above
    it. *)
Lemma linked_sentences_float_total :
  fold_right (fun t acc => match scoreOf FloatNum t with
                           | Some s => PrimFloat.add s acc
                           | None => acc
                           end) (Float64.ofZ 0)
    (textRank FloatNum linkedPage
       (fst (Text.buildSentenceVectors linkedPage))
       (Summarize.routeOpts FloatNum))
  = PrimFloat.add (Float64.ofZ 1)
      (PrimFloat.div (Float64.ofZ 1) (Float64.ofZ (2 ^ 51))).
Proof. vm_compute. reflexivity. Qed.
